(** * Multilingual PureJS OCR: the geometric and decoding core of [index.js]

    A shallow embedding of the paragraph grouper ([groupTextElements] and
    its helpers, [createParagraph]), of the sequence decoder
    ([Recognition.decode], [Recognition.decodeText], [Recognition.run]), of
    [Ocr.detect] and [extractFrameFromBox], of the image conversions of the
    models ([imageToInput], [outputToImage], [multipleOfBaseSize]) and of
    the region extractor ([boxPoints], [getMiniBoxes], [unclip],
    [orderPointsClockwise], [getRotateCropImage],
    [splitIntoLineImages]).  Inference, OpenCV, the polygon offset and
    the image library are parameters.

    Numbers.  JavaScript numbers that are known to be finite (frame
    coordinates, configuration ratios, tensor entries) are exact rationals
    [Q].  The rounding of binary64 arithmetic is a parameter [fl] where a
    property depends on it ([multipleOfBaseSize], [roundedMean]);
    elsewhere sums, products and quotients are exact.  Where an
    operation of the source can leave the finite range (a division whose
    divisor may be zero, [Math.max] of an empty slice, arithmetic on
    [undefined]) the result is a [jsnum], which adds the two infinities and
    NaN.  The geometry of the region extractor uses [cos], [sin] and
    [sqrt] and is modelled over the real numbers. *)

From Stdlib Require Import QArith Qabs Qminmax Qround ZArith Lia Reals Lra.
From Stdlib Require Lqa.
From stdpp Require Import base option list gmap.

Local Open Scope Q_scope.

(** ** JavaScript numbers *)

Inductive jsnum : Type :=
  | Fin (q : Q)
  | PosInf
  | NegInf
  | NaN.

(** [a < b] on finite numbers. *)
Definition Qltb (a b : Q) : bool := negb (Qle_bool b a).

(** [a / b] for finite [a] and [b]; zero is taken as [+0]. *)
Definition js_div (a b : Q) : jsnum :=
  if Qeq_bool b 0 then
    if Qeq_bool a 0 then NaN else if Qltb 0 a then PosInf else NegInf
  else Fin (a / b).

(** [x >= q] for a finite right-hand side: every comparison with NaN is
    false. *)
Definition js_geb (x : jsnum) (q : Q) : bool :=
  match x with
  | Fin a => Qle_bool q a
  | PosInf => true
  | NegInf | NaN => false
  end.

(** [x + y]. *)
Definition js_add (x y : jsnum) : jsnum :=
  match x, y with
  | NaN, _ | _, NaN => NaN
  | Fin a, Fin b => Fin (a + b)
  | PosInf, NegInf | NegInf, PosInf => NaN
  | PosInf, _ | _, PosInf => PosInf
  | NegInf, _ | _, NegInf => NegInf
  end.

(** [x / n] for an array length [n]. *)
Definition js_div_len (x : jsnum) (n : nat) : jsnum :=
  match x with
  | Fin a => js_div a (inject_Z (Z.of_nat n))
  | PosInf => PosInf
  | NegInf => NegInf
  | NaN => NaN
  end.

(** [x >= q] as a proposition. *)
Definition js_ge (x : jsnum) (q : Q) : Prop :=
  match x with
  | Fin a => q <= a
  | PosInf => True
  | NegInf | NaN => False
  end.

(** ** Strings

    A JavaScript string is a sequence of UTF-16 code units. *)

Definition jsstring : Type := list N.

Local Open Scope N_scope.

(** The code units matched by [\s] and removed by [trim]: WhiteSpace and
    LineTerminator of the language definition. *)
Definition isWhiteSpace (c : N) : bool :=
  ((9 <=? c) && (c <=? 13))
  || (c =? 32) || (c =? 160) || (c =? 5760)
  || ((8192 <=? c) && (c <=? 8202))
  || (c =? 8232) || (c =? 8233) || (c =? 8239) || (c =? 8287)
  || (c =? 12288) || (c =? 65279).

(** [s.replace(/\r/g, '')] *)
Definition removeCarriageReturns (s : jsstring) : jsstring :=
  List.filter (fun c => negb (c =? 13)) s.

(** [s.replace(/\s+/g, ' ')]: [inRun] tells that the previous code unit
    was white space, whose run has already been replaced. *)
Fixpoint collapseFrom (inRun : bool) (s : jsstring) : jsstring :=
  match s with
  | [] => []
  | c :: s' =>
      if isWhiteSpace c then
        if inRun then collapseFrom true s' else 32 :: collapseFrom true s'
      else c :: collapseFrom false s'
  end.

Definition collapseWhitespace (s : jsstring) : jsstring := collapseFrom false s.

Fixpoint trimStart (s : jsstring) : jsstring :=
  match s with
  | [] => []
  | c :: s' => if isWhiteSpace c then trimStart s' else s
  end.

(** [s.trim()] *)
Definition trim (s : jsstring) : jsstring :=
  rev (trimStart (rev (trimStart s))).

(** [charList.join('')] *)
Definition join (charList : list jsstring) : jsstring := concat charList.

Local Close Scope N_scope.

(** ** [Array.prototype.sort]

    The engine's sorting algorithm is not part of the repository.  It
    only looks at the sign of what the comparator returns, and whatever
    the comparator does (the one of [groupTextElements] need not be
    transitive) it returns the elements it was given, rearranged.  The
    properties below hold for every such engine. *)

Record ArraySort : Type := {
  array_sort : forall A : Type, (A -> A -> comparison) -> list A -> list A;
  array_sort_perm :
    forall (A : Type) (cmp : A -> A -> comparison) (l : list A),
      array_sort A cmp l ≡ₚ l
}.

Arguments array_sort _ {A} _ _.

(** The sign of a finite comparator result. *)
Definition Qsign (v : Q) : comparison := v ?= 0.

(** A stable insertion sort, one engine that meets the interface. *)
Fixpoint sort_insert {A : Type} (cmp : A -> A -> comparison) (x : A) (l : list A)
  : list A :=
  match l with
  | [] => [x]
  | y :: l' =>
      match cmp x y with
      | Gt => y :: sort_insert cmp x l'
      | _ => x :: l
      end
  end.

Definition insertion_sort {A : Type} (cmp : A -> A -> comparison) (l : list A)
  : list A :=
  foldr (sort_insert cmp) [] l.

(** The insertion sort is such an engine. *)
Definition insertion_engine : ArraySort.
Proof.
  refine {| array_sort := @insertion_sort |}.
  intros A cmp l. induction l as [|x l IH]; [reflexivity|].
  change (insertion_sort cmp (x :: l))
    with (sort_insert cmp x (insertion_sort cmp l)).
  transitivity (x :: insertion_sort cmp l); [|by apply perm_skip].
  generalize (insertion_sort cmp l) as k. clear IH l.
  induction k as [|y k IHk]; simpl; [reflexivity|].
  destruct (cmp x y); try reflexivity.
  transitivity (y :: x :: k); [by apply perm_skip | apply perm_swap].
Defined.

(** ** Text grouping functions *)

Module Grouping.

Record Frame : Type := mkFrame {
  left : Q;
  top : Q;
  width : Q;
  height : Q
}.

Record GroupingConfig : Type := mkConfig {
  VERTICAL_THRESHOLD_RATIO : Q;
  HORIZONTAL_THRESHOLD_RATIO : Q;
  MIN_OVERLAP_RATIO : Q;
  MAX_VERTICAL_OFFSET_RATIO : Q
}.

(** [DEFAULT_CONFIG.GROUPING] *)
Definition DEFAULT_GROUPING : GroupingConfig :=
  {| VERTICAL_THRESHOLD_RATIO := 12 # 10;
     HORIZONTAL_THRESHOLD_RATIO := 25 # 10;
     MIN_OVERLAP_RATIO := 3 # 10;
     MAX_VERTICAL_OFFSET_RATIO := 5 # 10 |}.

Record TextElement : Type := mkElement {
  text : jsstring;
  confidence : jsnum;
  frame : Frame;
  box : list (Q * Q)
}.

(** The [horizontal] and [vertical] fields of what [calculateDistance]
    returns; its [euclidean] field is never read. *)
Record Distance : Type := mkDistance {
  horizontal : Q;
  vertical : Q
}.

Definition calculateDistance (box1 box2 : Frame) : Distance :=
  let center1x := left box1 + width box1 / 2 in
  let center1y := top box1 + height box1 / 2 in
  let center2x := left box2 + width box2 / 2 in
  let center2y := top box2 + height box2 / 2 in
  {| horizontal := Qabs (center1x - center2x);
     vertical := Qabs (center1y - center2y) |}.

Definition boxesOverlapVertically (box1 box2 : Frame) : jsnum :=
  let top1 := top box1 in
  let bottom1 := top box1 + height box1 in
  let top2 := top box2 in
  let bottom2 := top box2 + height box2 in
  let overlapTop := Qmax top1 top2 in
  let overlapBottom := Qmin bottom1 bottom2 in
  let overlap := Qmax 0 (overlapBottom - overlapTop) in
  let minHeight := Qmin (height box1) (height box2) in
  js_div overlap minHeight.

Definition areOnSameLine (box1 box2 : Frame) (config : GroupingConfig) : bool :=
  let overlapRatio := boxesOverlapVertically box1 box2 in
  let verticalOffset :=
    Qabs ((top box1 + height box1 / 2) - (top box2 + height box2 / 2)) in
  let avgHeight := (height box1 + height box2) / 2 in
  js_geb overlapRatio (MIN_OVERLAP_RATIO config)
  || Qltb verticalOffset (avgHeight * MAX_VERTICAL_OFFSET_RATIO config).

Definition shouldGroup (box1 box2 : Frame) (avgHeight : Q)
    (config : GroupingConfig) : bool :=
  let distance := calculateDistance box1 box2 in
  if areOnSameLine box1 box2 config then
    let maxHorizontalGap := avgHeight * HORIZONTAL_THRESHOLD_RATIO config in
    let isRightOf := Qltb (left box1) (left box2) in
    isRightOf && Qltb (horizontal distance) maxHorizontalGap
  else
    let maxVerticalGap := avgHeight * VERTICAL_THRESHOLD_RATIO config in
    let horizontalOverlap :=
      Qmin (left box1 + width box1) (left box2 + width box2)
      - Qmax (left box1) (left box2) in
    let isBelow := Qltb (top box1) (top box2) in
    let hasHorizontalOverlap := Qltb 0 horizontalOverlap in
    isBelow && Qltb (vertical distance) maxVerticalGap && hasHorizontalOverlap.

(** The comparator of both sorts of [groupTextElements], on two frames. *)
Definition compareFrames (avgHeight : Q) (a b : Frame) : Q :=
  let verticalDiff := top a - top b in
  if Qltb (Qabs verticalDiff) (avgHeight * (1 # 2)) then left a - left b
  else verticalDiff.

(** [elements.reduce((sum, el) => sum + el.frame.height, 0) / elements.length] *)
Definition averageHeight (elements : list TextElement) : Q :=
  fold_left (fun sum el => sum + height (frame el)) elements 0
  / inject_Z (Z.of_nat (length elements)).

Definition zeroFrame : Frame :=
  {| left := 0; top := 0; width := 0; height := 0 |}.

(** [sorted[idx].frame].  The indices that the loops produce are below
    [sorted.length] (lemmas [growGroup_spec] and [groupLoop_spec]), so the
    default is never read; the source would raise a TypeError on
    [undefined.frame]. *)
Definition frameAt (sorted : list TextElement) (idx : nat) : Frame :=
  from_option frame zeroFrame (sorted !! idx).

Section GroupTextElements.

Context (engine : ArraySort).
Context (config : GroupingConfig).
Context (avgHeight : Q).
Context (sorted : list TextElement).

(** The body of [for (const groupIdx of group)]: is some member of the
    group adjacent to [sorted[j]]? *)
Definition adjacentToGroup (group : list nat) (j : nat) : bool :=
  existsb
    (fun groupIdx =>
       shouldGroup (frameAt sorted groupIdx) (frameAt sorted j) avgHeight config)
    group.

(** The [for (let j ...)] loop over the indices [js]: the first unused
    index that is adjacent to a member of the group, at which the loop
    breaks with [changed = true]. *)
Fixpoint scanUnused (js : list nat) (group : list nat) (used : gset nat)
  : option nat :=
  match js with
  | [] => None
  | j :: js' =>
      if decide (j ∈ used) then scanUnused js' group used
      else if adjacentToGroup group j then Some j
      else scanUnused js' group used
  end.

(** The [while (changed)] loop; [None] when the fuel runs out. *)
Fixpoint growGroup (fuel : nat) (group : list nat) (used : gset nat)
  : option (list nat * gset nat) :=
  match fuel with
  | O => None
  | S fuel' =>
      match scanUnused (seq 0 (length sorted)) group used with
      | None => Some (group, used)
      | Some j => growGroup fuel' (group ++ [j]) ({[j]} ∪ used)
      end
  end.

(** The comparator of [group.sort], on indices into [sorted]. *)
Definition compareIndices (a b : nat) : comparison :=
  Qsign (compareFrames avgHeight (frameAt sorted a) (frameAt sorted b)).

(** [group.map(idx => sorted[idx])], for indices below [sorted.length]. *)
Definition elementsAt (group : list nat) : list TextElement :=
  omap (fun idx => sorted !! idx) group.

(** The [for (let i ...)] loop over the indices [idxs]. *)
Fixpoint groupLoop (idxs : list nat) (used : gset nat)
    (groups : list (list TextElement)) : option (list (list TextElement)) :=
  match idxs with
  | [] => Some groups
  | i :: idxs' =>
      if decide (i ∈ used) then groupLoop idxs' used groups
      else
        match growGroup (S (length sorted)) [i] ({[i]} ∪ used) with
        | None => None
        | Some (group, used') =>
            let group' := array_sort engine compareIndices group in
            groupLoop idxs' used' (groups ++ [elementsAt group'])
        end
  end.

(** *** Notions used in the statements *)

(** The indices below [sorted.length] that are not yet in a group. *)
Definition unused (used : gset nat) : gset nat :=
  set_seq 0 (length sorted) ∖ used.

(** When no two elements of [sorted] are adjacent, every scan comes
    back empty and every element ends in a group of its own. *)
Definition noAdjacency : Prop :=
  forall i j, (i < length sorted)%nat -> (j < length sorted)%nat ->
    shouldGroup (frameAt sorted i) (frameAt sorted j) avgHeight config = false.

End GroupTextElements.

(** The comparator of [[...elements].sort]. *)
Definition compareElements (avgHeight : Q) (a b : TextElement) : comparison :=
  Qsign (compareFrames avgHeight (frame a) (frame b)).

Definition groupTextElements (engine : ArraySort) (elements : list TextElement)
    (config : GroupingConfig) : option (list (list TextElement)) :=
  match elements with
  | [] => Some []
  | _ =>
      let avgHeight := averageHeight elements in
      let sorted := array_sort engine (compareElements avgHeight) elements in
      groupLoop engine config avgHeight sorted (seq 0 (length sorted)) ∅ []
  end.

(** *** Notions used in the statements *)

(** The vertical centre of a frame. *)
Definition centerY (b : Frame) : Q := top b + height b / 2.

(** The same-line test as the specification words it: the offset
    threshold is a multiple of the average height [avgHeight] of all the
    elements. *)
Definition areOnSameLine_global (avgHeight : Q) (box1 box2 : Frame)
    (config : GroupingConfig) : bool :=
  js_geb (boxesOverlapVertically box1 box2) (MIN_OVERLAP_RATIO config)
  || Qltb (Qabs (centerY box1 - centerY box2))
       (avgHeight * MAX_VERTICAL_OFFSET_RATIO config).

(** The comparator as the specification words it: same row when the
    vertical centres are less than half the average height apart. *)
Definition compareFrames_centers (avgHeight : Q) (a b : Frame) : Q :=
  if Qltb (Qabs (centerY a - centerY b)) (avgHeight * (1 # 2))
  then left a - left b
  else top a - top b.

(** An element with a given frame, for the examples: the text ["x"],
    and the polygon of an upright rectangle. *)
Definition element (f : Frame) : TextElement :=
  {| text := [120%N];
     confidence := Fin (9 # 10);
     frame := f;
     box := [ (left f, top f);
              (left f + width f, top f);
              (left f + width f, top f + height f);
              (left f, top f + height f) ] |}.

End Grouping.

(** ** Recognition model *)

Module Recognition.

(** [DEFAULT_CONFIG.RECOGNITION.IGNORED_TOKENS] *)
Definition IGNORED_TOKENS : list Z := [0%Z].

(** The output of the recognition model: [dims] is
    [[batch, timesteps, vocabulary]]. *)
Record Tensor : Type := mkTensor {
  dims0 : nat;
  dims1 : nat;
  dims2 : nat;
  data : list Q
}.

(** What [decode] returns. *)
Record Line : Type := mkLine {
  text : jsstring;
  mean : jsnum
}.

(** [array[i]] for a number [i] that may be negative: [undefined] outside
    the array. *)
Definition at_index {A : Type} (array : list A) (i : Z) : option A :=
  if (i <? 0)%Z then None else array !! Z.to_nat i.

(** [confList.length ? confList.reduce((a, b) => a + b) / confList.length : 0] *)
Definition meanOf (confList : list jsnum) : jsnum :=
  match confList with
  | [] => Fin 0
  | first :: rest => js_div_len (fold_left js_add rest first) (length confList)
  end.

Section Decode.

Context (dictionary : list jsstring).
Context (removeDuplicateChars : bool).

(** [this.#dictionary[c - 1]] when it is truthy: defined and not the
    empty string. *)
Definition dictionaryChar (c : Z) : option jsstring :=
  match at_index dictionary (c - 1) with
  | Some (u :: char) => Some (u :: char)
  | Some [] | None => None
  end.

(** [textProb[idx]] as a number: [undefined] counts as NaN. *)
Definition probAt (textProb : list jsnum) (idx : nat) : jsnum :=
  default NaN (textProb !! idx).

(** One iteration of the loop of [decode], on the pair
    [(charList, confList)]. *)
Definition decodeStep (textIndex : list Z) (textProb : list jsnum)
    (acc : list jsstring * list jsnum) (idx : nat)
  : list jsstring * list jsnum :=
  match textIndex !! idx with
  | None => acc
  | Some c =>
      if bool_decide (c ∈ IGNORED_TOKENS) then acc
      else if removeDuplicateChars && (0 <? idx)%nat
              && bool_decide (textIndex !! (idx - 1)%nat = Some c) then acc
      else
        match dictionaryChar c with
        | Some char => (acc.1 ++ [char], acc.2 ++ [probAt textProb idx])
        | None => acc
        end
  end.

(** What the iteration for [idx] appends to [charList], if anything. *)
Definition emittedAt (textIndex : list Z) (idx : nat) : option jsstring :=
  match textIndex !! idx with
  | None => None
  | Some c =>
      if bool_decide (c ∈ IGNORED_TOKENS) then None
      else if removeDuplicateChars && (0 <? idx)%nat
              && bool_decide (textIndex !! (idx - 1)%nat = Some c) then None
      else dictionaryChar c
  end.

(** What the iteration for [idx] appends to [confList], if anything. *)
Definition confidenceAt (textIndex : list Z) (textProb : list jsnum)
    (idx : nat) : option jsnum :=
  match emittedAt textIndex idx with
  | Some _ => Some (probAt textProb idx)
  | None => None
  end.

Definition decodeLists (textIndex : list Z) (textProb : list jsnum)
  : list jsstring * list jsnum :=
  fold_left (decodeStep textIndex textProb) (seq 0 (length textIndex)) ([], []).

Definition decode (textIndex : list Z) (textProb : list jsnum) : Line :=
  let '(charList, confList) := decodeLists textIndex textProb in
  {| text := trim (collapseWhitespace (removeCarriageReturns (join charList)));
     mean := meanOf confList |}.

(** [Math.max(...tmpArr)] *)
Definition Math_max (tmpArr : list Q) : jsnum :=
  match tmpArr with
  | [] => NegInf
  | x :: rest => Fin (fold_left Qmax rest x)
  end.

(** [tmpArr.indexOf(tmpMax)], starting the count at [i]. *)
Fixpoint indexOfFrom (i : Z) (tmpArr : list Q) (tmpMax : jsnum) : Z :=
  match tmpArr with
  | [] => (-1)%Z
  | x :: rest =>
      match tmpMax with
      | Fin m => if Qeq_bool x m then i else indexOfFrom (i + 1)%Z rest tmpMax
      | _ => indexOfFrom (i + 1)%Z rest tmpMax
      end
  end.

Definition indexOf (tmpArr : list Q) (tmpMax : jsnum) : Z :=
  indexOfFrom 0%Z tmpArr tmpMax.

Section DecodeText.

Context (output : Tensor).

Definition predLen : nat := dims2 output.

(** [predLen * output.dims[1]], the step of the outer loop. *)
Definition lineLen : nat := (predLen * dims1 output)%nat.

(** The inner loop of [decodeText] from index [i] up to [limit], in
    steps of [predLen].  It is entered with [limit = l + lineLen], so
    it runs [dims1 output] times when [predLen] is positive and not at
    all when it is zero: [fuel = dims1 output] never stops it early. *)
Fixpoint predsLoop (fuel : nat) (i limit : nat) : list Z * list jsnum :=
  match fuel with
  | O => ([], [])
  | S fuel' =>
      if (i <? limit)%nat then
        let tmpArr := take predLen (drop i (data output)) in
        let tmpMax := Math_max tmpArr in
        let '(predsIdx, predsProb) := predsLoop fuel' (i + predLen)%nat limit in
        (indexOf tmpArr tmpMax :: predsIdx, tmpMax :: predsProb)
      else ([], [])
  end.

(** The outer loop of [decodeText], from [l] downwards while
    [l >= 0]; [None] when the fuel runs out. *)
Fixpoint linesLoop (fuel : nat) (l : Z) : option (list Line) :=
  if (l <? 0)%Z then Some []
  else
    match fuel with
    | O => None
    | S fuel' =>
        let '(predsIdx, predsProb) :=
          predsLoop (dims1 output) (Z.to_nat l) (Z.to_nat l + lineLen)%nat in
        match linesLoop fuel' (l - Z.of_nat lineLen)%Z with
        | None => None
        | Some line => Some (decode predsIdx predsProb :: line)
        end
    end.

Definition decodeText : option (list Line) :=
  linesLoop (S (length (data output)))
    (Z.of_nat (length (data output)) - Z.of_nat lineLen)%Z.

End DecodeText.

(** *** Tensors of one line *)

(** A tensor that holds exactly one line of [dims1 * dims2] entries, as
    the model returns for a batch of one. *)
Definition batchOne (output : Tensor) : Prop :=
  length (data output) = lineLen output /\ (0 < lineLen output)%nat.

(** The per-timestep argmax classes and probabilities of that line. *)
Definition predsOf (output : Tensor) : list Z * list jsnum :=
  predsLoop output (dims1 output) 0 (lineLen output).

(** The decoded line of a one-line tensor. *)
Definition decodeLine (output : Tensor) : Line :=
  decode (predsOf output).1 (predsOf output).2.

(** What [run] returns for a crop: the decoded line and the box. *)
Record Recognized : Type := mkRecognized {
  line : Line;
  box : list (Q * Q)
}.

Section Run.

(** A raster image, the input of the model, and the two external
    steps on them: [li.image.resize(...)] followed by [imageToInput],
    and the inference of [runModel]. *)
Context {Image ModelData : Type}.
Context (toModelData : Image -> ModelData).
Context (runModel : ModelData -> Tensor).
Context (confidenceThreshold : Q).

(** An entry of [lineImages], as [Detection.run] returns them. *)
Record LineImage : Type := mkLineImage {
  li_box : list (Q * Q);
  li_image : Image
}.

(** The [for (const modelData of modelDatas)] loop:
    [allLines.unshift(...this.decodeText(output))]. *)
Fixpoint runLoop (modelDatas : list ModelData) (allLines : list Line)
  : option (list Line) :=
  match modelDatas with
  | [] => Some allLines
  | modelData :: rest =>
      match decodeText (runModel modelData) with
      | None => None
      | Some lines => runLoop rest (lines ++ allLines)
      end
  end.

(** [{...line, box: lineImages[allLines.length - i - 1].box}]; [None]
    for the TypeError of reading [box] from [undefined]. *)
Definition attachBox (lineImages : list LineImage) (len : nat)
    (i : nat) (l : Line) : option Recognized :=
  match lineImages !! (len - i - 1)%nat with
  | None => None
  | Some li => Some {| line := l; box := li_box li |}
  end.

(** The result of [run] before [filter]. *)
Definition runUnfiltered (lineImages : list LineImage)
  : option (list Recognized) :=
  match runLoop (map (fun li => toModelData (li_image li)) lineImages) [] with
  | None => None
  | Some allLines =>
      mapM (fun r => r) (imap (attachBox lineImages (length allLines)) allLines)
  end.

Definition run (lineImages : list LineImage) : option (list Recognized) :=
  match runUnfiltered lineImages with
  | None => None
  | Some all =>
      Some (List.filter (fun x => js_geb (mean (line x)) confidenceThreshold) all)
  end.

(** The tensor that inference returns for a crop. *)
Definition tensorOf (li : LineImage) : Tensor :=
  runModel (toModelData (li_image li)).

(** The decoded line of a crop, with the box of that same crop. *)
Definition recognize (li : LineImage) : Recognized :=
  {| line := decodeLine (tensorOf li);
     box := li_box li |}.

(** The confidence filter of [run]. *)
Definition confident (x : Recognized) : bool :=
  js_geb (mean (line x)) confidenceThreshold.

End Run.

End Decode.

(** *** Notions and inputs used in the statements *)

(** The sum of finite probabilities. *)
Definition Qsum (qs : list Q) : Q := foldr Qplus 0%Q qs.

(** Duplicate collapsing as the specification words it: a class is
    dropped when it is ignored, or when it equals the class [last] of the
    nearest earlier timestep that was not dropped. *)
Fixpoint keptClasses_claimed (last : option Z) (classes : list Z) : list Z :=
  match classes with
  | [] => []
  | c :: rest =>
      if bool_decide (c ∈ IGNORED_TOKENS) then keptClasses_claimed last rest
      else if bool_decide (last = Some c) then keptClasses_claimed last rest
      else c :: keptClasses_claimed (Some c) rest
  end.

(** A timestep survives decoding when its class is not ignored, it is
    not dropped as a duplicate of the timestep before it, and its class
    has a character in the dictionary. *)
Definition survives (dictionary : list jsstring) (removeDuplicateChars : bool)
    (textIndex : list Z) (idx : nat) : bool :=
  match textIndex !! idx with
  | None => false
  | Some c =>
      negb (bool_decide (c ∈ IGNORED_TOKENS))
      && negb (removeDuplicateChars && (0 <? idx)%nat
               && bool_decide (textIndex !! (idx - 1)%nat = Some c))
      && bool_decide (is_Some (dictionaryChar dictionary c))
  end.

(** The surviving timesteps, in order. *)
Definition survivors (dictionary : list jsstring) (removeDuplicateChars : bool)
    (textIndex : list Z) : list nat :=
  List.filter (survives dictionary removeDuplicateChars textIndex)
    (seq 0 (length textIndex)).

(** A dictionary with ['A'] at position 4 and ['B'] at position 6. *)
Definition dictionaryA : list jsstring :=
  [[97]; [98]; [99]; [100]; [65]; [101]; [66]]%N.

(** The tensors of two crops for the examples, of two timesteps over
    eight classes: the first reads ["A"], the second ["B"]. *)
Definition tensorA : Tensor :=
  mkTensor 1 2 8
    [0; 0; 0; 0; 0; 9 # 10; 0; 0;
     8 # 10; 0; 0; 0; 0; 0; 0; 0]%Q.

Definition tensorB : Tensor :=
  mkTensor 1 2 8
    [0; 0; 0; 0; 0; 0; 0; 7 # 10;
     0; 0; 0; 0; 0; 0; 0; 1]%Q.

(** An inference oracle on model inputs that are numbered. *)
Definition exampleModel (modelData : nat) : Tensor :=
  match modelData with
  | O => tensorA
  | _ => tensorB
  end.

(** Two line images, with their polygons. *)
Definition exampleCrops : list (LineImage (Image := nat)) :=
  [ mkLineImage [(0, 0); (10, 0); (10, 5); (0, 5)]%Q 0%nat;
    mkLineImage [(0, 20); (10, 20); (10, 25); (0, 25)]%Q 1%nat ].

End Recognition.

(** ** Main OCR class *)

Module Ocr.

Import Grouping.

(** [Math.round]: the nearest integer, ties towards positive infinity. *)
Definition Math_round (q : Q) : Q := inject_Z (Qfloor (q + (1 # 2))).

(** [Math.min(...xs)] and [Math.max(...xs)] of a non-empty array, given
    as its first entry [x] and the others. *)
Definition Math_min1 (x : Q) (xs : list Q) : Q := fold_left Qmin xs x.

Definition Math_max1 (x : Q) (xs : list Q) : Q := fold_left Qmax xs x.

(** [xs] and [ys] are the coordinates of the points of [box]; the empty
    box is the case [!box?.length]. *)
Definition extractFrameFromBox (box : list (Q * Q)) : Frame :=
  match box with
  | [] => {| left := 0; top := 0; width := 0; height := 0 |}
  | p :: rest =>
      let xs := map fst rest in
      let ys := map snd rest in
      {| left := Math_round (Math_min1 (fst p) xs);
         top := Math_round (Math_min1 (snd p) ys);
         width := Math_round (Math_max1 (fst p) xs - Math_min1 (fst p) xs);
         height := Math_round (Math_max1 (snd p) ys - Math_min1 (snd p) ys) |}
  end.

(** [item?.text && item.text.trim().length > 0] *)
Definition hasText (item : Recognition.Recognized) : bool :=
  match Recognition.text (Recognition.line item) with
  | [] => false
  | _ =>
      (0 <? length (trim (Recognition.text (Recognition.line item))))%nat
  end.

(** The constant [individualElements] of [detect], from the result
    [texts] of [Recognition.run]. *)
Definition individualElements (texts : list Recognition.Recognized)
  : list TextElement :=
  map
    (fun item =>
       {| text := trim (Recognition.text (Recognition.line item));
          confidence := Recognition.mean (Recognition.line item);
          frame := extractFrameFromBox (Recognition.box item);
          box := Recognition.box item |})
    (List.filter hasText texts).

Section Detect.

Context {Image ModelData : Type}.
Context (toModelData : Image -> ModelData).
Context (runModel : ModelData -> Recognition.Tensor).
Context (dictionary : list jsstring).
Context (removeDuplicateChars : bool).
Context (confidenceThreshold : Q).

(** [result.data] of [detect], from the [lineImages] that
    [Detection.run] returned for the image. *)
Definition detectData (lineImages : list (Recognition.LineImage (Image := Image)))
  : option (list TextElement) :=
  match
    Recognition.run dictionary removeDuplicateChars toModelData runModel
      confidenceThreshold lineImages
  with
  | None => None
  | Some texts => Some (individualElements texts)
  end.

End Detect.

End Ocr.

(** ** Detection model: the size gate and the unclip distance *)

Module Detection.

Local Open Scope R_scope.

(** A point [[x, y]] of a polygon. *)
Definition Point : Type := (R * R)%type.

Record Point2f : Type := mkPoint2f { x : R; y : R }.

Record Size2f : Type := mkSize2f { width : R; height : R }.

(** What [cv.minAreaRect] returns. *)
Record RotatedRect : Type := mkRotatedRect {
  center : Point2f;
  size : Size2f;
  angle : R
}.

(** The sign of a real comparator result. *)
Definition Rsign (v : R) : comparison :=
  if Rlt_dec v 0 then Lt else if Rlt_dec 0 v then Gt else Eq.

Definition boxPoints (rotatedRect : RotatedRect) : list Point :=
  let angle := angle rotatedRect * PI / 180 in
  let b := cos angle * (1 / 2) in
  let a := sin angle * (1 / 2) in
  let center := center rotatedRect in
  let size := size rotatedRect in
  [ (x center - a * height size - b * width size,
     y center + b * height size - a * width size);
    (x center + a * height size - b * width size,
     y center - b * height size - a * width size);
    (x center + a * height size + b * width size,
     y center - b * height size + a * width size);
    (x center - a * height size + b * width size,
     y center + b * height size + a * width size) ].

(** The pairs [(polygon[i], polygon[(i + 1) % polygon.length])]. *)
Definition edges (polygon : list Point) : list (Point * Point) :=
  zip polygon (drop 1 polygon ++ take 1 polygon).

Definition polygonPolygonArea (polygon : list Point) : R :=
  Rabs
    (fold_left
       (fun area e =>
          area + (fst (fst e) * snd (snd e) - fst (snd e) * snd (fst e)))
       (edges polygon) 0)
  / 2.

Definition polygonPolygonLength (polygon : list Point) : R :=
  fold_left
    (fun length e =>
       length
       + sqrt ((fst (snd e) - fst (fst e)) ^ 2 + (snd (snd e) - snd (fst e)) ^ 2))
    (edges polygon) 0.

(** The [distance] that [unclip] hands to the polygon offset:
    [(area * unclip_ratio) / length].  [None] when [length] is zero and
    the quotient is NaN or infinite. *)
Definition unclipDistance (box : list Point) (unclip_ratio : R) : option R :=
  let area := Rabs (polygonPolygonArea box) in
  let length := polygonPolygonLength box in
  if Req_dec_T length 0 then None else Some ((area * unclip_ratio) / length).

Section SplitIntoLineImages.

Context (engine : ArraySort).
Context {Contour : Type}.
Context (minAreaRect : Contour -> RotatedRect).
(** [ClipperOffset] with a round join on a closed polygon: the paths
    that [Execute] produces for a path and a distance. *)
Context (offsetExecute : list Point -> option R -> list (list Point)).

(** [points] and [sside] of [getMiniBoxes]; [None] for the TypeError of
    indexing a missing point, which four points never raise. *)
Definition getMiniBoxes (contour : Contour) : option (list Point * R) :=
  let boundingBox := minAreaRect contour in
  let points :=
    array_sort engine (fun a b => Rsign (fst a - fst b)) (boxPoints boundingBox) in
  match points with
  | [p0; p1; p2; p3] =>
      let '(point_1, point_4) :=
        if Rlt_dec (snd p0) (snd p1) then (p0, p1) else (p1, p0) in
      let '(point_2, point_3) :=
        if Rlt_dec (snd p2) (snd p3) then (p2, p3) else (p3, p2) in
      Some ([point_1; point_2; point_3; point_4],
            Rmin (height (size boundingBox)) (width (size boundingBox)))
  | _ => None
  end.

Definition unclip (box : list Point) (unclip_ratio : R) : list R :=
  let distance := unclipDistance box unclip_ratio in
  match offsetExecute box distance with
  | expanded0 :: _ => flat_map (fun item => [fst item; snd item]) expanded0
  | [] => []
  end.

(** The first gate of the loop of [splitIntoLineImages]: the [points]
    that are handed to [unclip], or [None] when the contour is skipped
    by [sside < this.minSize || sside > this.maxSize]. *)
Definition unclipInput (minSize maxSize : R) (contour : Contour)
  : option (list Point) :=
  match getMiniBoxes contour with
  | None => None
  | Some (points, sside) =>
      if Rlt_dec sside minSize then None
      else if Rlt_dec maxSize sside then None
      else Some points
  end.

End SplitIntoLineImages.

(** *** Notions and inputs used in the statements *)

(** The length of an edge. *)
Definition edgeLength (p q : Point) : R :=
  sqrt ((fst q - fst p) ^ 2 + (snd q - snd p) ^ 2).

(** A contour of one pixel: its minimum-area rectangle has no extent. *)
Definition pixelRect : RotatedRect :=
  mkRotatedRect (mkPoint2f 0 0) (mkSize2f 0 0) 0.

(** A contour around a square of five by five pixels. *)
Definition squareRect : RotatedRect :=
  mkRotatedRect (mkPoint2f 10 10) (mkSize2f 4 4) 0.

End Detection.

(** ** Notions used in the further properties of the grouper *)

Module GroupingNotions.

Import Grouping.

(** The [overlap] of [boxesOverlapVertically]. *)
Definition overlapOf (box1 box2 : Frame) : Q :=
  Qmax 0 (Qmin (top box1 + height box1) (top box2 + height box2)
          - Qmax (top box1) (top box2)).

Section IndexGroups.

Context (config : GroupingConfig).
Context (avgHeight : Q).
Context (sorted : list TextElement).

(** The adjacency test of the loops, on two indices into [sorted]. *)
Definition adjacentAt (a b : nat) : bool :=
  shouldGroup (frameAt sorted a) (frameAt sorted b) avgHeight config.

(** Index groups in which no member of a group is adjacent to a member
    of a later group. *)
Fixpoint laterApart (igs : list (list nat)) : Prop :=
  match igs with
  | [] => True
  | ig :: rest =>
      (forall a ig' b,
         a ∈ ig -> ig' ∈ rest -> b ∈ ig' -> adjacentAt a b = false)
      /\ laterApart rest
  end.

(** An index group whose members, except one, are each adjacent to
    another member. *)
Definition pulledIn (ig : list nat) : Prop :=
  exists seed rest,
    ig ≡ₚ seed :: rest
    /\ forall b, b ∈ rest -> exists a, a ∈ ig /\ adjacentAt a b = true.

End IndexGroups.

End GroupingNotions.

(** ** Paragraphs and the result of [detect] *)

Module Paragraphs.

(** [x - y]. *)
Definition js_sub (x y : jsnum) : jsnum :=
  match x, y with
  | NaN, _ | _, NaN => NaN
  | Fin a, Fin b => Fin (a - b)
  | PosInf, PosInf | NegInf, NegInf => NaN
  | PosInf, _ | _, NegInf => PosInf
  | NegInf, _ | _, PosInf => NegInf
  end.

(** [Math.min(...xs)] *)
Definition Math_min (xs : list Q) : jsnum :=
  match xs with
  | [] => PosInf
  | x :: rest => Fin (fold_left Qmin rest x)
  end.

(** [Math.max(...xs)] *)
Definition Math_max (xs : list Q) : jsnum :=
  match xs with
  | [] => NegInf
  | x :: rest => Fin (fold_left Qmax rest x)
  end.

(** [texts.join(' ')] *)
Fixpoint joinSpace (texts : list jsstring) : jsstring :=
  match texts with
  | [] => []
  | [t] => t
  | t :: rest => t ++ 32%N :: joinSpace rest
  end.

(** The [boundingBox] of a paragraph: [left], [top], [width], [height]. *)
Record BoundingBox : Type := mkBoundingBox {
  box_left : jsnum;
  box_top : jsnum;
  box_width : jsnum;
  box_height : jsnum
}.

(** An entry of [elements] of a paragraph: the [text], [confidence] and
    [frame] of a text element, without its polygon. *)
Record ParagraphElement : Type := mkParagraphElement {
  el_text : jsstring;
  el_confidence : jsnum;
  el_frame : Grouping.Frame
}.

Record Paragraph : Type := mkParagraph {
  text : jsstring;
  confidence : jsnum;
  boundingBox : BoundingBox;
  elements : list ParagraphElement
}.

(** [({ text: el.text, confidence: el.confidence, frame: el.frame })] *)
Definition paragraphElement (el : Grouping.TextElement) : ParagraphElement :=
  {| el_text := Grouping.text el;
     el_confidence := Grouping.confidence el;
     el_frame := Grouping.frame el |}.

Definition createParagraph (group : list Grouping.TextElement) : Paragraph :=
  let texts := map Grouping.text group in
  let avgConfidence :=
    js_div_len
      (fold_left (fun sum el => js_add sum (Grouping.confidence el)) group (Fin 0))
      (length group) in
  let allX :=
    flat_map
      (fun el =>
         [ Grouping.left (Grouping.frame el);
           Grouping.left (Grouping.frame el) + Grouping.width (Grouping.frame el) ])
      group in
  let allY :=
    flat_map
      (fun el =>
         [ Grouping.top (Grouping.frame el);
           Grouping.top (Grouping.frame el) + Grouping.height (Grouping.frame el) ])
      group in
  let boundingBox :=
    {| box_left := Math_min allX;
       box_top := Math_min allY;
       box_width := js_sub (Math_max allX) (Math_min allX);
       box_height := js_sub (Math_max allY) (Math_min allY) |} in
  {| text := joinSpace texts;
     confidence := avgConfidence;
     boundingBox := boundingBox;
     elements := map paragraphElement group |}.

(** [group.reduce((sum, el) => sum + el.confidence, 0) / group.length] on
    finite confidences [cs], when every sum and the quotient are rounded to
    a representable number by [fl], as binary64 arithmetic does;
    [createParagraph] above takes them exact. *)
Definition roundedMean (fl : Q -> Q) (cs : list Q) : jsnum :=
  match cs with
  | [] => NaN
  | _ =>
      Fin (fl (fold_left (fun sum c => fl (sum + c)) cs 0
               / inject_Z (Z.of_nat (length cs))))
  end.

(** What [detect] returns; the two paragraph fields are only set when
    grouping was asked for. *)
Record Result : Type := mkResult {
  totalElements : nat;
  data : list Grouping.TextElement;
  totalParagraphs : option nat;
  paragraphs : option (list Paragraph)
}.

Section Detect.

Context (engine : ArraySort).
Context {Image ModelData : Type}.
Context (toModelData : Image -> ModelData).
Context (runModel : ModelData -> Recognition.Tensor).
Context (dictionary : list jsstring).
Context (removeDuplicateChars : bool).
Context (confidenceThreshold : Q).
Context (groupingConfig : Grouping.GroupingConfig).

(** [detect], from the [lineImages] that [Detection.run] returned for the
    image; [grouped] is [options.grouped !== false].  [None] when
    [Recognition.run] or the grouper do not return. *)
Definition detect (grouped : bool)
    (lineImages : list (Recognition.LineImage (Image := Image)))
  : option Result :=
  match
    Recognition.run dictionary removeDuplicateChars toModelData runModel
      confidenceThreshold lineImages
  with
  | None => None
  | Some texts =>
      let individualElements := Ocr.individualElements texts in
      if grouped then
        match
          Grouping.groupTextElements engine individualElements groupingConfig
        with
        | None => None
        | Some groups =>
            let paragraphs := map createParagraph groups in
            Some {| totalElements := length individualElements;
                    data := individualElements;
                    totalParagraphs := Some (length paragraphs);
                    paragraphs := Some paragraphs |}
        end
      else
        Some {| totalElements := length individualElements;
                data := individualElements;
                totalParagraphs := None;
                paragraphs := None |}
  end.

End Detect.

End Paragraphs.

(** ** Notions used in the further properties of [Ocr] *)

Module OcrNotions.

(** A polygon with integer coordinates, as [splitIntoLineImages] makes
    them, as a polygon of numbers. *)
Definition integerBox (zbox : list (Z * Z)) : list (Q * Q) :=
  map (fun p => (inject_Z (fst p), inject_Z (snd p))) zbox.

(** The polygon of the upright rectangle of a frame, clockwise from its
    top left corner. *)
Definition cornersOf (f : Grouping.Frame) : list (Q * Q) :=
  [ (Grouping.left f, Grouping.top f);
    (Grouping.left f + Grouping.width f, Grouping.top f);
    (Grouping.left f + Grouping.width f, Grouping.top f + Grouping.height f);
    (Grouping.left f, Grouping.top f + Grouping.height f) ].

End OcrNotions.

(** ** Notions used in the further properties of strings *)

Module StringNotions.

(** A string in which every white space code unit is a space (32) that
    does not follow white space; [afterSpace] tells that the string comes
    after white space. *)
Fixpoint singleSpaced (afterSpace : bool) (s : jsstring) : bool :=
  match s with
  | [] => true
  | c :: s' =>
      if isWhiteSpace c then
        N.eqb c 32 && negb afterSpace && singleSpaced true s'
      else singleSpaced false s'
  end.

End StringNotions.

(** ** Notions used in the further properties of the decoder *)

Module RecognitionNotions.

Import Recognition.

(** The line that [decodeText] decodes in the iteration of its outer
    loop that starts at index [l] of the data. *)
Definition lineAt (dictionary : list jsstring) (removeDuplicateChars : bool)
    (output : Tensor) (l : nat) : Line :=
  let '(predsIdx, predsProb) :=
    predsLoop output (dims1 output) l (l + lineLen output)%nat in
  decode dictionary removeDuplicateChars predsIdx predsProb.

(** The entries of timestep [t] of a tensor of one line:
    [output.data.slice(i, i + predLen)] for [i = t * predLen]. *)
Definition timestepAt (output : Tensor) (t : nat) : list Q :=
  take (dims2 output) (drop (t * dims2 output)%nat (data output)).

(** A tensor of two lines: the line of [tensorA], then that of
    [tensorB]. *)
Definition tensorAB : Tensor :=
  mkTensor 2 2 8 (data tensorA ++ data tensorB).

(** The characters that the loop of [decode] emits, by recursion on the
    classes; [prev] is the class of the timestep before, if any. *)
Fixpoint emissions (dictionary : list jsstring) (removeDuplicateChars : bool)
    (prev : option Z) (textIndex : list Z) : list jsstring :=
  match textIndex with
  | [] => []
  | c :: rest =>
      (if bool_decide (c ∈ IGNORED_TOKENS) then []
       else if removeDuplicateChars && bool_decide (prev = Some c) then []
       else option_list (dictionaryChar dictionary c))
      ++ emissions dictionary removeDuplicateChars (Some c) rest
  end.

End RecognitionNotions.

(** ** Images, model inputs and the detection map *)

Module Imaging.

(** The fields of an [ImageRaw]: RGBA bytes, row by row. *)
Record ImageRaw : Type := mkImageRaw {
  data : list N;
  width : nat;
  height : nat
}.

(** [new ImageRaw({ data, width, height })].  The constructor hands the
    data to [sharp], which raises an error for an array without bytes and
    for a width or a height that is not positive: [None]. *)
Definition newImageRaw (data : list N) (width height : nat) : option ImageRaw :=
  if (0 <? length data)%nat && (0 <? width)%nat && (0 <? height)%nat then
    Some {| data := data; width := width; height := height |}
  else None.

(** What [imageToInput] returns. *)
Record ModelData : Type := mkModelData {
  md_data : list jsnum;
  md_width : nat;
  md_height : nat
}.

(** [(image.data[i] / 255 - mean) / std]; a byte that is [undefined]
    gives NaN. *)
Definition channel (byte : option N) (mean std : Q) : jsnum :=
  match byte with
  | None => NaN
  | Some v => js_div (inject_Z (Z.of_N v) / 255 - mean) std
  end.

Section ImageToInput.

(** The option [mean] and [std], three numbers each; both callers leave
    them at their defaults. *)
Context (mean std : Q * Q * Q).
Context (image : ImageRaw).

(** The loop of [imageToInput] from index [i], in steps of 4: the lists
    [R], [G] and [B].  [fuel = image.data.length] never stops it
    early. *)
Fixpoint channelsLoop (fuel i : nat) : list jsnum * list jsnum * list jsnum :=
  match fuel with
  | O => ([], [], [])
  | S fuel' =>
      if (i <? length (data image))%nat then
        let '(R, G, B) := channelsLoop fuel' (i + 4)%nat in
        (channel (data image !! i) mean.1.1 std.1.1 :: R,
         channel (data image !! (i + 1)%nat) mean.1.2 std.1.2 :: G,
         channel (data image !! (i + 2)%nat) mean.2 std.2 :: B)
      else ([], [], [])
  end.

Definition imageToInput : ModelData :=
  let '(R, G, B) := channelsLoop (length (data image)) 0 in
  {| md_data := B ++ G ++ R;
     md_width := width image;
     md_height := height image |}.

End ImageToInput.

(** The defaults [mean = [0, 0, 0]] and [std = [1, 1, 1]]. *)
Definition defaultMean : Q * Q * Q := (0, 0, 0).
Definition defaultStd : Q * Q * Q := (1, 1, 1).

(** The output of the detection model: [dims[2]], [dims[3]] and
    [data]. *)
Record DetectionMap : Type := mkDetectionMap {
  dims2 : nat;
  dims3 : nat;
  map_data : list Q
}.

Section OutputToImage.

Context (threshold : Q).

(** The callback of [forEach].  A write outside a typed array does
    nothing. *)
Definition writePixel (data : list N) (outValue : Q) (outIndex : nat) : list N :=
  let n := (outIndex * 4)%nat in
  let value := if Qltb threshold outValue then 255%N else 0%N in
  <[(n + 3)%nat := 255%N]>
    (<[n := value]> (<[(n + 1)%nat := value]> (<[(n + 2)%nat := value]> data))).

(** [output.data.forEach(...)], from index [outIndex] on. *)
Fixpoint forEach (values : list Q) (outIndex : nat) (data : list N) : list N :=
  match values with
  | [] => data
  | outValue :: rest =>
      forEach rest (S outIndex) (writePixel data outValue outIndex)
  end.

(** [None] for the error of the constructor. *)
Definition outputToImage (output : DetectionMap) : option ImageRaw :=
  let height := dims2 output in
  let width := dims3 output in
  let data := replicate (width * height * 4) 0%N in
  newImageRaw (forEach (map_data output) 0 data) width height.

End OutputToImage.

Section MultipleOfBaseSize.

(** The rounding of binary64 arithmetic: the representable number that the
    exact result of a division or of a product is replaced by. *)
Context (fl : Q -> Q).

(** [this.maxImageSize] and [this.baseSize]. *)
Context (maxImageSize baseSize : Q).

(** [Math.max(Math.ceil(x / this.baseSize) * this.baseSize, this.baseSize)];
    with a base size of zero the quotient is infinite or NaN and the
    result is NaN. *)
Definition roundUp (x : Q) : jsnum :=
  if Qeq_bool baseSize 0 then NaN
  else
    Fin (Qmax (fl (inject_Z (Qceiling (fl (x / baseSize))) * baseSize))
           baseSize).

(** The [width] and [height] that [multipleOfBaseSize] returns.  The
    ratio is infinite only for an image without pixels and a negative
    [maxImageSize]; the products [0 * ratio] are then NaN, and so is the
    result. *)
Definition multipleOfBaseSize (image : ImageRaw) : jsnum * jsnum :=
  let width := inject_Z (Z.of_nat (width image)) in
  let height := inject_Z (Z.of_nat (height image)) in
  if negb (Qeq_bool maxImageSize 0) && Qltb maxImageSize (Qmax width height)
  then
    match
      if Qltb height width then js_div maxImageSize width
      else js_div maxImageSize height
    with
    | Fin ratio =>
        let ratio := fl ratio in
        (roundUp (fl (width * ratio)), roundUp (fl (height * ratio)))
    | _ => (NaN, NaN)
    end
  else (roundUp width, roundUp height).

End MultipleOfBaseSize.

(** The unit roundoff of binary64, [2^-53], and the ends of its normal
    range, [2^-1022] and [2^1023]. *)
Definition unitRoundoff : Q := 1 # 9007199254740992.
Definition normalMin : Q := 1 # 2 ^ 1022.
Definition normalMax : Q := inject_Z (2 ^ 1023).

(** What the size computation needs of the rounding: it is monotone, it
    leaves the whole numbers up to [2^53] as they are, and on the normal
    range its relative error is at most the unit roundoff. *)
Record Rounding (fl : Q -> Q) : Prop := mkRounding {
  fl_monotone : forall x y, x <= y -> fl x <= fl y;
  fl_whole : forall z : Z, (0 <= z <= 2 ^ 53)%Z -> fl (inject_Z z) == inject_Z z;
  fl_error : forall x, normalMin <= x <= normalMax ->
             x * (1 - unitRoundoff) <= fl x <= x * (1 + unitRoundoff)
}.

(** *** Inputs used in the statements *)

(** An image of two pixels. *)
Definition twoPixels : ImageRaw :=
  mkImageRaw [255; 0; 51; 255; 0; 102; 255; 255]%N 2 1.

(** A detection map of two by two values. *)
Definition fourValues : DetectionMap :=
  mkDetectionMap 2 2 [9 # 10; 0; 1 # 10; 1 # 2].

(** The four bytes of pixel [p] of an image. *)
Definition pixelAt (image : ImageRaw) (p : nat) : list N :=
  take 4 (drop (p * 4)%nat (data image)).

End Imaging.

(** ** The line images of the region extractor *)

Module LineImages.

Import Detection.

Local Open Scope R_scope.

(** [Math.floor] and [Math.round] of a real number; [Math.round] takes
    a half upwards. *)
Definition Math_floor (v : R) : Z := Int_part v.

Definition Math_round (v : R) : Z := Int_part (v + / 2).

Definition linalgNorm (p0 p1 : Point) : R :=
  sqrt ((fst p0 - fst p1) ^ 2 + (snd p0 - snd p1) ^ 2).

(** A point with whole coordinates, as a point of the plane. *)
Definition pointOf (p : Z * Z) : Point := (IZR (fst p), IZR (snd p)).

(** [Math.min(...s)] and [Math.max(...s)]; [None] stands for the
    infinity of the empty list. *)
Definition Math_min (s : list R) : option R :=
  match s with
  | [] => None
  | v :: rest => Some (fold_left Rmin rest v)
  end.

Definition Math_max (s : list R) : option R :=
  match s with
  | [] => None
  | v :: rest => Some (fold_left Rmax rest v)
  end.

(** [s.indexOf(v)], starting the count at [i]. *)
Fixpoint indexOfFrom (i : Z) (s : list R) (v : R) : Z :=
  match s with
  | [] => (-1)%Z
  | u :: rest => if Req_dec_T u v then i else indexOfFrom (i + 1)%Z rest v
  end.

Definition indexOf (s : list R) (v : option R) : Z :=
  match v with
  | Some m => indexOfFrom 0%Z s m
  | None => (-1)%Z
  end.

(** [pts.filter(pt => pt !== rect[0] && pt !== rect[2])], counting from
    [i].  The points are arrays and [!==] compares them as objects; the
    points of [pts] are distinct objects (its caller builds each one with
    [map]), so a point is [rect[0]] or [rect[2]] exactly when its index
    is [imin] or [imax]. *)
Fixpoint others (i imin imax : Z) (pts : list Point) : list Point :=
  match pts with
  | [] => []
  | pt :: rest =>
      if (i =? imin)%Z || (i =? imax)%Z then others (i + 1)%Z imin imax rest
      else pt :: others (i + 1)%Z imin imax rest
  end.

(** [None] for the TypeError of reading [tmp[0][1]] or [tmp[1][1]] when
    fewer than two points are left.  [rect[0]] and [rect[2]] are defined
    whenever [pts] is not empty. *)
Definition orderPointsClockwise (pts : list Point) : option (list Point) :=
  let s := map (fun pt => fst pt + snd pt) pts in
  let imin := indexOf s (Math_min s) in
  let imax := indexOf s (Math_max s) in
  let tmp := others 0 imin imax pts in
  match tmp with
  | tmp0 :: tmp1 :: _ =>
      let diff1 := fst tmp0 - fst tmp1 in
      match Recognition.at_index pts imin, Recognition.at_index pts imax with
      | Some rect0, Some rect2 =>
          Some [ rect0;
                 if Rlt_dec 0 diff1 then tmp0 else tmp1;
                 rect2;
                 if Rlt_dec 0 diff1 then tmp1 else tmp0 ]
      | _, _ => None
      end
  | _ => None
  end.

(** A matrix of OpenCV: its size and its pixels. *)
Record Mat {Pixels : Type} : Type := mkMat {
  cols : Z;
  rows : Z;
  mat_data : Pixels
}.

(** The image of a crop, as [cvImshow] returns it. *)
Record CropImage {Pixels : Type} : Type := mkCropImage {
  crop_width : Z;
  crop_height : Z;
  crop_data : Pixels
}.

(** An entry of [edgeRect]. *)
Record EdgeRect {Pixels : Type} : Type := mkEdgeRect {
  box : list (Z * Z);
  image : CropImage (Pixels := Pixels)
}.

Section Crops.

Context {SourceImage Pixels : Type}.
(** The pixels that [cv.warpPerspective] writes for a source image, the
    four source points and the size of the destination, and those that
    [cv.warpAffine] writes when it turns a matrix by 90 degrees.  Both
    give the destination the size they are called with. *)
Context (warpPerspective : SourceImage -> list (Z * Z) -> Z -> Z -> Pixels).
Context (warpAffine : Pixels -> Z -> Z -> Pixels).

(** [cvImshow]: [new ImageRaw({ data, width: mat.cols, height: mat.rows })].
    As in [Imaging.newImageRaw], the constructor raises an error for a
    matrix without pixels: [None]. *)
Definition cvImshow (mat : Mat (Pixels := Pixels))
  : option (CropImage (Pixels := Pixels)) :=
  if (0 <? cols mat)%Z && (0 <? rows mat)%Z then
    Some {| crop_width := cols mat;
            crop_height := rows mat;
            crop_data := mat_data mat |}
  else None.

(** [None] for the TypeError of reading a missing point and for the
    error of [cvImshow]. *)
Definition getRotateCropImage (imageRaw : SourceImage) (points : list (Z * Z))
  : option (CropImage (Pixels := Pixels)) :=
  match points with
  | p0 :: p1 :: p2 :: p3 :: _ =>
      let img_crop_width :=
        Math_floor (Rmax (linalgNorm (pointOf p0) (pointOf p1))
                      (linalgNorm (pointOf p2) (pointOf p3))) in
      let img_crop_height :=
        Math_floor (Rmax (linalgNorm (pointOf p0) (pointOf p3))
                      (linalgNorm (pointOf p1) (pointOf p2))) in
      let dst :=
        {| cols := img_crop_width;
           rows := img_crop_height;
           mat_data :=
             warpPerspective imageRaw points img_crop_width img_crop_height |} in
      let dst_rot :=
        if js_geb (js_div (inject_Z (rows dst)) (inject_Z (cols dst))) (3 # 2)
        then
          {| cols := rows dst;
             rows := cols dst;
             mat_data := warpAffine (mat_data dst) (rows dst) (cols dst) |}
        else dst in
      cvImshow dst_rot
  | _ => None
  end.

Context (engine : ArraySort).
Context {Contour : Type}.
Context (minAreaRect : Contour -> RotatedRect).
Context (offsetExecute : list Point -> option R -> list (list Point)).
(** [cv.matFromArray(clipBox.length / 2, 1, cv.CV_32SC2, clipBox)] *)
Context (matFromArray : list R -> Contour).

(** [this.minSize], [this.maxSize] and [this.unclipRatio]. *)
Context (minSize maxSize unclipRatio : R).

(** The source image with its width and height, and the two ratios
    [rx = sourceImage.width / w] and [ry = sourceImage.height / h], which
    are finite numbers: a map with contours has pixels. *)
Context (sourceImage : SourceImage).
Context (sourceWidth sourceHeight : nat).
Context (rx ry : R).

(** [[Math.max(0, Math.min(Math.round(item[0]), sourceImage.width)), ...]] *)
Definition clampPoint (item : Point) : Z * Z :=
  (Z.max 0 (Z.min (Math_round (fst item)) (Z.of_nat sourceWidth)),
   Z.max 0 (Z.min (Math_round (snd item)) (Z.of_nat sourceHeight))).

(** One iteration of the loop of [splitIntoLineImages]: [Some None]
    when the contour is skipped, [None] for an error.  When the polygon
    offset produces no path, [clipBox] is empty, [boxMap] is a matrix
    without points and [cv.minAreaRect] raises an exception on it. *)
Definition lineImageOf (contour : Contour)
  : option (option (EdgeRect (Pixels := Pixels))) :=
  match getMiniBoxes engine minAreaRect contour with
  | None => None
  | Some (points, sside) =>
      if Rlt_dec sside minSize then Some None
      else if Rlt_dec maxSize sside then Some None
      else
        let clipBox := unclip offsetExecute points unclipRatio in
        let boxMap := matFromArray clipBox in
        match
          match clipBox with
          | [] => None
          | _ => getMiniBoxes engine minAreaRect boxMap
          end
        with
        | None => None
        | Some (resultPoints, resultSside) =>
            if Rlt_dec resultSside (minSize + 2) then Some None
            else
              let box := map (fun p => (fst p * rx, snd p * ry)) resultPoints in
              match orderPointsClockwise box with
              | None => None
              | Some ordered =>
                  let box1 := map clampPoint ordered in
                  match box1 with
                  | b0 :: b1 :: _ :: b3 :: _ =>
                      let rect_width :=
                        Math_floor (linalgNorm (pointOf b0) (pointOf b1)) in
                      let rect_height :=
                        Math_floor (linalgNorm (pointOf b0) (pointOf b3)) in
                      if (3 <? rect_width)%Z && (3 <? rect_height)%Z then
                        match getRotateCropImage sourceImage box1 with
                        | None => None
                        | Some image =>
                            Some (Some {| box := box1; image := image |})
                        end
                      else Some None
                  | _ => None
                  end
              end
        end
  end.

(** The loop over the contours. *)
Fixpoint splitIntoLineImages (contours : list Contour)
  : option (list (EdgeRect (Pixels := Pixels))) :=
  match contours with
  | [] => Some []
  | contour :: rest =>
      match lineImageOf contour with
      | None => None
      | Some entry =>
          match splitIntoLineImages rest with
          | None => None
          | Some edgeRect => Some (option_list entry ++ edgeRect)
          end
      end
  end.

End Crops.

End LineImages.

(** * Properties *)

(** ** Numbers *)

Lemma Qltb_lt (a b : Q) : Qltb a b = true <-> a < b.
Proof.
  unfold Qltb. rewrite negb_true_iff.
  split.
  - intros H. apply Qnot_le_lt. intros Hle.
    apply Qle_bool_iff in Hle. congruence.
  - intros H. destruct (Qle_bool b a) eqn:E; [|done].
    apply Qle_bool_iff in E. exfalso. by apply (Qlt_not_le a b).
Qed.

Lemma Qltb_ge (a b : Q) : Qltb a b = false <-> b <= a.
Proof.
  unfold Qltb. rewrite negb_false_iff. apply Qle_bool_iff.
Qed.

Lemma js_geb_ge (x : jsnum) (q : Q) : js_geb x q = true <-> js_ge x q.
Proof.
  destruct x; simpl; try (split; [discriminate | tauto]); [|tauto].
  apply Qle_bool_iff.
Qed.

(** ** The sorting engine *)

Lemma array_sort_nil (engine : ArraySort) {A : Type} (cmp : A -> A -> comparison) :
  array_sort engine cmp [] = [].
Proof. apply Permutation_nil_r, array_sort_perm. Qed.

Lemma array_sort_singleton (engine : ArraySort) {A : Type}
    (cmp : A -> A -> comparison) (a : A) :
  array_sort engine cmp [a] = [a].
Proof. apply Permutation_singleton_r, array_sort_perm. Qed.

Lemma array_sort_length (engine : ArraySort) {A : Type}
    (cmp : A -> A -> comparison) (l : list A) :
  length (array_sort engine cmp l) = length l.
Proof. apply Permutation_length, array_sort_perm. Qed.

(** ** The paragraph grouper *)

Module GroupingFacts.

Import Grouping.

(** C1, as stated, fails.  Two elements of height 10 whose centres are 15
    apart and that do not overlap vertically, next to a third element of
    height 100: the average height of all three is 40, so the threshold of
    the claim is 20 and it puts the pair on the same line; the code takes
    the mean 10 of the two heights, a threshold of 5, and does not. *)
Lemma same_line_global_average_counterexample :
  let a := element (mkFrame 0 0 50 10) in
  let b := element (mkFrame 60 15 50 10) in
  let c := element (mkFrame 0 200 50 100) in
  let avgHeight := averageHeight [a; b; c] in
  avgHeight == 40
  /\ areOnSameLine (frame a) (frame b) DEFAULT_GROUPING = false
  /\ areOnSameLine_global avgHeight (frame a) (frame b) DEFAULT_GROUPING = true.
Proof. by vm_compute. Qed.

(** C1, amended: two boxes are on the same line exactly when their
    vertical-overlap ratio is at least [MIN_OVERLAP_RATIO] or their
    vertical centres are less than
    [(height1 + height2) / 2 * MAX_VERTICAL_OFFSET_RATIO] apart: the
    offset threshold is a multiple of the mean height of the two boxes,
    and the branch that [shouldGroup] takes is this test, whatever
    average height it is given. *)
Theorem same_line_pair_average (box1 box2 : Frame) (config : GroupingConfig) :
  (areOnSameLine box1 box2 config = true <->
     js_ge (boxesOverlapVertically box1 box2) (MIN_OVERLAP_RATIO config)
     \/ Qabs (centerY box1 - centerY box2)
        < (height box1 + height box2) / 2 * MAX_VERTICAL_OFFSET_RATIO config)
  /\ forall avgHeight : Q,
       shouldGroup box1 box2 avgHeight config =
       if areOnSameLine box1 box2 config
       then Qltb (left box1) (left box2)
            && Qltb (horizontal (calculateDistance box1 box2))
                 (avgHeight * HORIZONTAL_THRESHOLD_RATIO config)
       else Qltb (top box1) (top box2)
            && Qltb (vertical (calculateDistance box1 box2))
                 (avgHeight * VERTICAL_THRESHOLD_RATIO config)
            && Qltb 0
                 (Qmin (left box1 + width box1) (left box2 + width box2)
                  - Qmax (left box1) (left box2)).
Proof.
  split; [|done].
  unfold areOnSameLine, centerY.
  rewrite orb_true_iff, js_geb_ge, Qltb_lt. done.
Qed.

(** C7, as stated, fails.  With an average height of 20 the threshold is
    10.  The tops of the two frames are 6 apart, so the code orders the
    pair by left coordinate; their vertical centres, 5 and 21, are 16
    apart, so the claim orders it by top coordinate, the other way
    round. *)
Lemma reading_order_centers_counterexample :
  let a := element (mkFrame 100 0 50 10) in
  let b := element (mkFrame 0 6 50 30) in
  let avgHeight := averageHeight [a; b] in
  avgHeight == 20
  /\ ~ Qabs (centerY (frame a) - centerY (frame b)) < avgHeight * (1 # 2)
  /\ compareElements avgHeight a b = Gt
  /\ Qsign (compareFrames_centers avgHeight (frame a) (frame b)) = Lt.
Proof.
  cbv zeta. split; [by vm_compute|]. split; [|by vm_compute].
  apply Qle_not_lt. by vm_compute.
Qed.

(** C7, amended: the comparator of the reading-order sort treats two
    elements as being in the same row, and orders them by left
    coordinate, exactly when their top coordinates differ by less than
    [avgHeight * 0.5]; otherwise it orders them by top coordinate. *)
Theorem reading_order_tops (avgHeight : Q) (a b : TextElement) :
  (Qabs (top (frame a) - top (frame b)) < avgHeight * (1 # 2)
   /\ compareElements avgHeight a b
      = Qsign (left (frame a) - left (frame b)))
  \/ (avgHeight * (1 # 2) <= Qabs (top (frame a) - top (frame b))
      /\ compareElements avgHeight a b
         = Qsign (top (frame a) - top (frame b))).
Proof.
  unfold compareElements, compareFrames.
  destruct (Qltb (Qabs (top (frame a) - top (frame b))) (avgHeight * (1 # 2)))
    eqn:E.
  - left. by apply Qltb_lt in E.
  - right. by apply Qltb_ge in E.
Qed.

Section Loops.

Context (engine : ArraySort).
Context (config : GroupingConfig).
Context (avgHeight : Q).
Context (sorted : list TextElement).

Local Open Scope nat_scope.

Local Abbreviation n := (length sorted).
Local Abbreviation scan := (scanUnused config avgHeight sorted).
Local Abbreviation grow := (growGroup config avgHeight sorted).
Local Abbreviation loop := (groupLoop engine config avgHeight sorted).

Lemma scanUnused_Some js group used j :
  scan js group used = Some j -> j ∈ js /\ j ∉ used.
Proof.
  induction js as [|k js IH]; simpl; [done|].
  destruct (decide (k ∈ used)) as [Hk|Hk].
  - intros H. destruct (IH H). split; [by right | done].
  - destruct (adjacentToGroup config avgHeight sorted group k).
    + intros [= ->]. split; [by left | done].
    + intros H. destruct (IH H). split; [by right | done].
Qed.

Lemma unused_shrinks j used :
  j < n -> j ∉ used ->
  size (unused sorted ({[j]} ∪ used)) < size (unused sorted used).
Proof.
  intros Hj Hu. apply subset_size. unfold unused.
  assert (j ∈ (set_seq 0 n : gset nat)) by (apply elem_of_set_seq; lia).
  set_solver.
Qed.

(** The [while] loop ends before its fuel does, and what it adds to the
    group are distinct unused indices below [n]. *)
Lemma growGroup_spec fuel group used :
  size (unused sorted used) < fuel ->
  exists new,
    grow fuel group used = Some (group ++ new, list_to_set new ∪ used)
    /\ NoDup new
    /\ Forall (fun j => j < n /\ j ∉ used) new.
Proof.
  revert group used. induction fuel as [|fuel IH]; intros group used Hf; [lia|].
  simpl. destruct (scan (seq 0 n) group used) as [j|] eqn:Hs.
  - apply scanUnused_Some in Hs as [Hj Hu].
    apply elem_of_seq in Hj.
    destruct (IH (group ++ [j]) ({[j]} ∪ used)) as (new & -> & Hnd & Hall).
    { pose proof (unused_shrinks j used ltac:(lia) Hu). lia. }
    exists (j :: new). split; [|split].
    + rewrite <- app_assoc. simpl.
      by rewrite (assoc_L (∪)), (comm_L (∪) (list_to_set new) {[j]}).
    + apply NoDup_cons. split; [|done].
      intros Hin. rewrite Forall_forall in Hall.
      destruct (Hall j Hin) as [_ Hn]. set_solver.
    + constructor; [split; [lia | done]|].
      eapply Forall_impl; [exact Hall|]. simpl. intros k [? ?].
      split; [done | set_solver].
  - exists []. split; [|split; constructor].
    rewrite app_nil_r. simpl. by rewrite (left_id_L ∅ (∪)).
Qed.

Lemma unused_bound used : size (unused sorted used) < S n.
Proof.
  unfold unused.
  pose proof (subseteq_size (set_seq 0 n ∖ used)
                (set_seq (C := gset nat) 0 n)) as H.
  rewrite size_set_seq in H. apply Nat.lt_succ_r, H. set_solver.
Qed.

Lemma omap_lookup_seq {A : Type} (k l : list A) :
  omap (fun i => (k ++ l) !! i) (seq (length k) (length l)) = l.
Proof.
  revert k. induction l as [|e l IH]; intros k; [done|].
  simpl. rewrite list_lookup_middle by done. f_equal.
  specialize (IH (k ++ [e])).
  rewrite <- app_assoc, length_app, Nat.add_1_r in IH. exact IH.
Qed.

Lemma elementsAt_seq : elementsAt sorted (seq 0 n) = sorted.
Proof. exact (omap_lookup_seq [] sorted). Qed.

Lemma elementsAt_cons i e group :
  sorted !! i = Some e ->
  elementsAt sorted (i :: group) = e :: elementsAt sorted group.
Proof. intros H. unfold elementsAt. simpl. by rewrite H. Qed.

(** The [for] loop over [idxs]: it returns, what it appends are
    non-empty groups, and these hold the elements of fresh indices
    [added] that cover [idxs]. *)
Lemma groupLoop_spec idxs usedList groups :
  NoDup usedList ->
  Forall (fun i => i < n) idxs ->
  exists newGroups added,
    loop idxs (list_to_set usedList) groups = Some (groups ++ newGroups)
    /\ concat newGroups ≡ₚ elementsAt sorted added
    /\ Forall (fun g => g <> []) newGroups
    /\ NoDup (usedList ++ added)
    /\ Forall (fun i => i < n) added
    /\ Forall (fun i => i ∈ usedList ++ added) idxs.
Proof.
  revert usedList groups.
  induction idxs as [|i idxs IH]; intros usedList groups Hnd Hlt.
  { exists [], []. rewrite !app_nil_r. by repeat split. }
  apply Forall_cons in Hlt as [Hi Hlt]. cbn [groupLoop].
  destruct (decide (i ∈ (list_to_set usedList : gset nat))) as [Hin|Hin].
  - destruct (IH usedList groups Hnd Hlt)
      as (newGroups & added & -> & Hp & Hne & Hnd' & Hlt' & Hcov).
    exists newGroups, added. repeat split; try done.
    constructor; [|done]. apply elem_of_app. left. set_solver.
  - destruct (growGroup_spec (S n) [i] ({[i]} ∪ list_to_set usedList))
      as (new & -> & Hndn & Hnew); [apply unused_bound|].
    assert (Hfresh : NoDup (usedList ++ i :: new)).
    { apply NoDup_app. split; [done|]. split.
      - intros k Hk [->|Hkn]%elem_of_cons; [set_solver|].
        rewrite Forall_forall in Hnew. destruct (Hnew k Hkn). set_solver.
      - apply NoDup_cons. split; [|done]. intros Hkn.
        rewrite Forall_forall in Hnew. destruct (Hnew i Hkn). set_solver. }
    destruct (IH (usedList ++ i :: new)
                (groups ++ [elementsAt sorted
                              (array_sort engine
                                 (compareIndices avgHeight sorted) (i :: new))])
                Hfresh Hlt)
      as (newGroups & added & Heq & Hp & Hne & Hnd' & Hlt' & Hcov).
    replace (list_to_set new ∪ ({[i]} ∪ list_to_set usedList))
      with (list_to_set (C := gset nat) (usedList ++ i :: new))
      by (rewrite list_to_set_app_L; set_solver).
    simpl app. rewrite Heq, <- app_assoc.
    destruct (lookup_lt_is_Some_2 sorted i Hi) as [e He].
    assert (Hg : elementsAt sorted
                   (array_sort engine (compareIndices avgHeight sorted) (i :: new))
                 ≡ₚ e :: elementsAt sorted new).
    { rewrite <- (elementsAt_cons i e new He). unfold elementsAt.
      apply omap_Permutation, array_sort_perm. }
    eexists (_ :: newGroups), ((i :: new) ++ added).
    split; [reflexivity|]. repeat split.
    + simpl. rewrite Hg, Hp. unfold elementsAt. rewrite omap_app.
      simpl. by rewrite He.
    + constructor; [|done]. intros Hnil. rewrite Hnil in Hg.
      by apply Permutation_nil_cons in Hg.
    + by rewrite app_assoc.
    + apply Forall_app. split; [|done]. constructor; [done|].
      eapply Forall_impl; [exact Hnew|]. simpl. tauto.
    + constructor.
      * rewrite !elem_of_app. right. left. by left.
      * eapply Forall_impl; [exact Hcov|]. simpl. intros k.
        by rewrite <- app_assoc.
Qed.

Lemma scanUnused_noAdjacency js group used :
  noAdjacency config avgHeight sorted ->
  Forall (fun j => j < n) js -> Forall (fun i => i < n) group ->
  scan js group used = None.
Proof.
  intros Hno Hjs Hgroup. induction Hjs as [|j js Hj _ IH]; simpl; [done|].
  destruct (decide (j ∈ used)); [done|].
  replace (adjacentToGroup config avgHeight sorted group j) with false; [done|].
  symmetry. unfold adjacentToGroup. apply not_true_is_false.
  intros (i & Hi & Hs)%existsb_exists. apply list_elem_of_In in Hi.
  rewrite Forall_forall in Hgroup.
  rewrite Hno in Hs; [done | by apply Hgroup | done].
Qed.

Lemma groupLoop_noAdjacency m k used groups :
  noAdjacency config avgHeight sorted ->
  k + m = n -> (forall i, i ∈ used -> i < k) ->
  loop (seq k m) used groups
  = Some (groups ++ map (fun e => [e]) (drop k sorted)).
Proof.
  intros Hno. revert k used groups.
  induction m as [|m IH]; intros k used groups Hk Hused.
  { simpl. rewrite drop_ge by lia. by rewrite app_nil_r. }
  cbn [seq groupLoop].
  destruct (decide (k ∈ used)) as [Hin|_]; [apply Hused in Hin; lia|].
  cbn [growGroup].
  rewrite scanUnused_noAdjacency; [|done|..].
  - rewrite array_sort_singleton.
    destruct (lookup_lt_is_Some_2 sorted k) as [e He]; [lia|].
    rewrite (drop_S _ _ _ He). rewrite (elementsAt_cons _ _ _ He).
    rewrite IH; [|lia|].
    + by rewrite <- app_assoc.
    + intros i [->%elem_of_singleton|Hi%Hused]%elem_of_union; lia.
  - apply Forall_forall. intros j Hj%elem_of_seq. lia.
  - repeat constructor. lia.
Qed.

End Loops.

(** C5: the groups that [groupTextElements] returns are a partition of
    its input.  For every engine, list of elements and configuration the
    function returns; the groups, put end to end, are a rearrangement of
    the input, so every element is in exactly one group and none is left
    out; no group is empty; the empty input has no groups; and a single
    element forms one group of its own. *)
Theorem groupTextElements_partition (engine : ArraySort)
    (elements : list TextElement) (config : GroupingConfig) :
  (exists groups,
     groupTextElements engine elements config = Some groups
     /\ concat groups ≡ₚ elements
     /\ Forall (fun group => group <> []) groups)
  /\ groupTextElements engine [] config = Some []
  /\ (forall e, groupTextElements engine [e] config = Some [[e]]).
Proof.
  assert (Hpart : forall els,
            exists groups,
              groupTextElements engine els config = Some groups
              /\ concat groups ≡ₚ els
              /\ Forall (fun group => group <> []) groups).
  { intros [|e els]; [by exists []|].
    unfold groupTextElements.
    set (avgHeight := averageHeight (e :: els)).
    set (sorted := array_sort engine (compareElements avgHeight) (e :: els)).
    destruct (groupLoop_spec engine config avgHeight sorted
                (seq 0 (length sorted)) [] [])
      as (groups & added & Heq & Hp & Hne & Hnd & Hlt & Hcov).
    { constructor. }
    { apply Forall_forall. intros i Hi%elem_of_seq. lia. }
    exists groups. split; [exact Heq|]. split; [|done].
    rewrite Hp. simpl in Hnd, Hcov.
    assert (Hadded : added ≡ₚ seq 0 (length sorted)).
    { apply NoDup_Permutation; [done | apply NoDup_seq|].
      intros i. rewrite elem_of_seq. split.
      - intros Hi. rewrite Forall_forall in Hlt. specialize (Hlt i Hi). lia.
      - intros Hi. rewrite Forall_forall in Hcov. apply Hcov, elem_of_seq. lia. }
    unfold elementsAt. rewrite Hadded.
    fold (elementsAt sorted (seq 0 (length sorted))). rewrite elementsAt_seq.
    apply array_sort_perm. }
  split; [apply Hpart|]. split; [done|].
  intros e. destruct (Hpart [e]) as (groups & -> & Hp & Hne). f_equal.
  apply Permutation_singleton_r in Hp.
  destruct groups as [|g groups]; [done|].
  apply Forall_cons in Hne as [Hg Hne]. simpl in Hp.
  destruct g as [|e' g]; [done|]. simpl in Hp.
  injection Hp as -> Hnil. apply app_eq_nil in Hnil as [-> Hnil].
  destruct groups as [|g groups]; [done|].
  apply Forall_cons in Hne as [Hg' _]. simpl in Hnil.
  by apply app_eq_nil in Hnil as [-> _].
Qed.

(** Two elements neither of which is adjacent to the other end in two
    groups of one element each, in the order of the sort. *)
Lemma groupTextElements_two_apart (engine : ArraySort) (e1 e2 : TextElement)
    (config : GroupingConfig) :
  let avgHeight := averageHeight [e1; e2] in
  shouldGroup (frame e1) (frame e1) avgHeight config = false ->
  shouldGroup (frame e1) (frame e2) avgHeight config = false ->
  shouldGroup (frame e2) (frame e1) avgHeight config = false ->
  shouldGroup (frame e2) (frame e2) avgHeight config = false ->
  exists g1 g2,
    groupTextElements engine [e1; e2] config = Some [[g1]; [g2]]
    /\ [g1; g2] ≡ₚ [e1; e2].
Proof.
  intros avgHeight H11 H12 H21 H22. unfold groupTextElements.
  fold avgHeight.
  pose proof (array_sort_perm engine _ (compareElements avgHeight) [e1; e2])
    as Hperm.
  set (sorted := array_sort engine (compareElements avgHeight) [e1; e2]) in *.
  assert (Hcases : sorted = [e1; e2] \/ sorted = [e2; e1]).
  { symmetry in Hperm. apply Permutation_length_2_inv in Hperm. tauto. }
  assert (Hno : noAdjacency config avgHeight sorted).
  { intros i j Hi Hj.
    destruct Hcases as [-> | ->];
      destruct i as [|[|i]]; simpl in Hi; try lia;
      destruct j as [|[|j]]; simpl in Hj; try lia; done. }
  rewrite (groupLoop_noAdjacency engine config avgHeight sorted
             (length sorted) 0 ∅ [] Hno); [|done|set_solver].
  destruct Hcases as [-> | ->]; simpl; eexists _, _; by split.
Qed.

(** C3, as stated, fails.  The two frames are on the same line (their
    vertical overlap is 18 of 20), but the code measures the horizontal
    gap between the centres, 85 - 25 = 60, which is not below
    [avgHeight * HORIZONTAL_THRESHOLD_RATIO = 20 * 2.5 = 50]: the default
    configuration leaves the two elements in two groups. *)
Lemma default_grouping_merge_counterexample :
  let e1 := element (mkFrame 0 0 50 20) in
  let e2 := element (mkFrame 60 2 50 20) in
  areOnSameLine (frame e1) (frame e2) DEFAULT_GROUPING = true
  /\ horizontal (calculateDistance (frame e1) (frame e2)) == 60
  /\ averageHeight [e1; e2] * HORIZONTAL_THRESHOLD_RATIO DEFAULT_GROUPING == 50
  /\ groupTextElements insertion_engine [e1; e2] DEFAULT_GROUPING
     = Some [[e1]; [e2]].
Proof. by vm_compute. Qed.

(** C3, amended: with the default configuration the two elements with
    frames [{left:0, top:0, width:50, height:20}] and
    [{left:60, top:2, width:50, height:20}] are placed in two groups of
    one element each, whatever their text, confidence and polygon and
    whatever the sorting engine; and so are the same two elements with the
    horizontal gap widened to [avgHeight * 3 = 60], the second frame
    starting at 110. *)
Theorem default_grouping_two_groups (engine : ArraySort)
    (t1 t2 : jsstring) (c1 c2 : jsnum) (b1 b2 : list (Q * Q)) :
  let e1 := mkElement t1 c1 (mkFrame 0 0 50 20) b1 in
  let e2 := mkElement t2 c2 (mkFrame 60 2 50 20) b2 in
  let e2wide := mkElement t2 c2 (mkFrame 110 2 50 20) b2 in
  (exists g1 g2,
     groupTextElements engine [e1; e2] DEFAULT_GROUPING = Some [[g1]; [g2]]
     /\ [g1; g2] ≡ₚ [e1; e2])
  /\ (exists g1 g2,
        groupTextElements engine [e1; e2wide] DEFAULT_GROUPING
        = Some [[g1]; [g2]]
        /\ [g1; g2] ≡ₚ [e1; e2wide]).
Proof.
  intros e1 e2 e2wide.
  split; apply groupTextElements_two_apart; by vm_compute.
Qed.

End GroupingFacts.

(** ** The sequence decoder *)

Module RecognitionFacts.

Import Recognition.

Section DecodeFacts.

Context (dictionary : list jsstring).
Context (removeDuplicateChars : bool).
Context (textIndex : list Z).
Context (textProb : list jsnum).

Local Open Scope nat_scope.

Local Abbreviation emitted :=
  (emittedAt dictionary removeDuplicateChars textIndex).
Local Abbreviation confidence :=
  (confidenceAt dictionary removeDuplicateChars textIndex textProb).
Local Abbreviation step :=
  (decodeStep dictionary removeDuplicateChars textIndex textProb).
Local Abbreviation timesteps := (seq 0 (length textIndex)).

Lemma decodeStep_emitted acc idx :
  step acc idx
  = (acc.1 ++ option_list (emitted idx),
     acc.2 ++ option_list (confidence idx)).
Proof.
  unfold decodeStep, confidenceAt, emittedAt. destruct acc as [cs ps]. simpl.
  destruct (textIndex !! idx) as [c|]; simpl; [|by rewrite !app_nil_r].
  repeat (case_match; simpl; rewrite ?app_nil_r; try done).
Qed.

Lemma fold_decodeStep idxs acc :
  fold_left step idxs acc
  = (acc.1 ++ omap emitted idxs, acc.2 ++ omap confidence idxs).
Proof.
  revert acc. induction idxs as [|idx idxs IH]; intros acc.
  { simpl. rewrite !app_nil_r. by destruct acc. }
  cbn [fold_left]. rewrite IH, decodeStep_emitted. simpl.
  rewrite <- !app_assoc. f_equal; f_equal.
  - by destruct (emitted idx).
  - by destruct (confidence idx).
Qed.

(** The two lists that the loop of [decode] builds hold the characters
    and the probabilities of the emitting timesteps, in order. *)
Lemma decodeLists_emitted :
  decodeLists dictionary removeDuplicateChars textIndex textProb
  = (omap emitted timesteps, omap confidence timesteps).
Proof. unfold decodeLists. by rewrite fold_decodeStep. Qed.

Lemma decode_emitted :
  decode dictionary removeDuplicateChars textIndex textProb
  = {| text :=
         trim (collapseWhitespace (removeCarriageReturns
           (join (omap emitted timesteps))));
       mean := meanOf (omap confidence timesteps) |}.
Proof. unfold decode. by rewrite decodeLists_emitted. Qed.

Lemma dictionaryChar_outside (c : Z) :
  (c - 1 < 0 \/ Z.of_nat (length dictionary) <= c - 1)%Z ->
  dictionaryChar dictionary c = None.
Proof.
  intros Hc. unfold dictionaryChar, at_index.
  destruct (Z.ltb_spec (c - 1) 0) as [|Hpos]; [done|].
  rewrite lookup_ge_None_2; [done | lia].
Qed.

End DecodeFacts.

Local Open Scope nat_scope.

Lemma fold_left_js_add (qs : list Q) (q : Q) :
  fold_left js_add (map Fin qs) (Fin q) = Fin (fold_left Qplus qs q).
Proof.
  revert q. induction qs as [|x qs IH]; intros q; simpl; [done | apply IH].
Qed.

Lemma fold_left_Qplus (qs : list Q) (q : Q) :
  (fold_left Qplus qs q == q + Qsum qs)%Q.
Proof.
  revert q. induction qs as [|x qs IH]; intros q; simpl.
  - ring.
  - rewrite IH. ring.
Qed.

Lemma js_div_len_finite (q : Q) (k : nat) :
  js_div_len (Fin q) (S k) = Fin (q / inject_Z (Z.of_nat (S k))).
Proof.
  unfold js_div_len, js_div.
  destruct (Qeq_bool (inject_Z (Z.of_nat (S k))) 0) eqn:E; [|done].
  apply Qeq_bool_iff in E. unfold Qeq in E. simpl in E. lia.
Qed.

(** The arithmetic mean of a non-empty list of finite probabilities. *)
Lemma meanOf_finite (q : Q) (qs : list Q) :
  exists m,
    meanOf (map Fin (q :: qs)) = Fin m
    /\ (m == Qsum (q :: qs) / inject_Z (Z.of_nat (length (q :: qs))))%Q.
Proof.
  eexists. split.
  - cbn [meanOf map]. rewrite fold_left_js_add. cbn [length].
    rewrite length_map. apply js_div_len_finite.
  - cbn [length]. rewrite fold_left_Qplus. reflexivity.
Qed.

Lemma omap_confidenceAt_length dictionary rdc textIndex textProb idxs :
  length (omap (confidenceAt dictionary rdc textIndex textProb) idxs)
  = length (omap (emittedAt dictionary rdc textIndex) idxs).
Proof.
  induction idxs as [|idx idxs IH]; [done|]. simpl. unfold confidenceAt at 1.
  destruct (emittedAt dictionary rdc textIndex idx); simpl; [f_equal|]; exact IH.
Qed.

Lemma omap_emittedAt_ignored dictionary rdc textIndex idxs :
  Forall (fun c => c ∈ IGNORED_TOKENS) textIndex ->
  omap (emittedAt dictionary rdc textIndex) idxs = [].
Proof.
  intros Hall. induction idxs as [|idx idxs IH]; [done|]. simpl.
  replace (emittedAt dictionary rdc textIndex idx) with (@None jsstring); [done|].
  unfold emittedAt. destruct (textIndex !! idx) as [c|] eqn:Hc; [|done].
  rewrite bool_decide_eq_true_2; [done|].
  rewrite Forall_forall in Hall. apply Hall. by eapply list_elem_of_lookup_2.
Qed.

(** *** Tensors of one line *)

Lemma linesLoop_negative dictionary rdc output fuel (l : Z) :
  (l < 0)%Z -> linesLoop dictionary rdc output fuel l = Some [].
Proof.
  intros Hl. destruct fuel; simpl; by rewrite (proj2 (Z.ltb_lt l 0) Hl).
Qed.

(** [decodeText] returns, with the one decoded line. *)
Lemma decodeText_batchOne dictionary rdc output :
  batchOne output ->
  decodeText dictionary rdc output = Some [decodeLine dictionary rdc output].
Proof.
  intros [Hlen Hpos]. unfold decodeText. rewrite Hlen, Z.sub_diag.
  cbn [linesLoop]. change (0 <? 0)%Z with false. cbn iota.
  rewrite linesLoop_negative by lia.
  unfold decodeLine, predsOf. change (Z.to_nat 0) with 0. rewrite Nat.add_0_l.
  by destruct (predsLoop output (dims1 output) 0 (lineLen output)).
Qed.

(** *** Duplicates *)

(** C2, as stated, fails.  For the classes [5, 0, 5] with class 0
    ignored the claim keeps one timestep, the last one repeating the class
    of the nearest timestep that was kept.  The code compares with
    [textIndex[idx - 1]], which is the ignored class 0, keeps the last
    timestep and decodes two characters. *)
Lemma duplicate_across_blank_counterexample :
  keptClasses_claimed None [5; 0; 5]%Z = [5%Z]
  /\ emittedAt dictionaryA true [5; 0; 5]%Z 2 = Some [65%N]
  /\ text (decode dictionaryA true [5; 0; 5]%Z [Fin 1; Fin 1; Fin 1])
     = [65; 65]%N.
Proof. by vm_compute. Qed.

(** The example of the specification: the classes
    [5, 5, 0, 7, 7, 7, 0, 5] decode to ["ABA"]. *)
Example decode_ABA :
  text (decode dictionaryA true [5; 5; 0; 7; 7; 7; 0; 5]%Z (replicate 8 (Fin 1)))
  = [65; 66; 65]%N.
Proof. by vm_compute. Qed.

(** C2, amended: with [removeDuplicateChars] enabled, a timestep whose
    class [c] is not ignored is dropped as a duplicate exactly when it is
    not the first timestep and the timestep immediately before it in the
    input has the same class, whether or not that one was dropped;
    otherwise it emits the dictionary character of [c], if there is one.
    The decoded lists are the emissions of all timesteps in order. *)
Theorem duplicate_of_previous_timestep (dictionary : list jsstring)
    (textIndex : list Z) (textProb : list jsnum) (idx : nat) (c : Z) :
  textIndex !! idx = Some c ->
  c ∉ IGNORED_TOKENS ->
  ((0 < idx /\ textIndex !! (idx - 1) = Some c)
   /\ emittedAt dictionary true textIndex idx = None
   \/ ~ (0 < idx /\ textIndex !! (idx - 1) = Some c)
      /\ emittedAt dictionary true textIndex idx = dictionaryChar dictionary c)
  /\ decodeLists dictionary true textIndex textProb
     = (omap (emittedAt dictionary true textIndex) (seq 0 (length textIndex)),
        omap (confidenceAt dictionary true textIndex textProb)
          (seq 0 (length textIndex))).
Proof.
  intros Hc Hign. split; [|apply decodeLists_emitted].
  unfold emittedAt. rewrite Hc, bool_decide_eq_false_2 by done. simpl.
  destruct (0 <? idx) eqn:Hpos; simpl.
  - apply Nat.ltb_lt in Hpos.
    destruct (bool_decide_reflect (textIndex !! (idx - 1) = Some c)); simpl.
    + by left.
    + right. split; [tauto | done].
  - apply Nat.ltb_ge in Hpos. right. split; [lia | done].
Qed.

Lemma duplicate_of_previous_timestep_witness :
  emittedAt dictionaryA true [5; 0; 5; 5]%Z 3 = None
  /\ emittedAt dictionaryA true [5; 0; 5; 5]%Z 2 = Some [65%N].
Proof.
  split.
  - destruct (duplicate_of_previous_timestep dictionaryA [5; 0; 5; 5]%Z
                [Fin 1; Fin 1; Fin 1; Fin 1] 3 5%Z) as [[[_ H]|[H _]] _].
    + reflexivity.
    + vm_compute. by intros ?%list_elem_of_In; simpl in *; intuition lia.
    + exact H.
    + exfalso. apply H. split; [lia | reflexivity].
  - reflexivity.
Defined.

(** *** Confidence *)

Lemma omap_cons_app {A B : Type} (f : A -> option B) (x : A) (l : list A) :
  omap f (x :: l) = option_list (f x) ++ omap f l.
Proof. simpl. by destruct (f x). Qed.

Lemma emittedAt_survives dictionary rdc (textIndex : list Z) (idx : nat) :
  emittedAt dictionary rdc textIndex idx
  = if survives dictionary rdc textIndex idx
    then textIndex !! idx ≫= dictionaryChar dictionary
    else None.
Proof.
  unfold emittedAt, survives.
  destruct (textIndex !! idx) as [c|]; [|done]. cbn [mbind option_bind].
  destruct (bool_decide (c ∈ IGNORED_TOKENS)); [done|].
  destruct (rdc && (0 <? idx)
            && bool_decide (textIndex !! (idx - 1) = Some c)); [done|].
  cbn [negb andb].
  destruct (dictionaryChar dictionary c) as [char|] eqn:Hchar.
  - by rewrite bool_decide_eq_true_2.
  - rewrite bool_decide_eq_false_2; [done|]. by intros [? ?].
Qed.

Lemma survives_emits dictionary rdc (textIndex : list Z) (idx : nat) :
  survives dictionary rdc textIndex idx = true ->
  is_Some (emittedAt dictionary rdc textIndex idx).
Proof.
  intros Hs. rewrite emittedAt_survives, Hs. unfold survives in Hs.
  destruct (textIndex !! idx) as [c|]; [|done]. cbn [mbind option_bind].
  apply andb_true_iff in Hs as [_ Hs]. by apply bool_decide_eq_true in Hs.
Qed.

(** What the loop of [decode] collects, read off its two inputs: the
    characters of the classes and the probabilities at the surviving
    timesteps. *)
Lemma omap_survivors dictionary rdc (textIndex : list Z) (textProb : list jsnum)
    (idxs : list nat) :
  omap (emittedAt dictionary rdc textIndex) idxs
  = omap (fun idx => textIndex !! idx ≫= dictionaryChar dictionary)
      (List.filter (survives dictionary rdc textIndex) idxs)
  /\ omap (confidenceAt dictionary rdc textIndex textProb) idxs
     = map (fun idx => default NaN (textProb !! idx))
         (List.filter (survives dictionary rdc textIndex) idxs)
  /\ length (omap (emittedAt dictionary rdc textIndex) idxs)
     = length (List.filter (survives dictionary rdc textIndex) idxs).
Proof.
  induction idxs as [|idx idxs (IH1 & IH2 & IH3)]; [done|].
  cbn [List.filter]. rewrite !omap_cons_app, length_app, IH3, IH1, IH2.
  unfold confidenceAt at 1.
  pose proof (survives_emits dictionary rdc textIndex idx) as Hsome.
  rewrite (emittedAt_survives dictionary rdc textIndex idx) in *.
  destruct (survives dictionary rdc textIndex idx); [|done].
  destruct (Hsome eq_refl) as [char Hchar].
  rewrite omap_cons_app, Hchar. by cbn [option_list app map length].
Qed.

(** C8: when every argmax class is an ignored token the decoder returns
    the empty text with confidence 0, also from the tensor of one line;
    whenever no character survives the mean is 0; and otherwise the mean
    is the sum of the surviving probabilities divided by their number,
    one probability for each surviving character.  The lists that the
    decoder collects are read off its inputs: the characters of the
    classes at the surviving timesteps and the entries of [textProb] at
    these same timesteps, so that for finite probabilities the mean is
    the sum of the probabilities of the surviving timesteps divided by
    the number of these timesteps. *)
Theorem decode_all_blank (dictionary : list jsstring) (removeDuplicateChars : bool)
    (textIndex : list Z) (textProb : list jsnum) :
  (Forall (fun c => c ∈ IGNORED_TOKENS) textIndex ->
   decode dictionary removeDuplicateChars textIndex textProb
   = {| text := []; mean := Fin 0 |})
  /\ ((decodeLists dictionary removeDuplicateChars textIndex textProb).1 = [] ->
      mean (decode dictionary removeDuplicateChars textIndex textProb) = Fin 0)
  /\ (forall (q : Q) (qs : list Q),
        (decodeLists dictionary removeDuplicateChars textIndex textProb).2
        = map Fin (q :: qs) ->
        length (decodeLists dictionary removeDuplicateChars textIndex textProb).1
        = length (q :: qs)
        /\ exists m,
             mean (decode dictionary removeDuplicateChars textIndex textProb)
             = Fin m
             /\ (m == Qsum (q :: qs) / inject_Z (Z.of_nat (length (q :: qs))))%Q)
  /\ (forall output : Tensor,
        batchOne output ->
        Forall (fun c => c ∈ IGNORED_TOKENS) (predsOf output).1 ->
        decodeText dictionary removeDuplicateChars output
        = Some [{| text := []; mean := Fin 0 |}])
  /\ decodeLists dictionary removeDuplicateChars textIndex textProb
     = (omap (fun idx => textIndex !! idx ≫= dictionaryChar dictionary)
          (survivors dictionary removeDuplicateChars textIndex),
        map (fun idx => default NaN (textProb !! idx))
          (survivors dictionary removeDuplicateChars textIndex))
  /\ length (decodeLists dictionary removeDuplicateChars textIndex textProb).1
     = length (survivors dictionary removeDuplicateChars textIndex)
  /\ (survivors dictionary removeDuplicateChars textIndex = [] ->
      mean (decode dictionary removeDuplicateChars textIndex textProb) = Fin 0)
  /\ (forall probs : list Q,
        textProb = map Fin probs ->
        length textIndex <= length probs ->
        survivors dictionary removeDuplicateChars textIndex <> [] ->
        exists m,
          mean (decode dictionary removeDuplicateChars textIndex textProb)
          = Fin m
          /\ (m == Qsum (omap (fun idx => probs !! idx)
                           (survivors dictionary removeDuplicateChars
                              textIndex))
                  / inject_Z
                      (Z.of_nat
                         (length (survivors dictionary removeDuplicateChars
                                    textIndex))))%Q).
Proof.
  assert (Hblank : forall ti tp,
            Forall (fun c => c ∈ IGNORED_TOKENS) ti ->
            decode dictionary removeDuplicateChars ti tp
            = {| text := []; mean := Fin 0 |}).
  { intros ti tp Hall. rewrite decode_emitted.
    assert (Hconf : omap (confidenceAt dictionary removeDuplicateChars ti tp)
                      (seq 0 (length ti)) = []).
    { apply length_zero_iff_nil. rewrite omap_confidenceAt_length.
      by rewrite omap_emittedAt_ignored. }
    by rewrite Hconf, omap_emittedAt_ignored. }
  destruct (omap_survivors dictionary removeDuplicateChars textIndex textProb
              (seq 0 (length textIndex))) as (Hchars & Hprobs & Hcount).
  fold (survivors dictionary removeDuplicateChars textIndex)
    in Hchars, Hprobs, Hcount.
  split; [apply Hblank|]. split; [|split; [|split; [|split; [|split; [|split]]]]].
  - rewrite decode_emitted, decodeLists_emitted. simpl. intros Hnil.
    assert (Hconf : omap (confidenceAt dictionary removeDuplicateChars
                            textIndex textProb)
                      (seq 0 (length textIndex)) = []).
    { apply length_zero_iff_nil. by rewrite omap_confidenceAt_length, Hnil. }
    by rewrite Hconf.
  - intros q qs. rewrite decode_emitted, decodeLists_emitted. cbn [fst snd mean].
    intros Hconf. split.
    + by rewrite <- (omap_confidenceAt_length _ _ _ textProb), Hconf, length_map.
    + rewrite Hconf. apply meanOf_finite.
  - intros output Hone Hall. rewrite decodeText_batchOne by done.
    unfold decodeLine. by rewrite Hblank.
  - by rewrite decodeLists_emitted, Hchars, Hprobs.
  - rewrite decodeLists_emitted. exact Hcount.
  - intros Hnil. rewrite decode_emitted, Hprobs, Hnil. done.
  - intros probs -> Hlen Hsome. rewrite decode_emitted, Hprobs. cbn [mean].
    assert (Hlookup : map (fun idx => default NaN (map Fin probs !! idx))
                        (survivors dictionary removeDuplicateChars textIndex)
                      = map Fin
                          (omap (fun idx => probs !! idx)
                             (survivors dictionary removeDuplicateChars
                                textIndex))
                        /\ length (omap (fun idx => probs !! idx)
                                     (survivors dictionary removeDuplicateChars
                                        textIndex))
                           = length (survivors dictionary removeDuplicateChars
                                       textIndex)).
    { unfold survivors.
      assert (Hidx : Forall (fun idx => idx < length probs)
                       (List.filter
                          (survives dictionary removeDuplicateChars textIndex)
                          (seq 0 (length textIndex)))).
      { apply Forall_forall.
        intros idx [Hin%list_elem_of_In%elem_of_seq _]%list_elem_of_In%filter_In.
        lia. }
      induction Hidx as [|idx idxs Hi _ [IH1 IH2]]; [done|].
      destruct (lookup_lt_is_Some_2 probs idx Hi) as [x Hx].
      cbn [map omap list_omap]. rewrite Hx.
      change (map Fin probs !! idx) with ((Fin <$> probs) !! idx).
      rewrite list_lookup_fmap, Hx. cbn [fmap option_fmap option_map default].
      cbn [map length]. by rewrite <- IH1, IH2. }
    destruct Hlookup as [-> Hlen'].
    destruct (omap (fun idx => probs !! idx)
                (survivors dictionary removeDuplicateChars textIndex))
      as [|q qs] eqn:Hqs.
    { simpl in Hlen'. symmetry in Hlen'. by apply length_zero_iff_nil in Hlen'. }
    rewrite <- Hlen'. apply meanOf_finite.
Qed.

Lemma decode_all_blank_witness :
  decode dictionaryA true [0; 0; 0]%Z [Fin (9 # 10); Fin 1; Fin (8 # 10)]
  = {| text := []; mean := Fin 0 |}.
Proof.
  apply (decode_all_blank dictionaryA true [0; 0; 0]%Z
           [Fin (9 # 10); Fin 1; Fin (8 # 10)]).
  repeat constructor.
Defined.

(** *** Classes outside the dictionary *)

(** C9: a timestep whose class [c] has its dictionary position [c - 1]
    outside the dictionary contributes nothing: its iteration leaves
    [charList] and [confList] as they were, and [decode] returns the
    line made of the characters and the probabilities of the other
    timesteps. *)
Theorem decode_outside_dictionary (dictionary : list jsstring)
    (removeDuplicateChars : bool) (textIndex : list Z) (textProb : list jsnum)
    (idx : nat) (c : Z) :
  textIndex !! idx = Some c ->
  (c - 1 < 0 \/ Z.of_nat (length dictionary) <= c - 1)%Z ->
  (forall acc,
     decodeStep dictionary removeDuplicateChars textIndex textProb acc idx = acc)
  /\ emittedAt dictionary removeDuplicateChars textIndex idx = None
  /\ confidenceAt dictionary removeDuplicateChars textIndex textProb idx = None
  /\ decode dictionary removeDuplicateChars textIndex textProb
     = {| text :=
            trim (collapseWhitespace (removeCarriageReturns
              (join (omap (emittedAt dictionary removeDuplicateChars textIndex)
                       (seq 0 (length textIndex))))));
          mean :=
            meanOf (omap (confidenceAt dictionary removeDuplicateChars
                            textIndex textProb)
                      (seq 0 (length textIndex))) |}.
Proof.
  intros Hc Hout.
  assert (Hem : emittedAt dictionary removeDuplicateChars textIndex idx = None).
  { unfold emittedAt. rewrite Hc, (dictionaryChar_outside _ _ Hout).
    by repeat case_match. }
  assert (Hconf : confidenceAt dictionary removeDuplicateChars textIndex
                    textProb idx
                  = None).
  { unfold confidenceAt. by rewrite Hem. }
  split; [|split; [done|split; [done|apply decode_emitted]]].
  intros [cs ps]. rewrite decodeStep_emitted, Hem, Hconf. simpl.
  by rewrite !app_nil_r.
Qed.

Lemma decode_outside_dictionary_witness :
  decode dictionaryA true [5; 9; 7; -1]%Z [Fin 1; Fin (1 # 2); Fin (1 # 2); Fin 1]
  = {| text := [65; 66]%N; mean := Fin (3 # 4) |}.
Proof.
  destruct (decode_outside_dictionary dictionaryA true [5; 9; 7; -1]%Z
              [Fin 1; Fin (1 # 2); Fin (1 # 2); Fin 1] 1 9%Z)
    as (_ & _ & _ & ->).
  - reflexivity.
  - right. vm_compute. discriminate.
  - reflexivity.
Defined.

(** *** Crops and their polygons *)

Lemma map_reverse {A B : Type} (f : A -> B) (l : list A) :
  map f (reverse l) = reverse (map f l).
Proof.
  induction l as [|x l IH]; [done|].
  simpl. by rewrite !reverse_cons, map_app, IH.
Qed.

Lemma lookup_map {A B : Type} (f : A -> B) (l : list A) (i : nat) :
  map f l !! i = f <$> l !! i.
Proof. exact (list_lookup_fmap f l i). Qed.

Lemma filter_bool_reverse {A : Type} (f : A -> bool) (l : list A) :
  List.filter f (reverse l) = reverse (List.filter f l).
Proof.
  induction l as [|x l IH]; [done|].
  simpl. rewrite reverse_cons, List.filter_app, IH. simpl.
  destruct (f x); [by rewrite reverse_cons | by rewrite app_nil_r].
Qed.

Section RunFacts.

Context (dictionary : list jsstring).
Context (removeDuplicateChars : bool).
Context {Image ModelData : Type}.
Context (toModelData : Image -> ModelData).
Context (runModel : ModelData -> Tensor).
Context (confidenceThreshold : Q).

Local Abbreviation tensor := (tensorOf toModelData runModel).
Local Abbreviation decoded := (decodeLine dictionary removeDuplicateChars).
Local Abbreviation recognized :=
  (recognize dictionary removeDuplicateChars toModelData runModel).

Lemma runLoop_batchOne (modelDatas : list ModelData) (allLines : list Line) :
  Forall (fun modelData => batchOne (runModel modelData)) modelDatas ->
  runLoop dictionary removeDuplicateChars runModel modelDatas allLines
  = Some
      (reverse
         (map (fun modelData => decoded (runModel modelData)) modelDatas)
       ++ allLines).
Proof.
  intros Hall. revert allLines.
  induction Hall as [|modelData modelDatas Hone _ IH]; intros allLines; [done|].
  cbn [runLoop map]. rewrite decodeText_batchOne by done.
  rewrite IH, reverse_cons, <- app_assoc. done.
Qed.

(** Before the confidence filter, [run] returns the crops in reverse,
    each decoded line with the box of its own crop. *)
Lemma runUnfiltered_batchOne (lineImages : list LineImage) :
  Forall (fun li => batchOne (tensor li)) lineImages ->
  runUnfiltered dictionary removeDuplicateChars toModelData runModel lineImages
  = Some (reverse (map recognized lineImages)).
Proof.
  intros Hall. unfold runUnfiltered.
  rewrite runLoop_batchOne by (by apply Forall_map).
  rewrite app_nil_r, map_map.
  apply mapM_Some, Forall2_same_length_lookup_2.
  { by rewrite length_imap, !length_reverse, !length_map. }
  intros i x y Hx Hy.
  rewrite list_lookup_imap in Hx.
  assert (Hi : i < length lineImages).
  { apply lookup_lt_Some in Hy. by rewrite length_reverse, length_map in Hy. }
  rewrite reverse_lookup in Hx by (by rewrite length_map).
  rewrite reverse_lookup in Hy by (by rewrite length_map).
  rewrite length_reverse, !length_map in Hx. rewrite length_map in Hy.
  rewrite lookup_map in Hx. rewrite lookup_map in Hy.
  destruct (lineImages !! (length lineImages - S i)) as [li|] eqn:Hli; [|done].
  simpl in Hx, Hy. unfold attachBox in Hx.
  replace (length lineImages - i - 1) with (length lineImages - S i) in Hx by lia.
  rewrite Hli in Hx. by simplify_eq.
Qed.

(** C6: when every crop yields a tensor of one line, [run] returns, and
    before the confidence filter its [i]-th result is the decoded line
    of crop [n - 1 - i] together with the box of crop [n - 1 - i]; so
    every result that [run] returns after the filter carries the box of
    the crop whose tensor was decoded into its text. *)
Theorem run_keeps_crop_polygon (lineImages : list LineImage) :
  Forall (fun li => batchOne (tensor li)) lineImages ->
  exists results kept,
    runUnfiltered dictionary removeDuplicateChars toModelData runModel lineImages
    = Some results
    /\ length results = length lineImages
    /\ (forall i li,
          i < length lineImages ->
          lineImages !! (length lineImages - 1 - i) = Some li ->
          results !! i
          = Some {| line := decoded (tensor li); box := li_box li |})
    /\ run dictionary removeDuplicateChars toModelData runModel
         confidenceThreshold lineImages
       = Some kept
    /\ (forall r, r ∈ kept ->
          exists li,
            li ∈ lineImages
            /\ line r = decoded (tensor li)
            /\ box r = li_box li).
Proof.
  intros Hall. pose proof (runUnfiltered_batchOne lineImages Hall) as Hrun.
  eexists _, _. split; [exact Hrun|]. split; [|split; [|split]].
  - by rewrite length_reverse, length_map.
  - intros i li Hi Hli.
    rewrite reverse_lookup by (by rewrite length_map).
    rewrite length_map, lookup_map.
    replace (length lineImages - S i) with (length lineImages - 1 - i) by lia.
    by rewrite Hli.
  - unfold run. by rewrite Hrun.
  - intros r Hr. apply list_elem_of_In, filter_In in Hr as [Hr _].
    apply list_elem_of_In, elem_of_reverse, list_elem_of_In, in_map_iff in Hr
      as (li & <- & Hli).
    exists li. by apply list_elem_of_In in Hli.
Qed.

End RunFacts.

Lemma run_keeps_crop_polygon_witness :
  exists results kept,
    runUnfiltered dictionaryA true (fun image : nat => image) exampleModel
      exampleCrops = Some results
    /\ length results = 2
    /\ (forall i li,
          i < 2 ->
          exampleCrops !! (2 - 1 - i) = Some li ->
          results !! i
          = Some {| line :=
                      decodeLine dictionaryA true
                        (tensorOf (fun image : nat => image) exampleModel li);
                    box := li_box li |})
    /\ run dictionaryA true (fun image : nat => image) exampleModel (1 # 2)
         exampleCrops
       = Some kept
    /\ (forall r, r ∈ kept ->
          exists li,
            li ∈ exampleCrops
            /\ line r
               = decodeLine dictionaryA true
                   (tensorOf (fun image : nat => image) exampleModel li)
            /\ box r = li_box li).
Proof.
  apply (run_keeps_crop_polygon dictionaryA true (fun image : nat => image)
           exampleModel (1 # 2) exampleCrops).
  repeat constructor.
Defined.

End RecognitionFacts.

(** ** The elements of [detect] *)

Module OcrFacts.

Import Recognition RecognitionFacts.

Local Open Scope nat_scope.

Lemma individualElements_reverse (texts : list Recognized) :
  Ocr.individualElements (reverse texts) = reverse (Ocr.individualElements texts).
Proof.
  unfold Ocr.individualElements. by rewrite filter_bool_reverse, map_reverse.
Qed.

(** C10: when every crop yields a tensor of one line, the list of [run]
    before the confidence filter is the list of crops reversed, each
    decoded with its own box, so the result at position [i] is that of
    crop [n - 1 - i]; the filter keeps that order, and the [data] array of
    [detect] is the reverse of the elements taken in the order in which
    the region extractor listed the crops. *)
Theorem run_reverses_crops {Image ModelData : Type}
    (toModelData : Image -> ModelData) (runModel : ModelData -> Tensor)
    (dictionary : list jsstring) (removeDuplicateChars : bool)
    (confidenceThreshold : Q) (lineImages : list LineImage) :
  Forall (fun li => batchOne (tensorOf toModelData runModel li)) lineImages ->
  let inOrder :=
    map (recognize dictionary removeDuplicateChars toModelData runModel)
      lineImages in
  runUnfiltered dictionary removeDuplicateChars toModelData runModel lineImages
  = Some (reverse inOrder)
  /\ (forall i, i < length lineImages ->
        reverse inOrder !! i
        = recognize dictionary removeDuplicateChars toModelData runModel
          <$> lineImages !! (length lineImages - 1 - i))
  /\ run dictionary removeDuplicateChars toModelData runModel confidenceThreshold
       lineImages
     = Some (reverse (List.filter (confident confidenceThreshold) inOrder))
  /\ Ocr.detectData toModelData runModel dictionary removeDuplicateChars
       confidenceThreshold lineImages
     = Some
         (reverse
            (Ocr.individualElements
               (List.filter (confident confidenceThreshold) inOrder))).
Proof.
  intros Hall inOrder.
  pose proof (runUnfiltered_batchOne dictionary removeDuplicateChars
                toModelData runModel lineImages Hall) as Hrun.
  fold inOrder in Hrun.
  assert (Hfilter :
            run dictionary removeDuplicateChars toModelData runModel
              confidenceThreshold lineImages
            = Some (reverse (List.filter (confident confidenceThreshold) inOrder))).
  { unfold run. rewrite Hrun. f_equal. apply filter_bool_reverse. }
  split; [exact Hrun|]. split; [|split; [exact Hfilter|]].
  - intros i Hi. unfold inOrder.
    rewrite reverse_lookup by (by rewrite length_map).
    rewrite length_map, lookup_map. do 2 f_equal. lia.
  - unfold Ocr.detectData. rewrite Hfilter. f_equal.
    apply individualElements_reverse.
Qed.

Lemma run_reverses_crops_witness :
  Ocr.detectData (fun image : nat => image) exampleModel dictionaryA true (1 # 2)
    exampleCrops
  = Some
      [ Grouping.mkElement [66%N] (Fin (7 # 10)) (Grouping.mkFrame 0 20 10 5)
          [(0, 20); (10, 20); (10, 25); (0, 25)]%Q;
        Grouping.mkElement [65%N] (Fin (9 # 10)) (Grouping.mkFrame 0 0 10 5)
          [(0, 0); (10, 0); (10, 5); (0, 5)]%Q ].
Proof.
  destruct (run_reverses_crops (fun image : nat => image) exampleModel
              dictionaryA true (1 # 2) exampleCrops)
    as (_ & _ & _ & ->).
  - repeat constructor.
  - vm_compute. reflexivity.
Defined.

End OcrFacts.

(** ** The unclip distance *)

Module DetectionFacts.

Import Detection.

Local Open Scope R_scope.

Lemma edges_four (q0 q1 q2 q3 : Point) :
  edges [q0; q1; q2; q3] = [(q0, q1); (q1, q2); (q2, q3); (q3, q0)].
Proof. reflexivity. Qed.

Lemma polygonPolygonLength_four (q0 q1 q2 q3 : Point) :
  polygonPolygonLength [q0; q1; q2; q3]
  = 0 + edgeLength q0 q1 + edgeLength q1 q2 + edgeLength q2 q3 + edgeLength q3 q0.
Proof. reflexivity. Qed.

Lemma edgeLength_nonneg (p q : Point) : 0 <= edgeLength p q.
Proof. apply sqrt_pos. Qed.

Lemma edgeLength_pos (p q : Point) : p <> q -> 0 < edgeLength p q.
Proof.
  intros Hne. apply sqrt_lt_R0.
  destruct p as [px py], q as [qx qy]. simpl.
  destruct (Req_dec px qx) as [Hx|Hx]; destruct (Req_dec py qy) as [Hy|Hy];
    [subst; done | | |]; nra.
Qed.

Lemma edgeLength_same (p : Point) : edgeLength p p = 0.
Proof.
  unfold edgeLength.
  replace ((fst p - fst p) ^ 2 + (snd p - snd p) ^ 2) with 0 by ring.
  apply sqrt_0.
Qed.

(** A closed polygon through four distinct points has a positive
    perimeter. *)
Lemma polygonPolygonLength_pos (q0 q1 q2 q3 : Point) :
  NoDup [q0; q1; q2; q3] -> 0 < polygonPolygonLength [q0; q1; q2; q3].
Proof.
  intros Hnd. rewrite polygonPolygonLength_four.
  assert (q0 <> q1).
  { apply NoDup_cons in Hnd as [Hq _]. intros ->. apply Hq. by left. }
  pose proof (edgeLength_pos q0 q1 ltac:(done)).
  pose proof (edgeLength_nonneg q1 q2).
  pose proof (edgeLength_nonneg q2 q3).
  pose proof (edgeLength_nonneg q3 q0).
  lra.
Qed.

(** The corners of a rectangle with positive sides are four distinct
    points. *)
Lemma boxPoints_NoDup (rotatedRect : RotatedRect) :
  0 < width (size rotatedRect) -> 0 < height (size rotatedRect) ->
  NoDup (boxPoints rotatedRect).
Proof.
  intros Hw Hh. unfold boxPoints.
  set (t := angle rotatedRect * PI / 180).
  pose proof (sin2_cos2 t) as Hsc. unfold Rsqr in Hsc.
  set (a := sin t * (1 / 2)). set (b := cos t * (1 / 2)).
  assert (Hab : a * a + b * b = 1 / 4) by (unfold a, b; nra).
  clearbody a b. clear Hsc.
  set (w := width (size rotatedRect)) in *.
  set (h := height (size rotatedRect)) in *.
  set (cx := x (center rotatedRect)). set (cy := y (center rotatedRect)).
  clearbody w h cx cy.
  assert (Hah : a * h = 0 -> b * h = 0 -> False) by nra.
  assert (Haw : a * w = 0 -> b * w = 0 -> False) by nra.
  assert (Hd1 : a * h + b * w = 0 -> b * h - a * w = 0 -> False).
  { intros H1 H2.
    assert ((a * a + b * b) * h = 0) by nra. nra. }
  assert (Hd2 : a * h - b * w = 0 -> b * h + a * w = 0 -> False).
  { intros H1 H2.
    assert ((a * a + b * b) * h = 0) by nra. nra. }
  repeat (apply NoDup_cons; split); try apply NoDup_nil_2;
    rewrite ?elem_of_cons, ?elem_of_nil;
    intros Hin; repeat destruct Hin as [Hin|Hin]; try done;
    injection Hin as Hx Hy.
  - apply Hah; lra.
  - apply Hd1; lra.
  - apply Haw; lra.
  - apply Haw; lra.
  - apply Hd2; lra.
  - apply Hah; lra.
Qed.

Section SizeGate.

Context (engine : ArraySort).
Context {Contour : Type}.
Context (minAreaRect : Contour -> RotatedRect).

(** [getMiniBoxes] returns: its points are the corners of the
    minimum-area rectangle in some order, and its [sside] is the shorter
    side of that rectangle. *)
Lemma getMiniBoxes_spec (contour : Contour) :
  exists q0 q1 q2 q3,
    getMiniBoxes engine minAreaRect contour
    = Some ([q0; q1; q2; q3],
            Rmin (height (size (minAreaRect contour)))
              (width (size (minAreaRect contour))))
    /\ [q0; q1; q2; q3] ≡ₚ boxPoints (minAreaRect contour).
Proof.
  unfold getMiniBoxes.
  match goal with
  | |- context [array_sort engine ?cmp ?l] =>
      pose proof (array_sort_perm engine _ cmp l) as Hperm;
      destruct (array_sort engine cmp l) as [|p0 [|p1 [|p2 [|p3 [|p4 rest]]]]]
  end;
    try (apply Permutation_length in Hperm; discriminate Hperm).
  destruct (Rlt_dec (snd p0) (snd p1)), (Rlt_dec (snd p2) (snd p3));
    eexists _, _, _, _; (split; [reflexivity|]);
    rewrite <- Hperm; solve_Permutation.
Qed.

(** C4, amended: when [MIN_BOX_SIZE] is positive, as its default 3 is,
    the size gate of [splitIntoLineImages] lets only rectangles with a
    short side of at least [MIN_BOX_SIZE] reach [unclip]; their four
    corners are distinct, so the perimeter by which [unclip] divides is
    positive and the offset distance is the finite number
    [area * unclipRatio / perimeter].  [unclip] has no check of its
    own. *)
Theorem unclip_gate_positive_perimeter (minSize maxSize unclipRatio : R)
    (contour : Contour) (points : list Point) :
  0 < minSize ->
  unclipInput engine minAreaRect minSize maxSize contour = Some points ->
  minSize <= Rmin (height (size (minAreaRect contour)))
               (width (size (minAreaRect contour)))
  /\ 0 < polygonPolygonLength points
  /\ unclipDistance points unclipRatio
     = Some (Rabs (polygonPolygonArea points) * unclipRatio
             / polygonPolygonLength points).
Proof.
  intros Hmin. unfold unclipInput.
  destruct (getMiniBoxes_spec contour) as (q0 & q1 & q2 & q3 & -> & Hperm).
  destruct (Rlt_dec _ minSize) as [|Hge]; [done|].
  destruct (Rlt_dec maxSize _); [done|].
  intros [= <-]. apply Rnot_lt_le in Hge.
  assert (Hlen : 0 < polygonPolygonLength [q0; q1; q2; q3]).
  { apply polygonPolygonLength_pos. rewrite Hperm. apply boxPoints_NoDup.
    - pose proof (Rmin_r (height (size (minAreaRect contour)))
                    (width (size (minAreaRect contour)))). lra.
    - pose proof (Rmin_l (height (size (minAreaRect contour)))
                    (width (size (minAreaRect contour)))). lra. }
  split; [done|]. split; [done|].
  unfold unclipDistance. destruct (Req_dec_T _ 0) as [Hz|_]; [lra | done].
Qed.

End SizeGate.

Lemma boxPoints_pixelRect : boxPoints pixelRect = replicate 4 (0, 0).
Proof.
  unfold boxPoints, pixelRect. simpl. repeat f_equal; ring.
Qed.

(** C4, as stated, fails.  [unclip] divides by the perimeter without
    looking at it, and the gate before it only compares the short side
    with [MIN_BOX_SIZE].  With [minBoxSize: 0] the rectangle of a
    one-pixel contour, whose sides are 0, passes the gate and reaches
    [unclip] with perimeter 0: the distance is not a number. *)
Lemma unclip_zero_perimeter_counterexample :
  unclipInput insertion_engine (fun _ : unit => pixelRect) 0 2000 tt
  = Some [(0, 0); (0, 0); (0, 0); (0, 0)]
  /\ polygonPolygonLength [(0, 0); (0, 0); (0, 0); (0, 0)] = 0
  /\ unclipDistance [(0, 0); (0, 0); (0, 0); (0, 0)] (3 / 2) = None.
Proof.
  destruct (getMiniBoxes_spec insertion_engine (fun _ : unit => pixelRect) tt)
    as (q0 & q1 & q2 & q3 & Hget & Hperm).
  rewrite boxPoints_pixelRect in Hperm. symmetry in Hperm.
  apply replicate_Permutation in Hperm. simpl in Hperm.
  injection Hperm as <- <- <- <-.
  assert (Hzero : polygonPolygonLength [(0, 0); (0, 0); (0, 0); (0, 0)] = 0).
  { rewrite polygonPolygonLength_four, !edgeLength_same. ring. }
  split; [|split; [exact Hzero|]].
  - unfold unclipInput. rewrite Hget. simpl.
    rewrite Rmin_left by lra.
    destruct (Rlt_dec 0 0); [lra|]. destruct (Rlt_dec 2000 0); [lra | done].
  - unfold unclipDistance. rewrite Hzero.
    destruct (Req_dec_T 0 0); [done | lra].
Qed.

Lemma unclip_gate_positive_perimeter_witness :
  exists points,
    unclipInput insertion_engine (fun _ : unit => squareRect) 3 2000 tt
    = Some points
    /\ 0 < polygonPolygonLength points.
Proof.
  destruct (getMiniBoxes_spec insertion_engine (fun _ : unit => squareRect) tt)
    as (q0 & q1 & q2 & q3 & Hget & _).
  assert (Hin : unclipInput insertion_engine (fun _ : unit => squareRect) 3 2000 tt
                = Some [q0; q1; q2; q3]).
  { unfold unclipInput. rewrite Hget. simpl. rewrite Rmin_left by lra.
    destruct (Rlt_dec 4 3); [lra|]. destruct (Rlt_dec 2000 4); [lra | done]. }
  exists [q0; q1; q2; q3]. split; [exact Hin|].
  apply (unclip_gate_positive_perimeter insertion_engine
           (fun _ : unit => squareRect) 3 2000 (3 / 2) tt [q0; q1; q2; q3]);
    [lra | exact Hin].
Defined.

End DetectionFacts.

(** ** More on the adjacency test *)

Module AdjacencyFacts.

Import Grouping GroupingNotions.
Import Lqa.

Lemma areOnSameLine_true (box1 box2 : Frame) (config : GroupingConfig) :
  areOnSameLine box1 box2 config = true <->
  js_ge (boxesOverlapVertically box1 box2) (MIN_OVERLAP_RATIO config)
  \/ Qabs (centerY box1 - centerY box2)
     < (height box1 + height box2) / 2 * MAX_VERTICAL_OFFSET_RATIO config.
Proof.
  unfold areOnSameLine, centerY.
  by rewrite orb_true_iff, js_geb_ge, Qltb_lt.
Qed.

(** [o / m >= q], by cases on the divisor. *)
Lemma js_ge_div (o m q : Q) :
  js_ge (js_div o m) q <-> (m == 0 /\ 0 < o) \/ (~ m == 0 /\ q <= o / m).
Proof.
  unfold js_div.
  destruct (Qeq_bool m 0) eqn:Hm.
  - apply Qeq_bool_iff in Hm.
    destruct (Qeq_bool o 0) eqn:Ho; [|destruct (Qltb 0 o) eqn:Hpos]; simpl.
    + apply Qeq_bool_iff in Ho. split; [done|].
      intros [[_ H]|[H _]]; [rewrite Ho in H; by apply Qlt_irrefl in H | done].
    + apply Qltb_lt in Hpos. tauto.
    + apply Qltb_ge in Hpos. split; [done|].
      intros [[_ H]|[H _]]; [by apply Qlt_not_le in H | done].
  - apply Qeq_bool_neq in Hm. simpl. tauto.
Qed.

Lemma boxesOverlapVertically_div (box1 box2 : Frame) :
  boxesOverlapVertically box1 box2
  = js_div (overlapOf box1 box2) (Qmin (height box1) (height box2)).
Proof. reflexivity. Qed.

Lemma overlapOf_comm (box1 box2 : Frame) :
  overlapOf box1 box2 == overlapOf box2 box1.
Proof.
  unfold overlapOf.
  rewrite (Q.min_comm (top box1 + height box1)), (Q.max_comm (top box1)).
  reflexivity.
Qed.

Lemma areOnSameLine_comm (box1 box2 : Frame) (config : GroupingConfig) :
  areOnSameLine box1 box2 config = areOnSameLine box2 box1 config.
Proof.
  apply eq_true_iff_eq. rewrite !areOnSameLine_true.
  rewrite !boxesOverlapVertically_div, !js_ge_div.
  rewrite (overlapOf_comm box1 box2), (Q.min_comm (height box1)).
  rewrite (Qabs_Qminus (centerY box1)).
  assert (Heq : (height box1 + height box2) / 2 * MAX_VERTICAL_OFFSET_RATIO config
                == (height box2 + height box1) / 2
                   * MAX_VERTICAL_OFFSET_RATIO config) by (field).
  by rewrite Heq.
Qed.

Lemma overlapOf_range (box1 box2 : Frame) :
  0 <= height box1 -> 0 <= height box2 ->
  0 <= overlapOf box1 box2 <= Qmin (height box1) (height box2).
Proof.
  intros H1 H2. unfold overlapOf. split; [apply Q.le_max_l|].
  apply Q.max_lub; [by apply Q.min_glb|].
  pose proof (Q.le_min_l (top box1 + height box1) (top box2 + height box2)).
  pose proof (Q.le_min_r (top box1 + height box1) (top box2 + height box2)).
  pose proof (Q.le_max_l (top box1) (top box2)).
  pose proof (Q.le_max_r (top box1) (top box2)).
  apply Q.min_glb; lra.
Qed.

(** X1: for frames with heights that are not negative, the
    vertical-overlap ratio is NaN when one of the heights is zero (so
    that such a frame is never on a line with another by overlap), and
    otherwise a number between 0 and 1. *)
Theorem boxesOverlapVertically_range (box1 box2 : Frame) :
  0 <= height box1 -> 0 <= height box2 ->
  (Qmin (height box1) (height box2) == 0
   /\ boxesOverlapVertically box1 box2 = NaN)
  \/ (0 < Qmin (height box1) (height box2)
      /\ exists r, boxesOverlapVertically box1 box2 = Fin r /\ 0 <= r <= 1).
Proof.
  intros H1 H2. pose proof (overlapOf_range box1 box2 H1 H2) as [Hlo Hhi].
  rewrite boxesOverlapVertically_div. unfold js_div.
  set (m := Qmin (height box1) (height box2)) in *.
  assert (Hm : 0 <= m) by (by apply Q.min_glb).
  destruct (Qeq_bool m 0) eqn:Em.
  - apply Qeq_bool_iff in Em. left. split; [done|].
    replace (Qeq_bool (overlapOf box1 box2) 0) with true; [done|].
    symmetry. apply Qeq_bool_iff. rewrite Em in Hhi. by apply Qle_antisym.
  - apply Qeq_bool_neq in Em. right.
    assert (Hpos : 0 < m).
    { apply Qle_lteq in Hm as [Hm|Hm]; [done|]. exfalso. apply Em. by symmetry. }
    split; [done|]. eexists. split; [reflexivity|]. split.
    + apply Qle_shift_div_l; [done|]. by rewrite Qmult_0_l.
    + apply Qle_shift_div_r; [done|]. by rewrite Qmult_1_l.
Qed.

Lemma boxesOverlapVertically_range_witness :
  exists r,
    boxesOverlapVertically (mkFrame 0 0 50 20) (mkFrame 60 2 50 20) = Fin r
    /\ 0 <= r <= 1.
Proof.
  destruct (boxesOverlapVertically_range (mkFrame 0 0 50 20) (mkFrame 60 2 50 20))
    as [[H _]|[_ H]].
  - by vm_compute.
  - by vm_compute.
  - by vm_compute in H.
  - exact H.
Defined.

(** X2: the adjacency test is directional.  No frame is adjacent to
    itself, and if [b] is adjacent to [a] then [a] is not adjacent to
    [b], for every average height and configuration. *)
Theorem shouldGroup_directional (box1 box2 : Frame) (avgHeight : Q)
    (config : GroupingConfig) :
  shouldGroup box1 box1 avgHeight config = false
  /\ (shouldGroup box1 box2 avgHeight config = true ->
      shouldGroup box2 box1 avgHeight config = false).
Proof.
  assert (Hirr : forall x, Qltb x x = false).
  { intros x. apply Qltb_ge, Qle_refl. }
  split.
  - unfold shouldGroup. rewrite !Hirr. by destruct (areOnSameLine _ _ _).
  - unfold shouldGroup. rewrite (areOnSameLine_comm box2 box1).
    destruct (areOnSameLine box1 box2 config).
    + intros [Hl _]%andb_true_iff. apply Qltb_lt in Hl.
      replace (Qltb (left box2) (left box1)) with false; [done|].
      symmetry. by apply Qltb_ge, Qlt_le_weak.
    + intros [[Ht _]%andb_true_iff _]%andb_true_iff. apply Qltb_lt in Ht.
      replace (Qltb (top box2) (top box1)) with false; [done|].
      symmetry. by apply Qltb_ge, Qlt_le_weak.
Qed.

Lemma shouldGroup_directional_witness :
  shouldGroup (mkFrame 30 0 20 20) (mkFrame 0 0 20 20) 20 DEFAULT_GROUPING
  = false.
Proof.
  apply (shouldGroup_directional (mkFrame 0 0 20 20) (mkFrame 30 0 20 20) 20
           DEFAULT_GROUPING).
  by vm_compute.
Defined.

End AdjacencyFacts.

(** ** What the groups are: closure under adjacency *)

Module GroupClosureFacts.

Import Grouping GroupingNotions GroupingFacts.

Section IndexGroups.

Context (engine : ArraySort).
Context (config : GroupingConfig).
Context (avgHeight : Q).
Context (sorted : list TextElement).

Local Open Scope nat_scope.

Local Abbreviation n := (length sorted).
Local Abbreviation scan := (scanUnused config avgHeight sorted).
Local Abbreviation grow := (growGroup config avgHeight sorted).
Local Abbreviation loop := (groupLoop engine config avgHeight sorted).
Local Abbreviation adjacent := (adjacentAt config avgHeight sorted).
Local Abbreviation laterApart := (laterApart config avgHeight sorted).
Local Abbreviation pulledIn := (pulledIn config avgHeight sorted).

Lemma adjacentToGroup_true group j :
  adjacentToGroup config avgHeight sorted group j = true ->
  exists a, a ∈ group /\ adjacent a j = true.
Proof.
  intros (a & Ha & Hs)%existsb_exists. exists a.
  split; [by apply list_elem_of_In | done].
Qed.

Lemma adjacentToGroup_false group j a :
  adjacentToGroup config avgHeight sorted group j = false ->
  a ∈ group -> adjacent a j = false.
Proof.
  intros Hf Ha. apply not_true_is_false. intros Hs.
  apply not_true_iff_false in Hf. apply Hf, existsb_exists.
  exists a. split; [by apply list_elem_of_In | done].
Qed.

Lemma scanUnused_adjacent js group used j :
  scan js group used = Some j ->
  adjacentToGroup config avgHeight sorted group j = true.
Proof.
  induction js as [|k js IH]; simpl; [done|].
  destruct (decide (k ∈ used)); [done|].
  destruct (adjacentToGroup config avgHeight sorted group k) eqn:Hk; [|done].
  by intros [= <-].
Qed.

Lemma scanUnused_None js group used j :
  scan js group used = None -> j ∈ js -> j ∉ used ->
  adjacentToGroup config avgHeight sorted group j = false.
Proof.
  induction js as [|k js IH]; simpl; [by intros _ ?%elem_of_nil|].
  destruct (decide (k ∈ used)) as [Hk|Hk].
  - intros Hs [->|Hj]%elem_of_cons Hu; [done | by apply IH].
  - destruct (adjacentToGroup config avgHeight sorted group k) eqn:Hadj; [done|].
    intros Hs [->|Hj]%elem_of_cons Hu; [done | by apply IH].
Qed.

(** When the [while] loop ends, no unused element is adjacent to a member
    of the group, and every member that was added is adjacent to another
    member. *)
Lemma growGroup_fixpoint fuel group used group' used' :
  grow fuel group used = Some (group', used') ->
  (forall g, g ∈ group -> g ∈ group')
  /\ (forall j g, j < n -> j ∉ used' -> g ∈ group' -> adjacent g j = false)
  /\ (forall b, b ∈ group' ->
        b ∈ group \/ exists a, a ∈ group' /\ adjacent a b = true).
Proof.
  revert group used. induction fuel as [|fuel IH]; intros group used; [done|].
  simpl. destruct (scan (seq 0 n) group used) as [j|] eqn:Hs.
  - intros Hg. destruct (IH _ _ Hg) as (Hsub & Hfix & Hcon).
    assert (Hsub' : forall g, g ∈ group -> g ∈ group').
    { intros g Hin. apply Hsub, elem_of_app. by left. }
    split; [done|]. split; [done|].
    intros b Hb.
    destruct (Hcon b Hb)
      as [[Hin|Hin%list_elem_of_singleton]%elem_of_app|Hex];
      [by left | | by right].
    subst b. right.
    destruct (adjacentToGroup_true group j (scanUnused_adjacent _ _ _ _ Hs))
      as (a & Ha & Hadj).
    exists a. split; [by apply Hsub' | done].
  - intros [= <- <-]. split; [done|]. split; [|by left].
    intros j g Hj Hu Hg.
    apply (adjacentToGroup_false group j g); [|done].
    apply (scanUnused_None _ _ _ _ Hs); [|done]. apply elem_of_seq. lia.
Qed.

Lemma groupLoop_indexGroups idxs used groups :
  Forall (fun i => i < n) idxs ->
  exists igs,
    loop idxs used groups = Some (groups ++ map (elementsAt sorted) igs)
    /\ Forall (Forall (fun j => j < n /\ j ∉ used)) igs
    /\ laterApart igs
    /\ Forall pulledIn igs.
Proof.
  intros Hlt. revert used groups.
  induction Hlt as [|i idxs Hi _ IH]; intros used groups.
  { exists []. by rewrite app_nil_r. }
  cbn [groupLoop]. destruct (decide (i ∈ used)) as [Hin|Hin]; [apply IH|].
  destruct (growGroup_spec config avgHeight sorted (S n) [i] ({[i]} ∪ used))
    as (new & Hgrow & Hnd & Hnew); [apply unused_bound|].
  rewrite Hgrow.
  destruct (growGroup_fixpoint _ _ _ _ _ Hgrow) as (_ & Hfix & Hcon).
  set (ig := array_sort engine (compareIndices avgHeight sorted) ([i] ++ new)).
  assert (Hperm : ig ≡ₚ i :: new) by apply array_sort_perm.
  destruct (IH (list_to_set new ∪ ({[i]} ∪ used))
              (groups ++ [elementsAt sorted ig]))
    as (igs & -> & Hmem & Hapart & Hpulled).
  exists (ig :: igs). split; [by rewrite <- app_assoc|]. split; [|split].
  - constructor.
    + rewrite Hperm. constructor; [done|].
      eapply Forall_impl; [exact Hnew|]. simpl. intros j [? ?].
      split; [done | set_solver].
    + eapply Forall_impl; [exact Hmem|]. simpl. intros ig' Hig'.
      eapply Forall_impl; [exact Hig'|]. simpl. intros j [? ?].
      split; [done | set_solver].
  - split; [|done]. intros a ig' b Ha Hig' Hb.
    rewrite Forall_forall in Hmem. specialize (Hmem ig' Hig').
    rewrite Forall_forall in Hmem. destruct (Hmem b Hb) as [Hbn Hbu].
    apply Hfix; [done | done|]. by rewrite <- Hperm.
  - constructor; [|done]. exists i, new. split; [done|].
    intros b Hb.
    destruct (Hcon b) as [Hbi%list_elem_of_singleton|(a & Ha & Hadj)].
    + apply elem_of_app. by right.
    + subst b. rewrite Forall_forall in Hnew. destruct (Hnew i Hb) as [_ Hni].
      set_solver.
    + exists a. split; [by rewrite Hperm | done].
Qed.

End IndexGroups.

Local Open Scope nat_scope.

Lemma laterApart_lookup config avgHeight sorted igs p q ig ig' a b :
  laterApart config avgHeight sorted igs ->
  p < q -> igs !! p = Some ig -> igs !! q = Some ig' ->
  a ∈ ig -> b ∈ ig' ->
  adjacentAt config avgHeight sorted a b = false.
Proof.
  revert p q. induction igs as [|g igs IH]; intros p q Hap Hpq Hp Hq Ha Hb.
  { by rewrite lookup_nil in Hp. }
  destruct Hap as [Hhead Htail].
  destruct q as [|q]; [lia|]. simpl in Hq.
  destruct p as [|p]; simpl in Hp.
  - injection Hp as ->. apply (Hhead a ig' b); [done| |done].
    by eapply list_elem_of_lookup_2.
  - apply (IH p q); [done | lia | done..].
Qed.

Lemma elem_of_elementsAt (sorted : list TextElement) ig e :
  e ∈ elementsAt sorted ig <-> exists i, i ∈ ig /\ sorted !! i = Some e.
Proof. unfold elementsAt. apply list_elem_of_omap. Qed.

Lemma frameAt_lookup (sorted : list TextElement) i e :
  sorted !! i = Some e -> frameAt sorted i = frame e.
Proof. intros H. unfold frameAt. by rewrite H. Qed.

(** The groups of a non-empty input, by indices into the sorted list. *)
Lemma groupTextElements_indexGroups (engine : ArraySort)
    (e : TextElement) (elements : list TextElement) (config : GroupingConfig) :
  let avgHeight := averageHeight (e :: elements) in
  let sorted := array_sort engine (compareElements avgHeight) (e :: elements) in
  exists igs,
    groupTextElements engine (e :: elements) config
    = Some (map (elementsAt sorted) igs)
    /\ Forall (Forall (fun j => j < length sorted)) igs
    /\ laterApart config avgHeight sorted igs
    /\ Forall (pulledIn config avgHeight sorted) igs.
Proof.
  intros avgHeight sorted.
  destruct (groupLoop_indexGroups engine config avgHeight sorted
              (seq 0 (length sorted)) ∅ [])
    as (igs & Heq & Hmem & Hapart & Hpulled).
  { apply Forall_forall. intros i Hi%elem_of_seq. lia. }
  exists igs. split; [exact Heq|]. split; [|done].
  eapply Forall_impl; [exact Hmem|]. simpl. intros ig Hig.
  eapply Forall_impl; [exact Hig|]. simpl. tauto.
Qed.

(** X3: the groups are closed under adjacency.  [groupTextElements]
    returns, and in the list it returns no element of a group is adjacent
    to an element of a later group: when a group is complete it has
    absorbed every element, not yet grouped, that is adjacent to one of
    its members. *)
Theorem groups_closed_under_adjacency (engine : ArraySort)
    (elements : list TextElement) (config : GroupingConfig) :
  exists groups,
    groupTextElements engine elements config = Some groups
    /\ forall p q G G' a b,
         p < q -> groups !! p = Some G -> groups !! q = Some G' ->
         a ∈ G -> b ∈ G' ->
         shouldGroup (frame a) (frame b) (averageHeight elements) config
         = false.
Proof.
  destruct elements as [|e elements].
  { exists []. split; [done|]. intros p q G G' a b _ Hp.
    by rewrite lookup_nil in Hp. }
  destruct (groupTextElements_indexGroups engine e elements config)
    as (igs & -> & Hmem & Hapart & _).
  eexists. split; [reflexivity|].
  intros p q G G' a b Hpq Hp Hq Ha Hb.
  change (map ?f ?l) with (f <$> l) in Hp, Hq.
  rewrite list_lookup_fmap in Hp, Hq.
  destruct (igs !! p) as [ig|] eqn:Hip; [|done].
  destruct (igs !! q) as [ig'|] eqn:Hiq; [|done].
  simpl in Hp, Hq. injection Hp as <-. injection Hq as <-.
  apply elem_of_elementsAt in Ha as (i & Hi & Hia).
  apply elem_of_elementsAt in Hb as (j & Hj & Hjb).
  rewrite <- (frameAt_lookup _ _ _ Hia), <- (frameAt_lookup _ _ _ Hjb).
  exact (laterApart_lookup _ _ _ _ _ _ _ _ _ _ Hapart Hpq Hip Hiq Hi Hj).
Qed.

(** X4: nothing joins a group without adjacency.  In every group that
    [groupTextElements] returns, every element but one (the element the
    group was started from) is adjacent to another element of the same
    group. *)
Theorem groups_joined_by_adjacency (engine : ArraySort)
    (elements : list TextElement) (config : GroupingConfig) :
  exists groups,
    groupTextElements engine elements config = Some groups
    /\ forall G, G ∈ groups ->
         exists seed rest,
           G ≡ₚ seed :: rest
           /\ forall b, b ∈ rest ->
                exists a,
                  a ∈ G
                  /\ shouldGroup (frame a) (frame b) (averageHeight elements)
                       config
                     = true.
Proof.
  destruct elements as [|e elements].
  { exists []. split; [done|]. by intros G ?%elem_of_nil. }
  destruct (groupTextElements_indexGroups engine e elements config)
    as (igs & -> & Hmem & _ & Hpulled).
  eexists. split; [reflexivity|].
  set (avgHeight := averageHeight (e :: elements)) in *.
  set (sorted := array_sort engine (compareElements avgHeight) (e :: elements))
    in *.
  intros G HG. apply list_elem_of_In, in_map_iff in HG as (ig & <- & Hig).
  apply list_elem_of_In in Hig.
  rewrite Forall_forall in Hmem, Hpulled.
  specialize (Hmem ig Hig). rewrite Forall_forall in Hmem.
  destruct (Hpulled ig Hig) as (seed & rest & Hperm & Hrest).
  assert (Hseed : seed < length sorted).
  { apply Hmem. rewrite Hperm. by left. }
  destruct (lookup_lt_is_Some_2 sorted seed Hseed) as [s Hs].
  exists s, (elementsAt sorted rest). split.
  - rewrite <- (elementsAt_cons sorted seed s rest Hs). unfold elementsAt.
    by apply omap_Permutation.
  - intros b (j & Hj & Hjb)%elem_of_elementsAt.
    destruct (Hrest j Hj) as (i & Hi & Hadj).
    destruct (lookup_lt_is_Some_2 sorted i (Hmem i Hi)) as [a Ha].
    exists a. split.
    + apply elem_of_elementsAt. by exists i.
    + unfold adjacentAt in Hadj.
      by rewrite (frameAt_lookup _ _ _ Ha), (frameAt_lookup _ _ _ Hjb) in Hadj.
Qed.

(** X5: elements of which no two are adjacent stay on their own: each
    forms a group of one element, and the groups come in the order of the
    reading-order sort. *)
Theorem apart_elements_stay_single (engine : ArraySort)
    (elements : list TextElement) (config : GroupingConfig) :
  (forall a b, a ∈ elements -> b ∈ elements ->
     shouldGroup (frame a) (frame b) (averageHeight elements) config = false) ->
  groupTextElements engine elements config
  = Some (map (fun e => [e])
            (array_sort engine (compareElements (averageHeight elements))
               elements)).
Proof.
  intros Hapart. destruct elements as [|e elements].
  { by rewrite array_sort_nil. }
  unfold groupTextElements.
  set (avgHeight := averageHeight (e :: elements)) in *.
  pose proof (array_sort_perm engine _ (compareElements avgHeight)
                (e :: elements)) as Hperm.
  set (sorted := array_sort engine (compareElements avgHeight) (e :: elements))
    in *.
  rewrite (groupLoop_noAdjacency engine config avgHeight sorted
             (length sorted) 0 ∅ []); [done| |done|set_solver].
  intros i j Hi Hj.
  destruct (lookup_lt_is_Some_2 sorted i Hi) as [a Ha].
  destruct (lookup_lt_is_Some_2 sorted j Hj) as [b Hb].
  rewrite (frameAt_lookup _ _ _ Ha), (frameAt_lookup _ _ _ Hb).
  apply Hapart; rewrite <- Hperm; by eapply list_elem_of_lookup_2.
Qed.

Lemma apart_elements_stay_single_witness :
  groupTextElements insertion_engine
    [element (mkFrame 0 100 40 20); element (mkFrame 0 0 40 20)]
    DEFAULT_GROUPING
  = Some [[element (mkFrame 0 0 40 20)]; [element (mkFrame 0 100 40 20)]].
Proof.
  rewrite (apart_elements_stay_single insertion_engine
             [element (mkFrame 0 100 40 20); element (mkFrame 0 0 40 20)]
             DEFAULT_GROUPING).
  - by vm_compute.
  - intros a b Ha Hb.
    apply list_elem_of_In in Ha, Hb. simpl in Ha, Hb.
    destruct Ha as [<-|[<-|[]]]; destruct Hb as [<-|[<-|[]]]; by vm_compute.
Defined.

End GroupClosureFacts.

(** ** Paragraphs *)

Module ParagraphFacts.

Import Paragraphs Grouping.
Import Lqa.

Lemma Qmin_cases (x y : Q) : (Qmin x y = x /\ x <= y) \/ (Qmin x y = y /\ y <= x).
Proof.
  unfold Qmin, GenericMinMax.gmin.
  destruct (x ?= y) eqn:E.
  - left. split; [done|]. apply Qeq_alt in E. rewrite E. apply Qle_refl.
  - left. split; [done|]. apply Qlt_alt in E. by apply Qlt_le_weak.
  - right. split; [done|]. apply Qgt_alt in E. by apply Qlt_le_weak.
Qed.

Lemma Qmax_cases (x y : Q) : (Qmax x y = y /\ x <= y) \/ (Qmax x y = x /\ y <= x).
Proof.
  unfold Qmax, GenericMinMax.gmax.
  destruct (x ?= y) eqn:E.
  - right. split; [done|]. apply Qeq_alt in E. rewrite E. apply Qle_refl.
  - left. split; [done|]. apply Qlt_alt in E. by apply Qlt_le_weak.
  - right. split; [done|]. apply Qgt_alt in E. by apply Qlt_le_weak.
Qed.

(** The least of a non-empty array is one of its entries and is below
    all of them. *)
Lemma fold_Qmin_spec (xs : list Q) (x : Q) :
  fold_left Qmin xs x ∈ x :: xs
  /\ forall y, y ∈ x :: xs -> fold_left Qmin xs x <= y.
Proof.
  revert x. induction xs as [|z xs IH]; intros x; simpl.
  { split; [by left|]. intros y ->%list_elem_of_singleton. apply Qle_refl. }
  destruct (IH (Qmin x z)) as [Hin Hle]. split.
  - apply elem_of_cons in Hin as [Hin|Hin]; [|by do 2 right].
    rewrite Hin. destruct (Qmin_cases x z) as [[-> _]|[-> _]];
      [by left | right; by left].
  - intros y Hy.
    assert (Hm : fold_left Qmin xs (Qmin x z) <= Qmin x z) by (apply Hle; by left).
    set (f := fold_left Qmin xs (Qmin x z)) in *.
    apply elem_of_cons in Hy as [->|[->|Hy]%elem_of_cons].
    + destruct (Qmin_cases x z) as [[E ?]|[E ?]]; rewrite E in Hm; lra.
    + destruct (Qmin_cases x z) as [[E ?]|[E ?]]; rewrite E in Hm; lra.
    + apply Hle. by right.
Qed.

Lemma fold_Qmax_spec (xs : list Q) (x : Q) :
  fold_left Qmax xs x ∈ x :: xs
  /\ forall y, y ∈ x :: xs -> y <= fold_left Qmax xs x.
Proof.
  revert x. induction xs as [|z xs IH]; intros x; simpl.
  { split; [by left|]. intros y ->%list_elem_of_singleton. apply Qle_refl. }
  destruct (IH (Qmax x z)) as [Hin Hle]. split.
  - apply elem_of_cons in Hin as [Hin|Hin]; [|by do 2 right].
    rewrite Hin. destruct (Qmax_cases x z) as [[-> _]|[-> _]];
      [right; by left | by left].
  - intros y Hy.
    assert (Hm : Qmax x z <= fold_left Qmax xs (Qmax x z)) by (apply Hle; by left).
    set (f := fold_left Qmax xs (Qmax x z)) in *.
    apply elem_of_cons in Hy as [->|[->|Hy]%elem_of_cons].
    + destruct (Qmax_cases x z) as [[E ?]|[E ?]]; rewrite E in Hm; lra.
    + destruct (Qmax_cases x z) as [[E ?]|[E ?]]; rewrite E in Hm; lra.
    + apply Hle. by right.
Qed.

(** The least and the greatest of the end points [f el] and
    [f el + g el] of the members of a non-empty group. *)
Lemma envelope (f g : TextElement -> Q) (e : TextElement)
    (rest : list TextElement) :
  let ends := flat_map (fun el => [f el; f el + g el]) (e :: rest) in
  exists mn mx,
    Math_min ends = Fin mn /\ Math_max ends = Fin mx
    /\ (forall el, el ∈ e :: rest ->
          mn <= f el <= mx /\ mn <= f el + g el <= mx)
    /\ (exists el, el ∈ e :: rest /\ (mn = f el \/ mn = f el + g el))
    /\ (exists el, el ∈ e :: rest /\ (mx = f el \/ mx = f el + g el)).
Proof.
  intros ends.
  assert (Hends : forall y, y ∈ ends <->
                    exists el, el ∈ e :: rest /\ (y = f el \/ y = f el + g el)).
  { intros y. unfold ends. rewrite list_elem_of_In, in_flat_map. split.
    - intros (el & Hel & Hy). exists el. split; [by apply list_elem_of_In|].
      simpl in Hy. destruct Hy as [<-|[<-|[]]]; tauto.
    - intros (el & Hel & Hy). exists el. split; [by apply list_elem_of_In|].
      simpl. destruct Hy as [->| ->]; tauto. }
  set (tl := (f e + g e) :: flat_map (fun el => [f el; f el + g el]) rest).
  change ends with (f e :: tl) in *.
  destruct (fold_Qmin_spec tl (f e)) as [Hmin_in Hmin_le].
  destruct (fold_Qmax_spec tl (f e)) as [Hmax_in Hmax_le].
  exists (fold_left Qmin tl (f e)), (fold_left Qmax tl (f e)).
  split; [done|]. split; [done|]. split; [|split].
  - intros el Hel.
    assert (H1 : f el ∈ f e :: tl) by (apply Hends; eauto).
    assert (H2 : f el + g el ∈ f e :: tl) by (apply Hends; eauto).
    auto.
  - by apply Hends.
  - by apply Hends.
Qed.

(** X6: the bounding box of a paragraph is the envelope of its members.
    For a non-empty group its four fields are finite numbers, its width
    and height are not negative, both horizontal end points [left] and
    [left + width] of every member lie between [left] and [left + width]
    of the box (and likewise vertically), and each side of the box is an
    end point of some member. *)
Theorem createParagraph_boundingBox (e : TextElement) (rest : list TextElement) :
  exists l t w h,
    boundingBox (createParagraph (e :: rest))
    = {| box_left := Fin l; box_top := Fin t;
         box_width := Fin w; box_height := Fin h |}
    /\ 0 <= w /\ 0 <= h
    /\ (forall el, el ∈ e :: rest ->
          l <= left (frame el) <= l + w
          /\ l <= left (frame el) + width (frame el) <= l + w
          /\ t <= top (frame el) <= t + h
          /\ t <= top (frame el) + height (frame el) <= t + h)
    /\ (exists el, el ∈ e :: rest
          /\ (l = left (frame el) \/ l = left (frame el) + width (frame el)))
    /\ (exists el, el ∈ e :: rest
          /\ (l + w == left (frame el)
              \/ l + w == left (frame el) + width (frame el)))
    /\ (exists el, el ∈ e :: rest
          /\ (t = top (frame el) \/ t = top (frame el) + height (frame el)))
    /\ (exists el, el ∈ e :: rest
          /\ (t + h == top (frame el)
              \/ t + h == top (frame el) + height (frame el))).
Proof.
  destruct (envelope (fun el => left (frame el)) (fun el => width (frame el))
              e rest) as (l & r & Hl & Hr & Hx & Hlx & Hrx).
  destruct (envelope (fun el => top (frame el)) (fun el => height (frame el))
              e rest) as (t & b & Ht & Hb & Hy & Hty & Hby).
  exists l, t, (r - l), (b - t).
  assert (Hlr : l <= r).
  { destruct (Hx e) as [[? ?] _]; [by left | lra]. }
  assert (Htb : t <= b).
  { destruct (Hy e) as [[? ?] _]; [by left | lra]. }
  split.
  { unfold createParagraph. cbv zeta. cbn [boundingBox].
    cbv beta zeta in Hl, Hr, Ht, Hb. by rewrite Hl, Hr, Ht, Hb. }
  split; [lra|]. split; [lra|]. split; [|split; [|split; [|split]]].
  - intros el Hel. destruct (Hx el Hel) as [[? ?] [? ?]].
    destruct (Hy el Hel) as [[? ?] [? ?]]. repeat split; lra.
  - exact Hlx.
  - destruct Hrx as (el & Hel & [E|E]); exists el; (split; [done|]);
      [left | right]; rewrite <- E; ring.
  - exact Hty.
  - destruct Hby as (el & Hel & [E|E]); exists el; (split; [done|]);
      [left | right]; rewrite <- E; ring.
Qed.

(** The mean of numbers between two bounds lies between them. *)
Lemma Qsum_bounds (qs : list Q) (lo hi : Q) :
  Forall (fun q => lo <= q <= hi) qs ->
  inject_Z (Z.of_nat (length qs)) * lo <= Recognition.Qsum qs
  /\ Recognition.Qsum qs <= inject_Z (Z.of_nat (length qs)) * hi.
Proof.
  induction 1 as [|q qs [Hlo Hhi] _ [IHlo IHhi]].
  { simpl. split; rewrite Qmult_0_l; apply Qle_refl. }
  cbn [length]. rewrite Nat2Z.inj_succ. unfold Z.succ.
  rewrite inject_Z_plus. change (inject_Z 1) with 1.
  unfold Recognition.Qsum in *. cbn [foldr].
  set (k := inject_Z (Z.of_nat (length qs))) in *.
  set (s := foldr Qplus 0 qs) in *.
  split; nra.
Qed.

Lemma mean_bounds (q : Q) (qs : list Q) (lo hi : Q) :
  Forall (fun q => lo <= q <= hi) (q :: qs) ->
  lo <= Recognition.Qsum (q :: qs) / inject_Z (Z.of_nat (length (q :: qs)))
  <= hi.
Proof.
  intros Hall. destruct (Qsum_bounds _ _ _ Hall) as [Hlo Hhi].
  assert (Hpos : 0 < inject_Z (Z.of_nat (length (q :: qs)))).
  { rewrite <- (Zlt_Qlt 0). simpl. lia. }
  split.
  - apply Qle_shift_div_l; [done|]. by rewrite Qmult_comm.
  - apply Qle_shift_div_r; [done|]. by rewrite Qmult_comm.
Qed.

Lemma fold_confidence (group : list TextElement) (cs : list Q) (a : Q) :
  map confidence group = map Fin cs ->
  fold_left (fun sum el => js_add sum (confidence el)) group (Fin a)
  = Fin (fold_left Qplus cs a).
Proof.
  revert cs a. induction group as [|el group IH]; intros [|c cs] a Hc;
    try done.
  injection Hc as Hc Hcs. simpl. rewrite Hc. simpl. by apply IH.
Qed.

(** The rounded sum of [k] numbers between 0 and 1 lies between 0 and
    [k], whatever the rounding, when it is monotone and leaves the whole
    numbers up to [k] as they are. *)
Lemma roundedSum_bounds (fl : Q -> Q) (n : nat) :
  (forall x y, x <= y -> fl x <= fl y) ->
  (forall k : nat, (k <= n)%nat ->
     fl (inject_Z (Z.of_nat k)) == inject_Z (Z.of_nat k)) ->
  forall (cs : list Q) (j : nat) (s : Q),
    Forall (fun q => 0 <= q <= 1) cs ->
    0 <= s <= inject_Z (Z.of_nat j) ->
    (j + length cs <= n)%nat ->
    0 <= fold_left (fun sum c => fl (sum + c)) cs s
    <= inject_Z (Z.of_nat (j + length cs)).
Proof.
  intros Hmono Hwhole. induction cs as [|c cs IH]; intros j s Hall Hs Hn.
  { cbn [fold_left length]. by rewrite Nat.add_0_r. }
  apply Forall_cons in Hall as [Hc Hall]. cbn [fold_left length] in *.
  replace (j + S (length cs))%nat with (S j + length cs)%nat by lia.
  apply IH; [done| |lia].
  assert (H0 : fl 0 == 0) by (apply (Hwhole 0%nat); lia).
  assert (H1 : fl (inject_Z (Z.of_nat (S j))) == inject_Z (Z.of_nat (S j))).
  { apply Hwhole. lia. }
  assert (HS : inject_Z (Z.of_nat (S j)) == inject_Z (Z.of_nat j) + 1).
  { rewrite Nat2Z.inj_succ. unfold Z.succ. by rewrite inject_Z_plus. }
  split.
  - rewrite <- H0. apply Hmono. lra.
  - rewrite <- H1. apply Hmono. lra.
Qed.

(** X7: when the confidences of the members of a paragraph are finite
    numbers between 0 and 1, the confidence of the paragraph is a finite
    number between 0 and 1; this holds of the exact mean, and of the mean
    whose sums and quotient are rounded, for every rounding that is
    monotone and leaves the whole numbers up to the number of members as
    they are. *)
Theorem createParagraph_confidence (e : TextElement) (rest : list TextElement)
    (c : Q) (cs : list Q) :
  map confidence (e :: rest) = map Fin (c :: cs) ->
  Forall (fun q => 0 <= q <= 1) (c :: cs) ->
  (exists m,
     Paragraphs.confidence (createParagraph (e :: rest)) = Fin m
     /\ 0 <= m <= 1)
  /\ forall fl : Q -> Q,
       (forall x y, x <= y -> fl x <= fl y) ->
       (forall k : nat, (k <= length (c :: cs))%nat ->
          fl (inject_Z (Z.of_nat k)) == inject_Z (Z.of_nat k)) ->
       exists m, roundedMean fl (c :: cs) = Fin m /\ 0 <= m <= 1.
Proof.
  intros Hc Hall.
  assert (Hlen : length (e :: rest) = length (c :: cs)).
  { by rewrite <- (length_map confidence), Hc, length_map. }
  assert (Hpos : 0 < inject_Z (Z.of_nat (length (c :: cs)))).
  { rewrite <- (Zlt_Qlt 0). simpl. lia. }
  split.
  - unfold createParagraph. cbv zeta. cbn [Paragraphs.confidence].
    rewrite (fold_confidence _ _ _ Hc).
    change (length (e :: rest)) with (S (length rest)).
    rewrite RecognitionFacts.js_div_len_finite.
    eexists. split; [reflexivity|].
    assert (Hm : fold_left Qplus (c :: cs) 0
                 / inject_Z (Z.of_nat (S (length rest)))
                 == Recognition.Qsum (c :: cs)
                    / inject_Z (Z.of_nat (length (e :: rest)))).
    { by rewrite RecognitionFacts.fold_left_Qplus, Qplus_0_l. }
    rewrite Hm, Hlen. by apply mean_bounds.
  - intros fl Hmono Hwhole.
    unfold roundedMean. eexists. split; [reflexivity|].
    destruct (roundedSum_bounds fl (length (c :: cs)) Hmono Hwhole
                (c :: cs) 0%nat 0 Hall) as [Hlo Hhi];
      [split; apply Qle_refl | simpl; lia |].
    rewrite Nat.add_0_l in Hhi.
    set (s := fold_left (fun sum c0 => fl (sum + c0)) (c :: cs) 0) in *.
    set (k := inject_Z (Z.of_nat (length (c :: cs)))) in *.
    assert (H0 : fl 0 == 0) by (apply (Hwhole 0%nat); lia).
    assert (H1 : fl 1 == 1) by (apply (Hwhole 1%nat); simpl; lia).
    split.
    + rewrite <- H0. apply Hmono. apply Qle_shift_div_l; [done|].
      by rewrite Qmult_0_l.
    + rewrite <- H1. apply Hmono. apply Qle_shift_div_r; [done|].
      by rewrite Qmult_1_l.
Qed.

Lemma createParagraph_confidence_witness :
  (exists m,
     Paragraphs.confidence
       (createParagraph
          [element (mkFrame 0 0 40 20); element (mkFrame 50 0 40 20)])
     = Fin m
     /\ 0 <= m <= 1)
  /\ exists m,
       roundedMean (fun x => x) [9 # 10; 9 # 10] = Fin m /\ 0 <= m <= 1.
Proof.
  destruct (createParagraph_confidence (element (mkFrame 0 0 40 20))
              [element (mkFrame 50 0 40 20)] (9 # 10) [9 # 10])
    as [Hexact Hrounded].
  - reflexivity.
  - repeat constructor; by vm_compute.
  - split; [exact Hexact|].
    apply (Hrounded (fun x => x)); [by intros x y Hxy|].
    intros k _. apply Qeq_refl.
Defined.

(** X8: a paragraph made of a single element, whose frame has a width and
    a height that are not negative, has that element's text, its
    confidence, and its frame as bounding box. *)
Theorem createParagraph_single (e : TextElement) (c : Q) :
  confidence e = Fin c ->
  0 <= width (frame e) -> 0 <= height (frame e) ->
  exists m w h,
    createParagraph [e]
    = {| Paragraphs.text := text e;
         Paragraphs.confidence := Fin m;
         boundingBox :=
           {| box_left := Fin (left (frame e)); box_top := Fin (top (frame e));
              box_width := Fin w; box_height := Fin h |};
         elements := [paragraphElement e] |}
    /\ m == c /\ w == width (frame e) /\ h == height (frame e).
Proof.
  intros Hc Hw Hh. unfold createParagraph. cbv zeta. simpl. rewrite Hc. simpl.
  assert (Hspan : forall x d, 0 <= d ->
            Qmin x (x + d) = x /\ Qmax x (x + d) - x == d).
  { intros x d Hd. split.
    - destruct (Qmin_cases x (x + d)) as [[E _]|[E Hle]]; [done|].
      unfold Qmin, GenericMinMax.gmin in *.
      destruct (x ?= x + d) eqn:Ecmp; try done.
      apply Qgt_alt in Ecmp. lra.
    - destruct (Qmax_cases x (x + d)) as [[-> _]|[-> Hle]]; [ring | lra]. }
  destruct (Hspan (left (frame e)) (width (frame e)) Hw) as [-> Hwd].
  destruct (Hspan (top (frame e)) (height (frame e)) Hh) as [-> Hhd].
  change (js_div (0 + c) (inject_Z (Z.of_nat 1))) with (Fin ((0 + c) / 1)).
  eexists _, _, _. split; [reflexivity|]. split; [|done].
  unfold Qdiv. change (/ 1) with 1. ring.
Qed.

Lemma createParagraph_single_witness :
  exists m w h,
    createParagraph [element (mkFrame 0 0 40 20)]
    = {| Paragraphs.text := [120%N];
         Paragraphs.confidence := Fin m;
         boundingBox :=
           {| box_left := Fin 0; box_top := Fin 0;
              box_width := Fin w; box_height := Fin h |};
         elements := [paragraphElement (element (mkFrame 0 0 40 20))] |}
    /\ m == 9 # 10 /\ w == 40 /\ h == 20.
Proof.
  apply (createParagraph_single (element (mkFrame 0 0 40 20)) (9 # 10)).
  - reflexivity.
  - by vm_compute.
  - by vm_compute.
Defined.

End ParagraphFacts.

(** ** Frames from polygons *)

Module FrameFacts.

Import Grouping Ocr ParagraphFacts.
Import Lqa.

Lemma Math_round_integer (q : Q) (z : Z) :
  q == inject_Z z -> Math_round q = inject_Z z.
Proof.
  intros Hq. unfold Math_round. f_equal.
  assert (Hz : Qfloor (inject_Z z + (1 # 2)) = z).
  { pose proof (Qfloor_le (inject_Z z + (1 # 2))) as Hle.
    pose proof (Qlt_floor (inject_Z z + (1 # 2))) as Hlt.
    set (k := Qfloor (inject_Z z + (1 # 2))) in *.
    rewrite inject_Z_plus in Hlt. change (inject_Z 1) with 1 in Hlt.
    assert (H1 : inject_Z k < inject_Z z + 1) by lra.
    assert (H2 : inject_Z z < inject_Z k + 1) by lra.
    unfold Qlt in H1, H2. simpl in H1, H2. lia. }
  rewrite <- Hz. apply Qfloor_comp. by rewrite Hq.
Qed.

Lemma Math_round_nonneg (q : Q) : 0 <= q -> 0 <= Math_round q.
Proof.
  intros Hq. unfold Math_round. rewrite <- (Zle_Qle 0).
  change 0%Z with (Qfloor 0). apply Qfloor_resp_le. lra.
Qed.

(** X9: the frame of a polygon has a width and a height that are not
    negative, whatever the polygon; the empty polygon has the frame of
    zeros. *)
Theorem extractFrameFromBox_nonneg (box : list (Q * Q)) :
  0 <= width (extractFrameFromBox box)
  /\ 0 <= height (extractFrameFromBox box)
  /\ extractFrameFromBox [] = mkFrame 0 0 0 0.
Proof.
  split; [|split; [|done]]; (destruct box as [|p rest]; [done|]);
    cbn [extractFrameFromBox width height]; apply Math_round_nonneg;
    unfold Math_min1, Math_max1.
  - destruct (fold_Qmin_spec (map fst rest) (fst p)) as [_ Hmin].
    destruct (fold_Qmax_spec (map fst rest) (fst p)) as [_ Hmax].
    specialize (Hmin (fst p) ltac:(by left)).
    specialize (Hmax (fst p) ltac:(by left)). lra.
  - destruct (fold_Qmin_spec (map snd rest) (snd p)) as [_ Hmin].
    destruct (fold_Qmax_spec (map snd rest) (snd p)) as [_ Hmax].
    specialize (Hmin (snd p) ltac:(by left)).
    specialize (Hmax (snd p) ltac:(by left)). lra.
Qed.

(** The sides of the frame of a non-empty list of integer coordinates. *)
Lemma integer_span (z : Z) (zs : list Z) :
  let x := inject_Z z in
  let xs := map inject_Z zs in
  exists a b : Z,
    Math_round (Math_min1 x xs) = inject_Z a
    /\ Math_round (Math_max1 x xs - Math_min1 x xs) = inject_Z (b - a)
    /\ (forall y, y ∈ z :: zs -> (a <= y <= b)%Z)
    /\ a ∈ z :: zs /\ b ∈ z :: zs.
Proof.
  intros x xs. unfold Math_min1, Math_max1.
  destruct (fold_Qmin_spec xs x) as [Hmin_in Hmin].
  destruct (fold_Qmax_spec xs x) as [Hmax_in Hmax].
  assert (Hform : forall q, q ∈ x :: xs <-> exists y, y ∈ z :: zs /\ q = inject_Z y).
  { intros q. change (x :: xs) with (map inject_Z (z :: zs)).
    rewrite list_elem_of_In, in_map_iff. split.
    - intros (y & <- & Hy). exists y. by rewrite list_elem_of_In.
    - intros (y & Hy & ->). exists y. by rewrite <- list_elem_of_In. }
  apply Hform in Hmin_in as (a & Ha & Hmin_eq).
  apply Hform in Hmax_in as (b & Hb & Hmax_eq).
  rewrite Hmin_eq, Hmax_eq in *.
  exists a, b. split; [|split; [|split; [|done]]].
  - by apply Math_round_integer.
  - apply Math_round_integer. unfold Qminus.
    by rewrite <- inject_Z_opp, <- inject_Z_plus.
  - intros y Hy.
    assert (Hq : inject_Z y ∈ x :: xs) by (apply Hform; eauto).
    split; rewrite Zle_Qle; auto.
Qed.

(** X10: the frame of a polygon with integer coordinates encloses it,
    and tightly: every point of the polygon lies between [left] and
    [left + width] and between [top] and [top + height], and each of the
    four sides goes through a point of the polygon. *)
Theorem extractFrameFromBox_encloses (p : Z * Z) (rest : list (Z * Z)) :
  let box := OcrNotions.integerBox (p :: rest) in
  let f := extractFrameFromBox box in
  (forall q, q ∈ box ->
     left f <= fst q <= left f + width f
     /\ top f <= snd q <= top f + height f)
  /\ (exists q, q ∈ box /\ fst q == left f)
  /\ (exists q, q ∈ box /\ fst q == left f + width f)
  /\ (exists q, q ∈ box /\ snd q == top f)
  /\ (exists q, q ∈ box /\ snd q == top f + height f).
Proof.
  intros box f.
  destruct (integer_span (fst p) (map fst rest)) as (l & r & Hl & Hw & Hx & Hlx & Hrx).
  destruct (integer_span (snd p) (map snd rest)) as (t & b & Ht & Hh & Hy & Hty & Hby).
  cbv zeta in Hl, Hw, Ht, Hh.
  assert (Hf : f = mkFrame (inject_Z l) (inject_Z t) (inject_Z (r - l))
                     (inject_Z (b - t))).
  { unfold f, box, OcrNotions.integerBox. cbn [map extractFrameFromBox fst snd].
    rewrite !map_map. cbn [fst snd].
    rewrite <- (map_map fst inject_Z rest), <- (map_map snd inject_Z rest).
    by rewrite Hl, Hw, Ht, Hh. }
  rewrite Hf. cbn [left top width height].
  assert (Hsum : forall a c : Z, inject_Z a + inject_Z (c - a) == inject_Z c).
  { intros a c. rewrite <- inject_Z_plus. f_equiv. lia. }
  assert (Hbox : forall q, q ∈ box <->
                   exists z, z ∈ p :: rest
                             /\ q = (inject_Z (fst z), inject_Z (snd z))).
  { intros q. unfold box, OcrNotions.integerBox.
    rewrite list_elem_of_In, in_map_iff. split.
    - intros (z & <- & Hz). exists z. by rewrite list_elem_of_In.
    - intros (z & Hz & ->). exists z. by rewrite <- list_elem_of_In. }
  assert (Hfst : forall z, z ∈ p :: rest -> fst z ∈ fst p :: map fst rest).
  { intros z Hz. change (fst p :: map fst rest) with (map fst (p :: rest)).
    apply list_elem_of_In, in_map. by apply list_elem_of_In. }
  assert (Hsnd : forall z, z ∈ p :: rest -> snd z ∈ snd p :: map snd rest).
  { intros z Hz. change (snd p :: map snd rest) with (map snd (p :: rest)).
    apply list_elem_of_In, in_map. by apply list_elem_of_In. }
  assert (Hpick1 : forall a, a ∈ fst p :: map fst rest ->
                     exists q, q ∈ box /\ fst q = inject_Z a).
  { intros a Ha. change (fst p :: map fst rest) with (map fst (p :: rest)) in Ha.
    apply list_elem_of_In, in_map_iff in Ha as (z & <- & Hz).
    exists (inject_Z (fst z), inject_Z (snd z)). split; [|done].
    apply Hbox. exists z. by rewrite list_elem_of_In. }
  assert (Hpick2 : forall a, a ∈ snd p :: map snd rest ->
                     exists q, q ∈ box /\ snd q = inject_Z a).
  { intros a Ha. change (snd p :: map snd rest) with (map snd (p :: rest)) in Ha.
    apply list_elem_of_In, in_map_iff in Ha as (z & <- & Hz).
    exists (inject_Z (fst z), inject_Z (snd z)). split; [|done].
    apply Hbox. exists z. by rewrite list_elem_of_In. }
  split; [|split; [|split; [|split]]].
  - intros q (z & Hz & ->)%Hbox. cbn [fst snd]. rewrite !Hsum.
    destruct (Hx _ (Hfst z Hz)). destruct (Hy _ (Hsnd z Hz)).
    repeat split; by rewrite <- Zle_Qle.
  - destruct (Hpick1 l Hlx) as (q & Hq & E). exists q. by rewrite E.
  - destruct (Hpick1 r Hrx) as (q & Hq & E). exists q. by rewrite E, Hsum.
  - destruct (Hpick2 t Hty) as (q & Hq & E). exists q. by rewrite E.
  - destruct (Hpick2 b Hby) as (q & Hq & E). exists q. by rewrite E, Hsum.
Qed.

Lemma fold_Qmin_eq (x : Q) (xs : list Q) (m : Q) :
  m ∈ x :: xs -> (forall y, y ∈ x :: xs -> m <= y) -> fold_left Qmin xs x == m.
Proof.
  intros Hin Hle. destruct (fold_Qmin_spec xs x) as [Hin' Hle'].
  apply Qle_antisym; auto.
Qed.

Lemma fold_Qmax_eq (x : Q) (xs : list Q) (m : Q) :
  m ∈ x :: xs -> (forall y, y ∈ x :: xs -> y <= m) -> fold_left Qmax xs x == m.
Proof.
  intros Hin Hle. destruct (fold_Qmax_spec xs x) as [Hin' Hle'].
  apply Qle_antisym; auto.
Qed.

(** X11: from a frame to its polygon and back.  For a frame with integer
    fields whose width and height are not negative, the frame of the
    polygon of its four corners is the frame itself. *)
Theorem extractFrameFromBox_cornersOf (l t w h : Z) :
  (0 <= w)%Z -> (0 <= h)%Z ->
  let f := mkFrame (inject_Z l) (inject_Z t) (inject_Z w) (inject_Z h) in
  extractFrameFromBox (OcrNotions.cornersOf f) = f.
Proof.
  intros Hw Hh f.
  rewrite Zle_Qle in Hw, Hh. change (inject_Z 0) with 0 in Hw, Hh.
  unfold OcrNotions.cornersOf, f.
  cbn [extractFrameFromBox map fst snd left top width height].
  unfold Math_min1, Math_max1.
  set (x := inject_Z l) in *. set (y := inject_Z t) in *.
  set (dx := inject_Z w) in *. set (dy := inject_Z h) in *.
  assert (Hmem : forall (a b c d v : Q),
            v ∈ [a; b; c; d] -> v = a \/ v = b \/ v = c \/ v = d).
  { intros a b c d v Hv. apply list_elem_of_In in Hv. simpl in Hv.
    intuition auto. }
  assert (Hxmin : fold_left Qmin [x + dx; x + dx; x] x == x).
  { apply fold_Qmin_eq; [by left|].
    intros v [->|[->|[->| ->]]]%Hmem; lra. }
  assert (Hxmax : fold_left Qmax [x + dx; x + dx; x] x == x + dx).
  { apply fold_Qmax_eq; [right; by left|].
    intros v [->|[->|[->| ->]]]%Hmem; lra. }
  assert (Hymin : fold_left Qmin [y; y + dy; y + dy] y == y).
  { apply fold_Qmin_eq; [by left|].
    intros v [->|[->|[->| ->]]]%Hmem; lra. }
  assert (Hymax : fold_left Qmax [y; y + dy; y + dy] y == y + dy).
  { apply fold_Qmax_eq; [do 2 right; by left|].
    intros v [->|[->|[->| ->]]]%Hmem; lra. }
  f_equal; apply Math_round_integer.
  - exact Hxmin.
  - exact Hymin.
  - rewrite Hxmax, Hxmin. unfold dx. ring.
  - rewrite Hymax, Hymin. unfold dy. ring.
Qed.

Lemma extractFrameFromBox_cornersOf_witness :
  extractFrameFromBox (OcrNotions.cornersOf (mkFrame 60 2 50 20))
  = mkFrame 60 2 50 20.
Proof.
  apply (extractFrameFromBox_cornersOf 60 2 50 20); lia.
Defined.

End FrameFacts.

(** ** The normal form of decoded text *)

Module StringFacts.

Import StringNotions.

Lemma trimStart_head (s : jsstring) (c : N) (s' : jsstring) :
  trimStart s = c :: s' -> isWhiteSpace c = false.
Proof.
  induction s as [|d s IH]; simpl; [done|].
  destruct (isWhiteSpace d) eqn:Hd; [done|]. by intros [= <- _].
Qed.

Lemma trimStart_id (s : jsstring) :
  (forall c s', s = c :: s' -> isWhiteSpace c = false) -> trimStart s = s.
Proof.
  destruct s as [|c s]; [done|]. intros H. simpl. by rewrite (H c s).
Qed.

Lemma trimStart_suffix (s : jsstring) : exists k, s = k ++ trimStart s.
Proof.
  induction s as [|c s [k IH]]; [by exists []|]. simpl.
  destruct (isWhiteSpace c); [|by exists []].
  exists (c :: k). simpl. by rewrite <- IH.
Qed.

(** What [trim] keeps is a middle part of the string. *)
Lemma trim_middle (s : jsstring) : exists k k', s = k ++ trim s ++ k'.
Proof.
  destruct (trimStart_suffix s) as [k Hk].
  destruct (trimStart_suffix (rev (trimStart s))) as [k' Hk'].
  exists k, (rev k'). unfold trim. rewrite <- rev_app_distr, <- Hk'.
  by rewrite rev_involutive.
Qed.

Lemma trim_head (s : jsstring) (c : N) (s' : jsstring) :
  trim s = c :: s' -> isWhiteSpace c = false.
Proof.
  intros Ht.
  destruct (trimStart_suffix (rev (trimStart s))) as [k' Hk'].
  apply (f_equal (@rev N)) in Hk'.
  rewrite rev_involutive, rev_app_distr in Hk'. fold (trim s) in Hk'.
  rewrite Ht in Hk'. simpl in Hk'.
  by apply (trimStart_head s c (s' ++ rev k')).
Qed.

Lemma trim_last (s : jsstring) (c : N) (s' : jsstring) :
  rev (trim s) = c :: s' -> isWhiteSpace c = false.
Proof.
  unfold trim. rewrite rev_involutive. apply trimStart_head.
Qed.

(** [trim] does nothing to a string that it has produced. *)
Lemma trim_idempotent (s : jsstring) : trim (trim s) = trim s.
Proof.
  unfold trim at 1.
  rewrite (trimStart_id (trim s)); [|intros c s'; apply trim_head].
  rewrite (trimStart_id (rev (trim s))); [|intros c s'; apply trim_last].
  apply rev_involutive.
Qed.

Lemma singleSpaced_collapseFrom (b : bool) (s : jsstring) :
  singleSpaced b (collapseFrom b s) = true.
Proof.
  revert b. induction s as [|c s IH]; intros b; [done|]. simpl.
  destruct (isWhiteSpace c) eqn:Hc.
  - destruct b; [apply IH|]. simpl. apply IH.
  - simpl. rewrite Hc. apply IH.
Qed.

Lemma singleSpaced_weaken (b : bool) (s : jsstring) :
  singleSpaced true s = true -> singleSpaced b s = true.
Proof.
  destruct s as [|c s]; [done|]. simpl.
  destruct (isWhiteSpace c); [|done].
  rewrite andb_false_r. done.
Qed.

Lemma singleSpaced_suffix (b : bool) (k s : jsstring) :
  singleSpaced b (k ++ s) = true -> singleSpaced false s = true.
Proof.
  revert b. induction k as [|c k IH]; intros b; simpl.
  { destruct b; [by apply singleSpaced_weaken | done]. }
  destruct (isWhiteSpace c).
  - intros [_ H]%andb_true_iff. by apply (IH true).
  - apply IH.
Qed.

Lemma singleSpaced_prefix (b : bool) (s k : jsstring) :
  singleSpaced b (s ++ k) = true -> singleSpaced b s = true.
Proof.
  revert b. induction s as [|c s IH]; intros b; [done|]. simpl.
  destruct (isWhiteSpace c).
  - intros [H1 H2]%andb_true_iff. rewrite H1. by apply (IH true).
  - apply IH.
Qed.

Lemma singleSpaced_head (s : jsstring) :
  singleSpaced false s = true ->
  (forall c s', s = c :: s' -> isWhiteSpace c = false) ->
  singleSpaced true s = true.
Proof.
  destruct s as [|c s]; [done|]. intros H Hhead. simpl in *.
  by rewrite (Hhead c s) in *.
Qed.

Lemma singleSpaced_spaces (b : bool) (s : jsstring) (c : N) :
  singleSpaced b s = true -> c ∈ s -> isWhiteSpace c = true -> c = 32%N.
Proof.
  revert b. induction s as [|d s IH]; intros b Hs Hc Hw.
  { by apply elem_of_nil in Hc. }
  simpl in Hs. apply elem_of_cons in Hc as [->|Hc].
  - rewrite Hw in Hs. apply andb_true_iff in Hs as [[H _]%andb_true_iff _].
    by apply N.eqb_eq.
  - destruct (isWhiteSpace d).
    + apply andb_true_iff in Hs as [_ Hs]. by apply (IH true).
    + by apply (IH false).
Qed.

Lemma singleSpaced_collapse (b : bool) (s : jsstring) :
  singleSpaced b s = true -> collapseFrom b s = s.
Proof.
  revert b. induction s as [|c s IH]; intros b; [done|]. simpl.
  destruct (isWhiteSpace c).
  - intros [[Hc Hb]%andb_true_iff Hs]%andb_true_iff.
    apply N.eqb_eq in Hc as ->. apply negb_true_iff in Hb as ->.
    by rewrite (IH true).
  - intros Hs. by rewrite (IH false).
Qed.

Lemma singleSpaced_removeCarriageReturns (b : bool) (s : jsstring) :
  singleSpaced b s = true -> removeCarriageReturns s = s.
Proof.
  revert b. induction s as [|c s IH]; intros b; [done|].
  unfold removeCarriageReturns in *. simpl.
  destruct (isWhiteSpace c) eqn:Hw.
  - intros [[Hc _]%andb_true_iff Hs]%andb_true_iff.
    apply N.eqb_eq in Hc as ->. simpl. by rewrite (IH true).
  - intros Hs. destruct (N.eqb_spec c 13) as [->|_]; [done|].
    simpl. by rewrite (IH false).
Qed.

(** The text that [decode] builds from a joined string. *)
Lemma normalized_singleSpaced (s : jsstring) :
  singleSpaced true (trim (collapseWhitespace (removeCarriageReturns s))) = true.
Proof.
  set (u := collapseWhitespace (removeCarriageReturns s)).
  destruct (trim_middle u) as (k & k' & Hu).
  pose proof (singleSpaced_collapseFrom false (removeCarriageReturns s)) as Hs.
  fold (collapseWhitespace (removeCarriageReturns s)) in Hs. fold u in Hs.
  rewrite Hu in Hs. apply singleSpaced_suffix, singleSpaced_prefix in Hs.
  apply singleSpaced_head; [done|]. intros c s'. apply trim_head.
Qed.

End StringFacts.

(** ** More on the decoded line *)

Module DecodedLineFacts.

Import Recognition RecognitionFacts StringNotions StringFacts.
Import Lqa.

(** X12: the text of every decoded line is in normal form.  Removing
    carriage returns, collapsing white space and trimming all leave it as
    it is: it has no carriage return, it neither starts nor ends with
    white space, and its only white space is single spaces (code unit
    32), never two in a row. *)
Theorem decode_text_normal_form (dictionary : list jsstring)
    (removeDuplicateChars : bool) (textIndex : list Z) (textProb : list jsnum) :
  let t := text (decode dictionary removeDuplicateChars textIndex textProb) in
  removeCarriageReturns t = t
  /\ collapseWhitespace t = t
  /\ trim t = t
  /\ (forall c s', t = c :: s' -> isWhiteSpace c = false)
  /\ (forall s' c, t = s' ++ [c] -> isWhiteSpace c = false)
  /\ (forall s1 c d s2,
        t = s1 ++ c :: d :: s2 ->
        isWhiteSpace c = true -> isWhiteSpace d = false)
  /\ (forall c, c ∈ t -> isWhiteSpace c = true -> c = 32%N).
Proof.
  cbv zeta. rewrite decode_emitted. cbn [text].
  set (s := join _). set (t := trim _).
  pose proof (normalized_singleSpaced s) as Hs. fold t in Hs.
  split; [by apply (singleSpaced_removeCarriageReturns true)|].
  split; [by apply singleSpaced_collapse, singleSpaced_weaken|].
  split; [apply trim_idempotent|].
  split; [intros c s'; apply trim_head|].
  split; [|split].
  - intros s' c Ht.
    apply (trim_last (collapseWhitespace (removeCarriageReturns s)) c (rev s')).
    fold t. by rewrite Ht, rev_app_distr.
  - intros s1 c d s2 Ht Hc. rewrite Ht in Hs.
    apply (singleSpaced_suffix true) in Hs. cbn [singleSpaced] in Hs.
    rewrite Hc in Hs.
    destruct (isWhiteSpace d); [|done].
    by rewrite !andb_false_r in Hs.
  - intros c. by apply (singleSpaced_spaces true).
Qed.

Lemma omap_confidenceAt_finite dictionary rdc textIndex (probs : list Q)
    (P : Q -> Prop) (idxs : list nat) :
  Forall (fun i => (i < length probs)%nat) idxs ->
  Forall P probs ->
  exists qs,
    omap (confidenceAt dictionary rdc textIndex (map Fin probs)) idxs = map Fin qs
    /\ Forall P qs.
Proof.
  intros Hidx HP. induction Hidx as [|i idxs Hi _ (qs & IH & Hqs)].
  { by exists []. }
  simpl. unfold confidenceAt at 1.
  destruct (emittedAt dictionary rdc textIndex i); simpl; [|exists qs; by split].
  destruct (lookup_lt_is_Some_2 probs i Hi) as [p Hp].
  exists (p :: qs). split.
  - unfold probAt. rewrite lookup_map, Hp. simpl. by rewrite <- IH.
  - constructor; [|done]. rewrite Forall_forall in HP. apply HP.
    by eapply list_elem_of_lookup_2.
Qed.

(** X13: when every timestep has a finite probability between [lo] and
    [hi], the confidence of the decoded line is a finite number: 0 when
    no character was emitted, and otherwise a number between [lo] and
    [hi]. *)
Theorem decode_mean_bounds (dictionary : list jsstring)
    (removeDuplicateChars : bool) (textIndex : list Z) (probs : list Q)
    (lo hi : Q) :
  (length textIndex <= length probs)%nat ->
  Forall (fun p => lo <= p <= hi) probs ->
  exists m,
    mean (decode dictionary removeDuplicateChars textIndex (map Fin probs))
    = Fin m
    /\ ((decodeLists dictionary removeDuplicateChars textIndex
           (map Fin probs)).1 = []
        /\ m = 0
        \/ (decodeLists dictionary removeDuplicateChars textIndex
              (map Fin probs)).1 <> []
           /\ lo <= m <= hi).
Proof.
  intros Hlen Hall. rewrite decode_emitted, decodeLists_emitted. cbn [mean fst].
  destruct (omap_confidenceAt_finite dictionary removeDuplicateChars textIndex
              probs (fun p => lo <= p <= hi) (seq 0 (length textIndex)))
    as (qs & Hqs & Hbounds); [|done|].
  { apply Forall_forall. intros i Hi%elem_of_seq. lia. }
  pose proof (omap_confidenceAt_length dictionary removeDuplicateChars
                textIndex (map Fin probs) (seq 0 (length textIndex))) as Hl.
  rewrite Hqs in *. destruct qs as [|q qs].
  - exists 0. split; [done|]. left. split; [|done].
    apply length_zero_iff_nil. by rewrite <- Hl.
  - destruct (meanOf_finite q qs) as (m & Hm & Heq).
    exists m. split; [done|]. right. split.
    + intros Hnil. rewrite Hnil in Hl. done.
    + rewrite Heq. by apply ParagraphFacts.mean_bounds.
Qed.

Lemma decode_mean_bounds_witness :
  exists m,
    mean (decode dictionaryA true [5; 0; 7]%Z
            (map Fin [9 # 10; 1; 1 # 2]))
    = Fin m
    /\ ((decodeLists dictionaryA true [5; 0; 7]%Z
           (map Fin [9 # 10; 1; 1 # 2])).1 = []
        /\ m = 0
        \/ (decodeLists dictionaryA true [5; 0; 7]%Z
              (map Fin [9 # 10; 1; 1 # 2])).1 <> []
           /\ 0 <= m <= 1).
Proof.
  apply (decode_mean_bounds dictionaryA true [5; 0; 7]%Z [9 # 10; 1; 1 # 2] 0 1).
  - simpl. lia.
  - repeat constructor; by vm_compute.
Defined.

End DecodedLineFacts.

(** ** The lines of a tensor *)

Module DecodeTextFacts.

Import Recognition RecognitionNotions RecognitionFacts.

Local Open Scope nat_scope.

Section Lines.

Context (dictionary : list jsstring).
Context (removeDuplicateChars : bool).
Context (output : Tensor).

Local Abbreviation L := (lineLen output).
Local Abbreviation loop := (linesLoop dictionary removeDuplicateChars output).
Local Abbreviation lineAt := (lineAt dictionary removeDuplicateChars output).

Lemma linesLoop_count (k fuel r : nat) :
  r < L -> k <= fuel ->
  loop fuel (Z.of_nat (r + k * L) - Z.of_nat L)%Z
  = Some (map (fun j => lineAt (r + (k - 1 - j) * L)) (seq 0 k)).
Proof.
  intros Hr. revert fuel. induction k as [|k IH]; intros fuel Hk.
  { apply linesLoop_negative. lia. }
  destruct fuel as [|fuel]; [lia|].
  replace (Z.of_nat (r + S k * L) - Z.of_nat L)%Z with (Z.of_nat (r + k * L))
    by lia.
  cbn [linesLoop].
  destruct (Z.ltb_spec (Z.of_nat (r + k * L)) 0) as [|_]; [lia|].
  rewrite Nat2Z.id, IH by lia.
  cbn [seq map]. rewrite <- seq_shift, map_map.
  replace (r + (S k - 1 - 0) * L) with (r + k * L) by (f_equal; f_equal; lia).
  change (lineAt (r + k * L))
    with (let '(predsIdx, predsProb) :=
            predsLoop output (dims1 output) (r + k * L) (r + k * L + L) in
          decode dictionary removeDuplicateChars predsIdx predsProb).
  destruct (predsLoop output (dims1 output) (r + k * L) (r + k * L + L))
    as [predsIdx predsProb].
  do 2 f_equal. apply map_ext. intros j. do 3 f_equal. lia.
Qed.

(** X14: [decodeText] cuts the data into lines from its end.  When the
    length [dims[1] * dims[2]] of a line is positive it returns one line
    for every whole line that fits in the data, whatever [dims[0]] says,
    and the line at position [ml] is decoded from the slice that ends
    [ml] lines before the end of the data: the lines come out in the
    reverse of their order in the tensor. *)
Theorem decodeText_lines_backwards :
  0 < lineLen output ->
  exists lines,
    decodeText dictionary removeDuplicateChars output = Some lines
    /\ length lines = length (data output) / lineLen output
    /\ forall ml, ml < length lines ->
         (ml + 1) * lineLen output <= length (data output)
         /\ lines !! ml
            = Some (RecognitionNotions.lineAt dictionary removeDuplicateChars
                      output
                      (length (data output) - (ml + 1) * lineLen output)).
Proof.
  intros Hpos. unfold decodeText.
  set (n := length (data output)).
  pose proof (Nat.div_mod_eq n L) as Hn.
  pose proof (Nat.mod_upper_bound n L ltac:(lia)) as Hr.
  set (k := n / L) in *. set (r := n mod L) in *.
  assert (Hk : k <= S n) by nia.
  replace (Z.of_nat n - Z.of_nat L)%Z
    with (Z.of_nat (r + k * L) - Z.of_nat L)%Z by lia.
  rewrite (linesLoop_count k (S n) r Hr Hk).
  eexists. split; [reflexivity|].
  rewrite length_map, length_seq. split; [done|].
  intros ml Hml. split; [nia|].
  rewrite lookup_map, lookup_seq_lt by done. simpl. do 2 f_equal. nia.
Qed.

(** X15: when the length [dims[1] * dims[2]] of a line is zero, the outer
    loop of [decodeText] never ends: its index stays where it is, so no
    number of iterations lets it return. *)
Theorem decodeText_zero_line_never_returns :
  lineLen output = 0 ->
  forall fuel,
    linesLoop dictionary removeDuplicateChars output fuel
      (Z.of_nat (length (data output)) - Z.of_nat (lineLen output))%Z
    = None.
Proof.
  intros HL fuel. rewrite HL, Z.sub_0_r.
  generalize (length (data output)). intros n.
  induction fuel as [|fuel IH]; cbn [linesLoop];
    destruct (Z.ltb_spec (Z.of_nat n) 0) as [|_]; try lia; [done|].
  rewrite HL, Z.sub_0_r, IH.
  by destruct (predsLoop _ _ _ _).
Qed.

End Lines.

Lemma decodeText_lines_backwards_witness :
  exists lines,
    decodeText dictionaryA true tensorAB = Some lines
    /\ length lines = 2
    /\ forall ml, ml < length lines ->
         (ml + 1) * 16 <= 32
         /\ lines !! ml
            = Some (lineAt dictionaryA true tensorAB (32 - (ml + 1) * 16)).
Proof.
  apply (decodeText_lines_backwards dictionaryA true tensorAB).
  vm_compute. lia.
Defined.

Lemma decodeText_zero_line_never_returns_witness :
  linesLoop dictionaryA true (mkTensor 1 0 8 []) 1000 0%Z = None.
Proof.
  apply (decodeText_zero_line_never_returns dictionaryA true
           (mkTensor 1 0 8 [])).
  reflexivity.
Defined.

End DecodeTextFacts.

(** ** The class and the probability of a timestep *)

Module ArgmaxFacts.

Import Recognition RecognitionNotions RecognitionFacts.

Local Open Scope nat_scope.

Lemma Math_max_spec (x : Q) (xs : list Q) :
  exists m,
    Math_max (x :: xs) = Fin m
    /\ m ∈ x :: xs
    /\ forall y, y ∈ x :: xs -> (y <= m)%Q.
Proof.
  eexists. split; [reflexivity|]. apply ParagraphFacts.fold_Qmax_spec.
Qed.

Lemma indexOfFrom_spec (base : Z) (xs : list Q) (m : Q) :
  m ∈ xs ->
  exists k x,
    indexOfFrom base xs (Fin m) = (base + Z.of_nat k)%Z
    /\ xs !! k = Some x
    /\ (x == m)%Q
    /\ forall j y, j < k -> xs !! j = Some y -> ~ (y == m)%Q.
Proof.
  revert base. induction xs as [|x xs IH]; intros base Hm.
  { by apply elem_of_nil in Hm. }
  cbn [indexOfFrom]. destruct (Qeq_bool x m) eqn:E.
  - exists 0, x. split; [f_equal; lia|]. split; [done|].
    split; [by apply Qeq_bool_iff|]. intros j y Hj. lia.
  - apply Qeq_bool_neq in E.
    apply elem_of_cons in Hm as [->|Hm]; [by destruct E|].
    destruct (IH (base + 1)%Z Hm) as (k & y & Hk & Hy & Heq & Hfirst).
    exists (S k), y. split; [rewrite Hk; lia|]. split; [done|].
    split; [done|]. intros [|j] z Hj Hz.
    + by injection Hz as <-.
    + apply (Hfirst j z); [lia | done].
Qed.

Section Timesteps.

Context (output : Tensor).

Local Abbreviation V := (dims2 output).

Lemma predsLoop_lookup (fuel i t : nat) :
  0 < V -> t < fuel ->
  (predsLoop output fuel i (i + fuel * V)).1 !! t
  = Some (indexOf (take V (drop (i + t * V) (data output)))
            (Math_max (take V (drop (i + t * V) (data output)))))
  /\ (predsLoop output fuel i (i + fuel * V)).2 !! t
     = Some (Math_max (take V (drop (i + t * V) (data output)))).
Proof.
  intros HV. revert i t. induction fuel as [|fuel IH]; intros i t Ht; [lia|].
  cbn [predsLoop]. unfold predLen.
  destruct (Nat.ltb_spec i (i + S fuel * V)) as [_|]; [|nia].
  replace (i + S fuel * V) with (i + V + fuel * V) by lia.
  destruct (predsLoop output fuel (i + V) (i + V + fuel * V))
    as [predsIdx predsProb] eqn:E.
  destruct t as [|t].
  - cbn [fst snd]. by rewrite Nat.add_0_r.
  - cbn [fst snd]. destruct (IH (i + V) t ltac:(lia)) as [H1 H2].
    rewrite E in H1, H2. cbn [fst snd] in H1, H2.
    replace (i + S t * V) with (i + V + t * V) by lia. done.
Qed.

Lemma predsLoop_length (fuel i : nat) :
  0 < V ->
  length (predsLoop output fuel i (i + fuel * V)).1 = fuel
  /\ length (predsLoop output fuel i (i + fuel * V)).2 = fuel.
Proof.
  intros HV. revert i. induction fuel as [|fuel IH]; intros i; [done|].
  cbn [predsLoop]. unfold predLen.
  destruct (Nat.ltb_spec i (i + S fuel * V)) as [_|]; [|nia].
  replace (i + S fuel * V) with (i + V + fuel * V) by lia.
  destruct (IH (i + V)) as [H1 H2].
  destruct (predsLoop output fuel (i + V) (i + V + fuel * V))
    as [predsIdx predsProb].
  cbn [fst snd length] in *. by rewrite H1, H2.
Qed.

(** X16: the class of a timestep is the first arg max.  From the tensor
    of one line the decoder takes one class and one probability for each
    of the [dims[1]] timesteps; the probability is the largest entry of
    the timestep, and the class is the position of the first entry that
    equals it: a number below [dims[2]], no entry of the timestep is
    larger than the entry at the class, and every entry before it is
    smaller. *)
Theorem predsOf_first_argmax :
  batchOne output ->
  length (predsOf output).1 = dims1 output
  /\ length (predsOf output).2 = dims1 output
  /\ forall t, t < dims1 output ->
       exists k m,
         (predsOf output).1 !! t = Some (Z.of_nat k)
         /\ (predsOf output).2 !! t = Some (Fin m)
         /\ k < dims2 output
         /\ (exists x, timestepAt output t !! k = Some x /\ (x == m)%Q)
         /\ forall j y, timestepAt output t !! j = Some y ->
              (y <= m)%Q /\ (j < k -> (y < m)%Q).
Proof.
  intros [Hlen Hpos]. unfold lineLen, predLen in *.
  assert (HV : 0 < V) by nia.
  unfold predsOf, lineLen, predLen.
  replace (V * dims1 output) with (0 + dims1 output * V) by lia.
  destruct (predsLoop_length (dims1 output) 0 HV) as [H1 H2].
  split; [done|]. split; [done|]. intros t Ht.
  destruct (predsLoop_lookup (dims1 output) 0 t HV Ht) as [-> ->].
  cbn [Nat.add]. fold (timestepAt output t).
  assert (Hslice : length (timestepAt output t) = V).
  { unfold timestepAt. rewrite length_take, length_drop. nia. }
  destruct (timestepAt output t) as [|x xs] eqn:Es; [simpl in Hslice; lia|].
  destruct (Math_max_spec x xs) as (m & -> & Hm & Hmax).
  destruct (indexOfFrom_spec 0 (x :: xs) m Hm) as (k & z & Hk & Hz & Heq & Hfirst).
  exists k, m. unfold indexOf. rewrite Hk, Z.add_0_l.
  split; [done|]. split; [done|]. split.
  { rewrite <- Hslice. by apply lookup_lt_Some in Hz. }
  split; [by exists z|].
  intros j y Hy.
  assert (Hle : (y <= m)%Q) by (apply Hmax; by eapply list_elem_of_lookup_2).
  split; [done|]. intros Hj.
  apply Qle_lteq in Hle as [Hlt|Heqy]; [done|].
  by destruct (Hfirst j y Hj Hy).
Qed.

End Timesteps.

Lemma predsOf_first_argmax_witness :
  (predsOf tensorA).1 = [5%Z; 0%Z]
  /\ length (predsOf tensorA).2 = 2.
Proof.
  split; [reflexivity|].
  apply (predsOf_first_argmax tensorA). split; [reflexivity | vm_compute; lia].
Defined.

End ArgmaxFacts.

(** ** The result of [detect] *)

Module DetectFacts.

Import Recognition RecognitionFacts GroupingFacts.

Local Open Scope nat_scope.

(** The groups of a list of elements: [groupTextElements] returns, and
    its groups, none of them empty, are a rearrangement of the list. *)
Lemma groupTextElements_parts (engine : ArraySort)
    (elements : list Grouping.TextElement) (config : Grouping.GroupingConfig) :
  exists groups,
    Grouping.groupTextElements engine elements config = Some groups
    /\ concat groups ≡ₚ elements
    /\ Forall (fun group => group <> []) groups.
Proof.
  destruct elements as [|e els]; [by exists []|].
  unfold Grouping.groupTextElements.
  set (avgHeight := Grouping.averageHeight (e :: els)).
  set (sorted :=
         array_sort engine (Grouping.compareElements avgHeight) (e :: els)).
  destruct (groupLoop_spec engine config avgHeight sorted
              (seq 0 (length sorted)) [] [])
    as (groups & added & Heq & Hp & Hne & Hnd & Hlt & Hcov).
  { constructor. }
  { apply Forall_forall. intros i Hi%elem_of_seq. lia. }
  exists groups. split; [exact Heq|]. split; [|done].
  rewrite Hp. simpl in Hnd, Hcov.
  assert (Hadded : added ≡ₚ seq 0 (length sorted)).
  { apply NoDup_Permutation; [done | apply NoDup_seq|].
    intros i. rewrite elem_of_seq. split.
    - intros Hi. rewrite Forall_forall in Hlt. specialize (Hlt i Hi). lia.
    - intros Hi. rewrite Forall_forall in Hcov. apply Hcov, elem_of_seq. lia. }
  unfold Grouping.elementsAt. rewrite Hadded.
  fold (Grouping.elementsAt sorted (seq 0 (length sorted))).
  rewrite elementsAt_seq. apply array_sort_perm.
Qed.

Lemma concat_length_le {A : Type} (groups : list (list A)) :
  Forall (fun group => group <> []) groups ->
  length groups <= length (concat groups).
Proof.
  induction 1 as [|g groups Hg _ IH]; [done|].
  simpl. rewrite length_app. destruct g; [done|]. simpl. lia.
Qed.

(** *** Confidences are finite *)

Lemma js_add_finite_or_less (x y : jsnum) :
  x <> PosInf -> y <> PosInf -> js_add x y <> PosInf.
Proof. by destruct x, y. Qed.

Lemma fold_js_add_finite_or_less (ps : list jsnum) (x : jsnum) :
  x <> PosInf -> Forall (fun p => p <> PosInf) ps ->
  fold_left js_add ps x <> PosInf.
Proof.
  intros Hx Hps. revert x Hx.
  induction Hps as [|p ps Hp _ IH]; intros x Hx; [done|].
  cbn [fold_left]. by apply IH, js_add_finite_or_less.
Qed.

Lemma meanOf_finite_or_less (confList : list jsnum) :
  Forall (fun p => p <> PosInf) confList -> meanOf confList <> PosInf.
Proof.
  intros Hall. destruct Hall as [|first rest Hfirst Hrest]; [done|].
  cbn [meanOf length].
  pose proof (fold_js_add_finite_or_less rest first Hfirst Hrest) as Hsum.
  destruct (fold_left js_add rest first) as [q| | |]; [|done..].
  by rewrite js_div_len_finite.
Qed.

Lemma predsLoop_finite_or_less (output : Tensor) (fuel i limit : nat) :
  Forall (fun p => p <> PosInf) (predsLoop output fuel i limit).2.
Proof.
  revert i. induction fuel as [|fuel IH]; intros i; [constructor|].
  cbn [predsLoop]. destruct (i <? limit); [|constructor].
  specialize (IH (i + predLen output)).
  destruct (predsLoop output fuel (i + predLen output) limit)
    as [predsIdx predsProb].
  cbn [snd] in *. constructor; [|done].
  by destruct (take _ _).
Qed.

Lemma decode_finite_or_less dictionary rdc (textIndex : list Z)
    (textProb : list jsnum) :
  Forall (fun p => p <> PosInf) textProb ->
  mean (decode dictionary rdc textIndex textProb) <> PosInf.
Proof.
  intros Hall. rewrite decode_emitted. cbn [mean].
  apply meanOf_finite_or_less.
  induction (seq 0 (length textIndex)) as [|idx idxs IH]; [constructor|].
  simpl. unfold confidenceAt at 1. destruct (emittedAt _ _ _ _); [|done].
  constructor; [|done]. unfold probAt.
  destruct (textProb !! idx) as [p|] eqn:Hp; [|done].
  rewrite Forall_forall in Hall. apply Hall. by eapply list_elem_of_lookup_2.
Qed.

Lemma linesLoop_finite_or_less dictionary rdc (output : Tensor) (fuel : nat)
    (l : Z) (lines : list Line) :
  linesLoop dictionary rdc output fuel l = Some lines ->
  Forall (fun ln => mean ln <> PosInf) lines.
Proof.
  revert l lines. induction fuel as [|fuel IH]; intros l lines; cbn [linesLoop];
    destruct (l <? 0)%Z; try done; try (intros [= <-]; constructor).
  pose proof (predsLoop_finite_or_less output (dims1 output) (Z.to_nat l)
                (Z.to_nat l + lineLen output)) as Hprobs.
  destruct (predsLoop _ _ _ _) as [predsIdx predsProb]. cbn [snd] in Hprobs.
  destruct (linesLoop _ _ _ _ _) as [rest|] eqn:Hrest; [|done].
  intros [= <-]. constructor; [by apply decode_finite_or_less|].
  by eapply IH.
Qed.

Lemma Qsum_lower (qs : list Q) (lo : Q) :
  Forall (fun q => lo <= q)%Q qs ->
  (inject_Z (Z.of_nat (length qs)) * lo <= Qsum qs)%Q.
Proof.
  induction 1 as [|q qs Hq _ IH].
  { simpl. rewrite Qmult_0_l. apply Qle_refl. }
  cbn [length]. rewrite Nat2Z.inj_succ. unfold Z.succ.
  rewrite inject_Z_plus. change (inject_Z 1) with 1%Q.
  unfold Qsum in *. cbn [foldr].
  set (k := inject_Z (Z.of_nat (length qs))) in *.
  set (s := foldr Qplus 0%Q qs) in *.
  rewrite Qmult_plus_distr_l, Qmult_1_l, Qplus_comm.
  by apply Qplus_le_compat.
Qed.

Section Detect.

Context (engine : ArraySort).
Context {Image ModelData : Type}.
Context (toModelData : Image -> ModelData).
Context (runModel : ModelData -> Tensor).
Context (dictionary : list jsstring).
Context (removeDuplicateChars : bool).
Context (confidenceThreshold : Q).
Context (groupingConfig : Grouping.GroupingConfig).

Local Abbreviation run :=
  (run dictionary removeDuplicateChars toModelData runModel confidenceThreshold).
Local Abbreviation detect :=
  (Paragraphs.detect engine toModelData runModel dictionary removeDuplicateChars
     confidenceThreshold groupingConfig).

(** Every result of [run] passed the confidence filter and carries the
    box of one of the crops. *)
Lemma run_results (lineImages : list LineImage) (kept : list Recognized)
    (r : Recognized) :
  run lineImages = Some kept -> r ∈ kept ->
  js_geb (mean (line r)) confidenceThreshold = true
  /\ exists li, li ∈ lineImages /\ box r = li_box li.
Proof.
  unfold Recognition.run, runUnfiltered.
  destruct (runLoop _ _ _ _ _) as [allLines|]; [|done].
  destruct (mapM _ _) as [all|] eqn:Hall; [|done].
  intros [= <-] [Hr Hconf]%list_elem_of_In%filter_In. split; [done|].
  apply mapM_Some_1 in Hall.
  apply list_elem_of_In, list_elem_of_lookup in Hr as [i Hi].
  destruct (Forall2_lookup_r _ _ _ _ _ Hall Hi) as (x & Hx & Hxr).
  rewrite list_lookup_imap in Hx.
  destruct (allLines !! i) as [l|]; [|done]. simpl in Hx.
  injection Hx as <-. unfold attachBox in Hxr.
  destruct (lineImages !! _) as [li|] eqn:Hli; [|done].
  injection Hxr as <-. exists li. split; [|done].
  by eapply list_elem_of_lookup_2.
Qed.

(** X17: what [detect] puts in [data].  [totalElements] is the number
    of entries; every entry has a text that is not empty and is trimmed,
    a confidence that is at least the threshold (so never NaN), the box of
    one of the crops, and as frame the frame of that box.  Without crops
    the result has no elements. *)
Theorem detect_elements (grouped : bool) (lineImages : list LineImage)
    (result : Paragraphs.Result) :
  detect grouped lineImages = Some result ->
  Paragraphs.totalElements result = length (Paragraphs.data result)
  /\ (lineImages = [] -> Paragraphs.data result = [])
  /\ forall e, e ∈ Paragraphs.data result ->
       Grouping.text e <> []
       /\ trim (Grouping.text e) = Grouping.text e
       /\ js_ge (Grouping.confidence e) confidenceThreshold
       /\ Grouping.frame e = Ocr.extractFrameFromBox (Grouping.box e)
       /\ exists li, li ∈ lineImages /\ Grouping.box e = li_box li.
Proof.
  unfold Paragraphs.detect.
  destruct (run lineImages) as [texts|] eqn:Hrun; [|done].
  cbv zeta. intros Hresult.
  assert (Hdata : Paragraphs.totalElements result
                  = length (Paragraphs.data result)
                  /\ Paragraphs.data result = Ocr.individualElements texts).
  { destruct grouped.
    - destruct (Grouping.groupTextElements _ _ _); [|done].
      by injection Hresult as <-.
    - by injection Hresult as <-. }
  clear Hresult. destruct Hdata as [Htotal Hdata]. split; [done|].
  rewrite Hdata. split.
  { intros ->. by injection Hrun as <-. }
  intros e He. unfold Ocr.individualElements in He.
  apply list_elem_of_In, in_map_iff in He as (item & <- & Hitem).
  apply filter_In in Hitem as [Hitem Htext]. apply list_elem_of_In in Hitem.
  destruct (run_results lineImages texts item Hrun Hitem) as [Hconf Hbox].
  cbn [Grouping.text Grouping.confidence Grouping.frame Grouping.box].
  split; [|split; [|split; [|split]]].
  - unfold Ocr.hasText in Htext.
    destruct (text (line item)); [done|].
    apply Nat.ltb_lt in Htext. intros Hnil. rewrite Hnil in Htext.
    simpl in Htext. lia.
  - apply StringFacts.trim_idempotent.
  - by apply js_geb_ge.
  - done.
  - done.
Qed.

(** X18: grouping adds paragraphs and changes nothing else.  Whenever
    [detect] returns without grouping it returns with grouping too, with
    the same [data] and [totalElements]; [totalParagraphs] is the number
    of paragraphs, which is at most the number of elements and zero only
    when there is no element; no paragraph is empty, and the elements of
    all paragraphs together are a rearrangement of [data]: every element
    is in exactly one paragraph. *)
Theorem detect_paragraphs (lineImages : list LineImage)
    (plain : Paragraphs.Result) :
  detect false lineImages = Some plain ->
  exists paragraphs,
    detect true lineImages
    = Some {| Paragraphs.totalElements := Paragraphs.totalElements plain;
              Paragraphs.data := Paragraphs.data plain;
              Paragraphs.totalParagraphs := Some (length paragraphs);
              Paragraphs.paragraphs := Some paragraphs |}
    /\ Paragraphs.totalParagraphs plain = None
    /\ Paragraphs.paragraphs plain = None
    /\ concat (map Paragraphs.elements paragraphs)
       ≡ₚ map Paragraphs.paragraphElement (Paragraphs.data plain)
    /\ Forall (fun p => Paragraphs.elements p <> []) paragraphs
    /\ length paragraphs <= Paragraphs.totalElements plain
    /\ (paragraphs = [] <-> Paragraphs.data plain = []).
Proof.
  unfold Paragraphs.detect.
  destruct (run lineImages) as [texts|]; [|done]. intros [= <-].
  cbn [Paragraphs.totalElements Paragraphs.data Paragraphs.totalParagraphs
       Paragraphs.paragraphs].
  destruct (groupTextElements_parts engine (Ocr.individualElements texts)
              groupingConfig) as (groups & -> & Hperm & Hne).
  exists (map Paragraphs.createParagraph groups).
  split; [done|]. split; [done|]. split; [done|].
  assert (Hel : map Paragraphs.elements (map Paragraphs.createParagraph groups)
                = map (map Paragraphs.paragraphElement) groups).
  { rewrite map_map. by apply map_ext. }
  split; [|split; [|split]].
  - rewrite Hel. rewrite <- Hperm.
    clear. induction groups as [|g groups IH]; [done|].
    simpl. by rewrite map_app, IH.
  - apply Forall_forall. intros p (g & <- & Hg)%list_elem_of_In%in_map_iff.
    rewrite Forall_forall in Hne. apply list_elem_of_In, Hne in Hg.
    simpl. by destruct g.
  - rewrite length_map, <- Hperm. by apply concat_length_le.
  - split.
    + intros Hnil. destruct groups; [|done]. simpl in Hperm.
      by apply Permutation_nil_l in Hperm.
    + intros Hnil. rewrite Hnil in Hperm. apply Permutation_nil_r in Hperm.
      destruct groups as [|g groups]; [done|].
      apply Forall_cons in Hne as [Hg _]. simpl in Hperm.
      by apply app_eq_nil in Hperm as [-> _].
Qed.

Lemma runLoop_finite_or_less (modelDatas : list ModelData)
    (allLines all : list Line) :
  runLoop dictionary removeDuplicateChars runModel modelDatas allLines
  = Some all ->
  Forall (fun ln => mean ln <> PosInf) allLines ->
  Forall (fun ln => mean ln <> PosInf) all.
Proof.
  revert allLines. induction modelDatas as [|modelData rest IH];
    intros allLines; cbn [runLoop]; [by intros [= <-]|].
  destruct (decodeText _ _ _) as [lines|] eqn:Hlines; [|done].
  intros Hrest Hall. apply (IH _ Hrest), Forall_app. split; [|done].
  by eapply linesLoop_finite_or_less.
Qed.

(** The confidence of every result of [run] is a finite number that is
    at least the threshold. *)
Lemma run_confidence (lineImages : list LineImage) (kept : list Recognized)
    (r : Recognized) :
  run lineImages = Some kept -> r ∈ kept ->
  exists q, mean (line r) = Fin q /\ (confidenceThreshold <= q)%Q.
Proof.
  intros Hrun Hr.
  destruct (run_results lineImages kept r Hrun Hr) as [Hconf _].
  assert (Hmean : mean (line r) <> PosInf).
  { revert Hrun. unfold Recognition.run, runUnfiltered.
    destruct (runLoop _ _ _ _ _) as [allLines|] eqn:Hloop; [|done].
    destruct (mapM _ _) as [all|] eqn:Hall; [|done].
    intros [= <-]. apply list_elem_of_In, filter_In in Hr as [Hr _].
    apply mapM_Some_1 in Hall.
    apply list_elem_of_In, list_elem_of_lookup in Hr as [i Hi].
    destruct (Forall2_lookup_r _ _ _ _ _ Hall Hi) as (x & Hx & Hxr).
    rewrite list_lookup_imap in Hx.
    destruct (allLines !! i) as [l|] eqn:Hl; [|done]. simpl in Hx.
    injection Hx as <-. unfold attachBox in Hxr.
    destruct (lineImages !! _) as [li|]; [|done].
    injection Hxr as <-. cbn [line].
    pose proof (runLoop_finite_or_less _ [] allLines Hloop ltac:(constructor))
      as Hlines.
    rewrite Forall_forall in Hlines. apply Hlines.
    by eapply list_elem_of_lookup_2. }
  destruct (mean (line r)) as [q| | |]; try done.
  exists q. split; [done|]. by apply Qle_bool_iff.
Qed.

(** X28: confidences are finite.  Whenever [detect] returns, the
    confidence of every entry of [data] is a finite number that is not
    below the confidence threshold, and the confidence of every paragraph
    is a finite number, which is not negative when the threshold is not
    negative. *)
Theorem detect_confidences (grouped : bool) (lineImages : list LineImage)
    (result : Paragraphs.Result) :
  detect grouped lineImages = Some result ->
  (forall e, e ∈ Paragraphs.data result ->
     exists q, Grouping.confidence e = Fin q /\ (confidenceThreshold <= q)%Q)
  /\ (forall paragraphs p,
        Paragraphs.paragraphs result = Some paragraphs -> p ∈ paragraphs ->
        exists m,
          Paragraphs.confidence p = Fin m
          /\ ((0 <= confidenceThreshold)%Q -> (0 <= m)%Q)).
Proof.
  unfold Paragraphs.detect.
  destruct (run lineImages) as [texts|] eqn:Hrun; [|done]. cbv zeta.
  assert (Hdata : forall e, e ∈ Ocr.individualElements texts ->
            exists q, Grouping.confidence e = Fin q
                      /\ (confidenceThreshold <= q)%Q).
  { intros e He. unfold Ocr.individualElements in He.
    apply list_elem_of_In, in_map_iff in He as (item & <- & Hitem).
    apply filter_In in Hitem as [Hitem _]. apply list_elem_of_In in Hitem.
    exact (run_confidence lineImages texts item Hrun Hitem). }
  destruct grouped; [|by intros [= <-]].
  destruct (groupTextElements_parts engine (Ocr.individualElements texts)
              groupingConfig) as (groups & -> & Hperm & Hne).
  intros [= <-]. cbn [Paragraphs.data Paragraphs.paragraphs].
  split; [exact Hdata|].
  intros paragraphs p [= <-] (g & <- & Hg)%list_elem_of_In%in_map_iff.
  apply list_elem_of_In in Hg.
  assert (Hgroup : Forall (fun e => exists q, Grouping.confidence e = Fin q
                                     /\ (confidenceThreshold <= q)%Q) g).
  { apply Forall_forall. intros e He. apply Hdata. rewrite <- Hperm.
    apply list_elem_of_In, in_concat. exists g.
    split; by apply list_elem_of_In. }
  assert (Hcs : exists cs, map Grouping.confidence g = map Fin cs
                           /\ Forall (fun q => confidenceThreshold <= q)%Q cs).
  { clear -Hgroup. induction Hgroup as [|e g (q & He & Hq) _ (cs & Hcs & Hall)].
    - by exists [].
    - exists (q :: cs). split; [simpl; by rewrite He, Hcs | by constructor]. }
  destruct Hcs as (cs & Hcs & Hall).
  rewrite Forall_forall in Hne. specialize (Hne g Hg).
  assert (Hlen : length g = length cs).
  { by rewrite <- (length_map Grouping.confidence), Hcs, length_map. }
  unfold Paragraphs.createParagraph. cbv zeta. cbn [Paragraphs.confidence].
  rewrite (ParagraphFacts.fold_confidence _ _ _ Hcs).
  destruct g as [|e g]; [done|]. cbn [length] in *.
  rewrite js_div_len_finite. eexists. split; [reflexivity|].
  intros Hthreshold. apply (Qle_trans _ confidenceThreshold); [done|].
  rewrite fold_left_Qplus, Qplus_0_l.
  pose proof (Qsum_lower cs confidenceThreshold Hall) as Hsum.
  rewrite <- Hlen in Hsum.
  apply Qle_shift_div_l.
  - rewrite <- (Zlt_Qlt 0). lia.
  - by rewrite Qmult_comm.
Qed.

End Detect.

Lemma detect_elements_witness :
  exists result,
    Paragraphs.detect insertion_engine (fun image : nat => image) exampleModel
      dictionaryA true (1 # 2) Grouping.DEFAULT_GROUPING true exampleCrops
    = Some result
    /\ Paragraphs.totalElements result = length (Paragraphs.data result).
Proof.
  eexists. split; [by vm_compute|].
  eapply (detect_elements insertion_engine (fun image : nat => image)
            exampleModel dictionaryA true (1 # 2) Grouping.DEFAULT_GROUPING
            true exampleCrops).
  by vm_compute.
Defined.

Lemma detect_paragraphs_witness :
  exists paragraphs,
    Paragraphs.paragraphs
      <$> Paragraphs.detect insertion_engine (fun image : nat => image)
            exampleModel dictionaryA true (1 # 2) Grouping.DEFAULT_GROUPING
            true exampleCrops
    = Some (Some paragraphs)
    /\ length paragraphs <= 2.
Proof.
  destruct (detect_paragraphs insertion_engine (fun image : nat => image)
              exampleModel dictionaryA true (1 # 2) Grouping.DEFAULT_GROUPING
              exampleCrops _ ltac:(by vm_compute))
    as (paragraphs & Hdetect & _ & _ & _ & _ & Hle & _).
  exists paragraphs. split; [by rewrite Hdetect | exact Hle].
Defined.

Lemma detect_confidences_witness :
  exists result,
    Paragraphs.detect insertion_engine (fun image : nat => image) exampleModel
      dictionaryA true (1 # 2) Grouping.DEFAULT_GROUPING true exampleCrops
    = Some result
    /\ forall e, e ∈ Paragraphs.data result ->
         exists q, Grouping.confidence e = Fin q /\ (1 # 2 <= q)%Q.
Proof.
  eexists. split; [by vm_compute|].
  eapply proj1, (detect_confidences insertion_engine (fun image : nat => image)
                   exampleModel dictionaryA true (1 # 2)
                   Grouping.DEFAULT_GROUPING true exampleCrops).
  by vm_compute.
Defined.

End DetectFacts.

(** ** Repeated timesteps and ignored classes *)

Module CollapseFacts.

Import Recognition RecognitionNotions RecognitionFacts.

Local Open Scope nat_scope.

Lemma omap_emittedAt_from dictionary rdc (pre post : list Z) :
  omap (emittedAt dictionary rdc (pre ++ post)) (seq (length pre) (length post))
  = emissions dictionary rdc (last pre) post.
Proof.
  revert pre. induction post as [|c post IH]; intros pre; [done|].
  cbn [length seq emissions]. rewrite omap_cons_app.
  replace (pre ++ c :: post) with ((pre ++ [c]) ++ post)
    by (by rewrite <- app_assoc).
  specialize (IH (pre ++ [c])). rewrite length_app, Nat.add_1_r in IH.
  rewrite IH, last_snoc. clear IH. f_equal.
  replace (emittedAt dictionary rdc ((pre ++ [c]) ++ post) (length pre))
    with (if bool_decide (c ∈ IGNORED_TOKENS) then None
          else if rdc && bool_decide (last pre = Some c) then None
          else dictionaryChar dictionary c).
  { repeat case_match; done. }
  unfold emittedAt. rewrite <- app_assoc.
  rewrite lookup_app_r, Nat.sub_diag by lia. cbn [app lookup list_lookup].
  destruct (bool_decide (c ∈ IGNORED_TOKENS)); [done|].
  destruct rdc; [|done]. cbn [andb].
  destruct pre as [|p pre _] using rev_ind; [done|].
  rewrite last_snoc, length_app, Nat.add_1_r. cbn [Nat.ltb Nat.leb andb].
  replace (S (length pre) - 1) with (length pre) by lia.
  rewrite <- app_assoc, lookup_app_r, Nat.sub_diag by lia. done.
Qed.

(** The characters of a decoded line, by recursion on its classes. *)
Lemma decode_text_emissions dictionary rdc textIndex textProb :
  text (decode dictionary rdc textIndex textProb)
  = trim (collapseWhitespace (removeCarriageReturns
      (join (emissions dictionary rdc None textIndex)))).
Proof.
  rewrite decode_emitted. cbn [text].
  exact (f_equal (fun cs => trim (collapseWhitespace (removeCarriageReturns
                                (join cs))))
           (omap_emittedAt_from dictionary rdc [] textIndex)).
Qed.

Lemma emissions_repeat dictionary prev (pre : list Z) (c : Z) (post : list Z) :
  emissions dictionary true prev (pre ++ c :: c :: post)
  = emissions dictionary true prev (pre ++ c :: post).
Proof.
  revert prev. induction pre as [|p pre IH]; intros prev.
  - cbn [app emissions andb]. f_equal.
    rewrite (bool_decide_eq_true_2 (Some c = Some c)) by done.
    by destruct (bool_decide (c ∈ IGNORED_TOKENS)).
  - cbn [app emissions]. by rewrite IH.
Qed.

Lemma emissions_ignored dictionary rdc prev (pre : list Z) (b : Z)
    (post : list Z) :
  b ∈ IGNORED_TOKENS ->
  head post <> last (option_list prev ++ pre) ->
  emissions dictionary rdc prev (pre ++ b :: post)
  = emissions dictionary rdc prev (pre ++ post).
Proof.
  intros Hb. revert prev. induction pre as [|p pre IH]; intros prev Hpost.
  - cbn [app emissions]. rewrite bool_decide_eq_true_2 by done. cbn [app].
    destruct post as [|d post]; [done|]. cbn [emissions]. f_equal.
    destruct (bool_decide_reflect (d ∈ IGNORED_TOKENS)) as [|Hd]; [done|].
    assert (Hprev : prev <> Some d).
    { intros ->. apply Hpost. done. }
    rewrite (bool_decide_eq_false_2 (prev = Some d)) by done.
    rewrite (bool_decide_eq_false_2 (Some b = Some d)) by congruence.
    by rewrite !andb_false_r.
  - cbn [app emissions]. f_equal. apply IH.
    intros Hd. apply Hpost. rewrite Hd.
    destruct prev; cbn [option_list app]; by rewrite ?last_cons_cons.
Qed.

(** X19: with [removeDuplicateChars] enabled, repeating a timestep does
    not change the text: a line whose classes have some class twice in a
    row decodes to the same text as the line with that class once,
    whatever the probabilities. *)
Theorem decode_repeated_timestep (dictionary : list jsstring)
    (pre : list Z) (c : Z) (post : list Z) (textProb textProb' : list jsnum) :
  text (decode dictionary true (pre ++ c :: c :: post) textProb)
  = text (decode dictionary true (pre ++ c :: post) textProb').
Proof. by rewrite !decode_text_emissions, emissions_repeat. Qed.

(** X20: an ignored class between two timesteps of different classes
    does not change the text: when the timestep after it and the timestep
    before it differ in class, or only one of the two exists, the line
    decodes to the same text with and without it. *)
Theorem decode_ignored_between (dictionary : list jsstring)
    (removeDuplicateChars : bool) (pre : list Z) (b : Z) (post : list Z)
    (textProb textProb' : list jsnum) :
  b ∈ IGNORED_TOKENS ->
  head post <> last pre ->
  text (decode dictionary removeDuplicateChars (pre ++ b :: post) textProb)
  = text (decode dictionary removeDuplicateChars (pre ++ post) textProb').
Proof.
  intros Hb Hpost. rewrite !decode_text_emissions.
  by rewrite emissions_ignored.
Qed.

Lemma decode_ignored_between_witness :
  text (decode dictionaryA true [5; 0; 7]%Z [Fin 1; Fin 1; Fin 1])
  = text (decode dictionaryA true [5; 7]%Z [Fin 1; Fin 1]).
Proof.
  apply (decode_ignored_between dictionaryA true [5%Z] 0%Z [7%Z]).
  - by left.
  - done.
Defined.

End CollapseFacts.

(** ** Model inputs and the detection map *)

Module ImagingFacts.

Import Imaging.
Import Lqa.

Local Open Scope nat_scope.

Section Channels.

Context (mean std : Q * Q * Q).
Context (image : ImageRaw).

Lemma channelsLoop_pixels (k fuel i : nat) :
  i + 4 * k = length (data image) -> k <= fuel ->
  channelsLoop mean std image fuel i
  = (map (fun p => channel (data image !! (i + 4 * p)) mean.1.1 std.1.1)
       (seq 0 k),
     map (fun p => channel (data image !! (i + 4 * p + 1)) mean.1.2 std.1.2)
       (seq 0 k),
     map (fun p => channel (data image !! (i + 4 * p + 2)) mean.2 std.2)
       (seq 0 k)).
Proof.
  revert fuel i. induction k as [|k IH]; intros fuel i Hlen Hfuel.
  { destruct fuel as [|fuel]; [done|]. cbn [channelsLoop].
    destruct (Nat.ltb_spec i (length (data image))); [lia | done]. }
  destruct fuel as [|fuel]; [lia|]. cbn [channelsLoop].
  destruct (Nat.ltb_spec i (length (data image))); [|lia].
  rewrite (IH fuel (i + 4)) by lia.
  cbn [seq map]. rewrite <- seq_shift, !map_map.
  rewrite !Nat.mul_0_r, !Nat.add_0_r.
  f_equal; [f_equal|]; f_equal; apply map_ext; intros p; do 2 f_equal; lia.
Qed.

End Channels.

Lemma channel_default (v : N) :
  exists q, channel (Some v) 0 1 = Fin q /\ (q == inject_Z (Z.of_N v) / 255)%Q.
Proof.
  eexists. split; [reflexivity|]. field.
Qed.

(** X21: the model input is planar, in the order blue, green, red, and
    without the alpha channel.  For an image of [n] pixels (4 bytes
    each) and the default [mean] and [std], the input has [3 * n]
    numbers and keeps the width and the height; entry [p] is the blue
    byte of pixel [p] divided by 255, entry [n + p] its green byte and
    entry [2 * n + p] its red byte, divided by 255. *)
Theorem imageToInput_planar_bgr (image : ImageRaw) (n : nat) :
  length (data image) = 4 * n ->
  let input := imageToInput defaultMean defaultStd image in
  md_width input = width image
  /\ md_height input = height image
  /\ length (md_data input) = 3 * n
  /\ forall p r g b,
       data image !! (4 * p) = Some r ->
       data image !! (4 * p + 1) = Some g ->
       data image !! (4 * p + 2) = Some b ->
       exists qb qg qr,
         md_data input !! p = Some (Fin qb)
         /\ md_data input !! (n + p) = Some (Fin qg)
         /\ md_data input !! (2 * n + p) = Some (Fin qr)
         /\ (qb == inject_Z (Z.of_N b) / 255)%Q
         /\ (qg == inject_Z (Z.of_N g) / 255)%Q
         /\ (qr == inject_Z (Z.of_N r) / 255)%Q.
Proof.
  intros Hlen. unfold imageToInput.
  rewrite (channelsLoop_pixels defaultMean defaultStd image n) by lia.
  cbv zeta. cbn [md_width md_height md_data].
  split; [done|]. split; [done|]. split.
  { rewrite !length_app, !length_map, !length_seq. lia. }
  intros p r g b Hr Hg Hb.
  assert (Hp : p < n).
  { apply lookup_lt_Some in Hr. lia. }
  destruct (channel_default b) as (qb & Hqb & Heqb).
  destruct (channel_default g) as (qg & Hqg & Heqg).
  destruct (channel_default r) as (qr & Hqr & Heqr).
  exists qb, qg, qr. cbn [defaultMean defaultStd fst snd].
  split; [|split; [|split; [|done]]].
  - rewrite lookup_app_l by (rewrite length_map, length_seq; lia).
    rewrite RecognitionFacts.lookup_map, lookup_seq_lt by done.
    cbn [fmap option_fmap option_map Nat.add]. by rewrite Hb, Hqb.
  - rewrite lookup_app_r by (rewrite length_map, length_seq; lia).
    rewrite length_map, length_seq.
    rewrite lookup_app_l by (rewrite length_map, length_seq; lia).
    replace (n + p - n) with p by lia.
    rewrite RecognitionFacts.lookup_map, lookup_seq_lt by done.
    cbn [fmap option_fmap option_map Nat.add]. by rewrite Hg, Hqg.
  - rewrite lookup_app_r by (rewrite length_map, length_seq; lia).
    rewrite length_map, length_seq.
    rewrite lookup_app_r by (rewrite length_map, length_seq; lia).
    rewrite length_map, length_seq.
    replace (2 * n + p - n - n) with p by lia.
    rewrite RecognitionFacts.lookup_map, lookup_seq_lt by done.
    cbn [fmap option_fmap option_map Nat.add]. by rewrite Hr, Hqr.
Qed.

Lemma imageToInput_planar_bgr_witness :
  length (md_data (imageToInput defaultMean defaultStd twoPixels)) = 6.
Proof.
  apply (imageToInput_planar_bgr twoPixels 2). reflexivity.
Defined.

Section Pixels.

Context (threshold : Q).

Local Abbreviation value :=
  (fun outValue : Q => if Qltb threshold outValue then 255%N else 0%N).

Lemma writePixel_length (data : list N) (outValue : Q) (outIndex : nat) :
  length (writePixel threshold data outValue outIndex) = length data.
Proof. unfold writePixel. by rewrite !length_insert. Qed.

Lemma forEach_length (values : list Q) (outIndex : nat) (data : list N) :
  length (forEach threshold values outIndex data) = length data.
Proof.
  revert outIndex data. induction values as [|v values IH]; intros i d; [done|].
  cbn [forEach]. by rewrite IH, writePixel_length.
Qed.

Lemma writePixel_untouched (data : list N) (outValue : Q) (outIndex k : nat) :
  k < outIndex * 4 \/ outIndex * 4 + 4 <= k ->
  writePixel threshold data outValue outIndex !! k = data !! k.
Proof.
  intros Hk. unfold writePixel. by rewrite !list_lookup_insert_ne by lia.
Qed.

Lemma writePixel_written (data : list N) (outValue : Q) (outIndex c : nat) :
  c < 4 -> outIndex * 4 + c < length data ->
  writePixel threshold data outValue outIndex !! (outIndex * 4 + c)
  = Some (if decide (c = 3) then 255%N else value outValue).
Proof.
  intros Hc Hlen. unfold writePixel.
  destruct c as [|[|[|[|c]]]]; [| | |by rewrite list_lookup_insert_eq
                                        by (by rewrite !length_insert)|lia].
  - rewrite Nat.add_0_r, list_lookup_insert_ne by lia.
    by rewrite list_lookup_insert_eq by (rewrite !length_insert; lia).
  - rewrite !list_lookup_insert_ne by lia.
    by rewrite list_lookup_insert_eq by (rewrite !length_insert; lia).
  - rewrite !list_lookup_insert_ne by lia.
    by rewrite list_lookup_insert_eq by lia.
Qed.

Lemma forEach_untouched (values : list Q) (outIndex : nat) (data : list N)
    (k : nat) :
  k < outIndex * 4 \/ (outIndex + length values) * 4 <= k ->
  forEach threshold values outIndex data !! k = data !! k.
Proof.
  revert outIndex data. induction values as [|v values IH]; intros i d Hk;
    [done|].
  cbn [forEach length] in *. rewrite IH by lia.
  apply writePixel_untouched. lia.
Qed.

Lemma forEach_written (values : list Q) (outIndex : nat) (data : list N)
    (j c : nat) (v : Q) :
  values !! j = Some v -> c < 4 -> (outIndex + j) * 4 + c < length data ->
  forEach threshold values outIndex data !! ((outIndex + j) * 4 + c)
  = Some (if decide (c = 3) then 255%N else value v).
Proof.
  revert outIndex data j.
  induction values as [|w values IH]; intros i d j Hv Hc Hlen; [done|].
  cbn [forEach]. destruct j as [|j].
  - injection Hv as ->. rewrite Nat.add_0_r in *.
    rewrite forEach_untouched by lia. by apply writePixel_written.
  - replace (i + S j) with (S i + j) in * by lia.
    apply IH; [done | done | by rewrite writePixel_length].
Qed.

(** The bytes that [forEach] leaves in an array of [n] pixels. *)
Lemma forEach_pixels (values : list Q) (n p : nat) :
  p < n ->
  take 4 (drop (p * 4) (forEach threshold values 0 (replicate (n * 4) 0%N)))
  = match values !! p with
    | Some outValue =>
        if Qltb threshold outValue then [255; 255; 255; 255]%N
        else [0; 0; 0; 255]%N
    | None => [0; 0; 0; 0]%N
    end.
Proof.
  intros Hp.
  assert (Hlen : length (forEach threshold values 0 (replicate (n * 4) 0%N))
                 = n * 4).
  { by rewrite forEach_length, length_replicate. }
  set (bytes := forEach threshold values 0 (replicate (n * 4) 0%N)) in *.
  assert (Hfour : forall c b, c < 4 ->
            bytes !! (p * 4 + c) = Some b ->
            take 4 (drop (p * 4) bytes) !! c = Some b).
  { intros c b Hc Hb. rewrite lookup_take_lt, lookup_drop by done. done. }
  assert (Hpix : forall b0 b1 b2 b3,
            bytes !! (p * 4 + 0) = Some b0 -> bytes !! (p * 4 + 1) = Some b1 ->
            bytes !! (p * 4 + 2) = Some b2 -> bytes !! (p * 4 + 3) = Some b3 ->
            take 4 (drop (p * 4) bytes) = [b0; b1; b2; b3]).
  { intros b0 b1 b2 b3 H0 H1 H2 H3. apply list_eq. intros [|[|[|[|c]]]].
    - by apply Hfour; [lia|].
    - by apply Hfour; [lia|].
    - by apply Hfour; [lia|].
    - by apply Hfour; [lia|].
    - cbn [lookup list_lookup]. apply lookup_ge_None_2.
      rewrite length_take. lia. }
  destruct (values !! p) as [v|] eqn:Hv.
  - pose proof (fun c Hc =>
                  forEach_written values 0 (replicate (n * 4) 0%N)
                    p c v Hv Hc) as Hw.
    cbn [Nat.add] in Hw. fold bytes in Hw.
    rewrite (Hpix (value v) (value v) (value v) 255%N).
    + by destruct (Qltb threshold v).
    + rewrite Hw; [done | lia | rewrite length_replicate; lia].
    + rewrite Hw; [done | lia | rewrite length_replicate; lia].
    + rewrite Hw; [done | lia | rewrite length_replicate; lia].
    + rewrite Hw; [done | lia | rewrite length_replicate; lia].
  - apply lookup_ge_None_1 in Hv.
    assert (Hu : forall c, c < 4 -> bytes !! (p * 4 + c) = Some 0%N).
    { intros c Hc. unfold bytes. rewrite forEach_untouched by lia.
      apply lookup_replicate_2. lia. }
    apply Hpix; apply Hu; lia.
Qed.

(** X22: the image of the detection map.  For a map without pixels
    ([dims[2]] or [dims[3]] is zero) the constructor of the image raises
    an error.  Otherwise [outputToImage] returns an image of [dims[3]] by
    [dims[2]] pixels of four bytes: the pixel of a value above the
    threshold is white and opaque, that of any other value black and
    opaque; a pixel for which the map has no value stays transparent
    black, and values beyond the last pixel are dropped. *)
Theorem outputToImage_pixels (output : DetectionMap) :
  (dims3 output * dims2 output = 0 -> outputToImage threshold output = None)
  /\ (0 < dims3 output * dims2 output ->
      exists image,
        outputToImage threshold output = Some image
        /\ width image = dims3 output
        /\ height image = dims2 output
        /\ length (data image) = dims3 output * dims2 output * 4
        /\ forall p, p < dims3 output * dims2 output ->
             pixelAt image p
             = match map_data output !! p with
               | Some outValue =>
                   if Qltb threshold outValue then [255; 255; 255; 255]%N
                   else [0; 0; 0; 255]%N
               | None => [0; 0; 0; 0]%N
               end).
Proof.
  unfold outputToImage, newImageRaw. cbv zeta.
  rewrite forEach_length, length_replicate.
  set (n := dims3 output * dims2 output). split.
  - intros Hn. rewrite Hn. done.
  - intros Hn.
    assert (Hw : 0 < dims3 output) by (unfold n in Hn; nia).
    assert (Hh : 0 < dims2 output) by (unfold n in Hn; nia).
    rewrite (proj2 (Nat.ltb_lt 0 (n * 4))) by lia.
    rewrite (proj2 (Nat.ltb_lt 0 _) Hw), (proj2 (Nat.ltb_lt 0 _) Hh).
    eexists. split; [reflexivity|]. cbn [width height data].
    split; [done|]. split; [done|].
    split; [by rewrite forEach_length, length_replicate|].
    intros p Hp. unfold pixelAt. cbn [data]. by apply forEach_pixels.
Qed.

End Pixels.

Lemma outputToImage_pixels_witness :
  exists image,
    outputToImage (1 # 10) fourValues = Some image
    /\ pixelAt image 0 = [255; 255; 255; 255]%N
    /\ pixelAt image 1 = [0; 0; 0; 255]%N
    /\ pixelAt image 2 = [0; 0; 0; 255]%N.
Proof.
  destruct (outputToImage_pixels (1 # 10) fourValues) as [_ Hsome].
  destruct Hsome as (image & Himage & _ & _ & _ & Hpixels); [simpl; lia|].
  exists image. split; [exact Himage|].
  split; [|split]; by rewrite Hpixels by (simpl; lia).
Defined.

Section Sizes.

Context (fl : Q -> Q) (Hfl : Rounding fl).
Context (M B : Z).
Context (HB : (0 < B <= 2 ^ 31)%Z) (HM : (0 <= M <= 2 ^ 31)%Z).

Local Open Scope Q_scope.

Lemma fl_ext (x y : Q) : x == y -> fl x == fl y.
Proof.
  intros Hxy. apply Qle_antisym; apply (fl_monotone fl Hfl); rewrite Hxy;
    apply Qle_refl.
Qed.

Lemma fl_0 : fl 0 == 0.
Proof. apply (fl_whole fl Hfl 0). lia. Qed.

Lemma fl_nonneg (x : Q) : 0 <= x -> 0 <= fl x.
Proof. intros Hx. rewrite <- fl_0. by apply (fl_monotone fl Hfl). Qed.

Lemma fl_below (x : Q) (z : Z) :
  (0 <= z <= 2 ^ 53)%Z -> x <= inject_Z z -> fl x <= inject_Z z.
Proof.
  intros Hz Hx. rewrite <- (fl_whole fl Hfl z Hz). by apply (fl_monotone fl Hfl).
Qed.

Lemma normalMin_small : normalMin <= 1 # 4611686018427387904.
Proof. by vm_compute. Qed.

Lemma normalMax_large : 4611686018427387904 <= normalMax.
Proof. by vm_compute. Qed.

Lemma inject_Z_bound31 (z : Z) : (z <= 2 ^ 31)%Z -> inject_Z z <= 2147483648.
Proof. intros Hz. by rewrite Zle_Qle in Hz. Qed.

Lemma inject_Z_pos (z : Z) : (1 <= z)%Z -> 1 <= inject_Z z.
Proof. intros Hz. by rewrite Zle_Qle in Hz. Qed.

Lemma Qdiv_le_mult (a b c : Q) : 0 < b -> a / b <= c -> a <= c * b.
Proof.
  intros Hb H. assert (E : a / b * b == a) by (field; lra).
  rewrite <- E. apply Qmult_le_compat_r; lra.
Qed.

Lemma Qdiv_lt_mult (a b c : Q) : 0 < b -> c < a / b -> c * b < a.
Proof.
  intros Hb H. assert (E : a / b * b == a) by (field; lra).
  rewrite <- E. by apply Qmult_lt_compat_r.
Qed.

Lemma Qceiling_unique (q : Q) (c : Z) :
  inject_Z c - 1 < q <= inject_Z c -> Qceiling q = c.
Proof.
  intros [Hlo Hhi]. apply Z.le_antisymm.
  - rewrite <- (Qceiling_Z c). by apply Qceiling_resp_le.
  - pose proof (Qle_ceiling q) as Hq.
    assert (H : inject_Z c - 1 < inject_Z (Qceiling q)) by lra.
    change 1 with (inject_Z 1) in H. unfold Qminus in H.
    rewrite <- inject_Z_opp, <- inject_Z_plus, <- Zlt_Qlt in H. lia.
Qed.

(** When the rounded quotient lies in the unit interval below the whole
    number [c], the result is the base size times [c], or the base size
    itself. *)
Lemma roundUp_ceiling (x : Q) (c : Z) :
  (0 <= c)%Z -> (c * B <= 2 ^ 53)%Z ->
  inject_Z c - 1 < fl (x / inject_Z B) <= inject_Z c ->
  exists r, roundUp fl (inject_Z B) x = Fin r
            /\ r == inject_Z (Z.max c 1 * B).
Proof.
  intros Hc HcB Hq. unfold roundUp.
  destruct (Qeq_bool (inject_Z B) 0) eqn:E.
  { apply Qeq_bool_iff in E. change 0 with (inject_Z 0) in E.
    apply (proj1 (inject_Z_injective _ _)) in E. lia. }
  rewrite (Qceiling_unique _ c Hq). eexists. split; [reflexivity|].
  assert (Hprod : fl (inject_Z c * inject_Z B) == inject_Z (c * B)).
  { rewrite <- (fl_whole fl Hfl (c * B)) by nia.
    apply fl_ext. by rewrite inject_Z_mult. }
  rewrite Hprod.
  destruct (Z.max_spec c 1) as [[Hlt ->]|[Hge ->]].
  - rewrite Z.mul_1_l. apply Q.max_r. rewrite <- Zle_Qle. nia.
  - apply Q.max_l. rewrite <- Zle_Qle. nia.
Qed.

(** A side that is not scaled is rounded up to the next multiple of the
    base size, whatever the rounding of its quotient. *)
Lemma roundUp_side (s : Z) :
  (1 <= s <= 2 ^ 31)%Z ->
  exists (k : Z) (r : Q),
    roundUp fl (inject_Z B) (inject_Z s) = Fin r
    /\ r == inject_Z (k * B)
    /\ (1 <= k)%Z /\ (s <= k * B < s + B)%Z.
Proof.
  intros Hs.
  set (c := Qceiling (inject_Z s / inject_Z B)).
  assert (HBq : 1 <= inject_Z B) by (apply inject_Z_pos; lia).
  assert (HBhi : inject_Z B <= 2147483648) by (apply inject_Z_bound31; lia).
  assert (Hsq : 1 <= inject_Z s) by (apply inject_Z_pos; lia).
  assert (Hshi : inject_Z s <= 2147483648) by (apply inject_Z_bound31; lia).
  assert (Hup : (s <= c * B)%Z).
  { pose proof (Qle_ceiling (inject_Z s / inject_Z B)) as H. fold c in H.
    apply Qdiv_le_mult in H; [|lra].
    rewrite <- inject_Z_mult, <- Zle_Qle in H. exact H. }
  assert (Hdown : ((c - 1) * B < s)%Z).
  { pose proof (Qceiling_lt (inject_Z s / inject_Z B)) as H. fold c in H.
    apply Qdiv_lt_mult in H; [|lra].
    rewrite <- inject_Z_mult, <- Zlt_Qlt in H. exact H. }
  assert (Hc : (1 <= c)%Z) by nia.
  assert (HcB : (c * B <= 2 ^ 32)%Z) by nia.
  destruct (roundUp_ceiling (inject_Z s) c) as (r & Hr & Hrc); [lia | lia | |].
  - split.
    + destruct (fl_error fl Hfl (inject_Z s / inject_Z B)) as [Hlo _].
      { pose proof normalMin_small. pose proof normalMax_large. split.
        - apply (Qle_trans _ (1 # 4611686018427387904)); [done|].
          apply Qle_shift_div_l; lra.
        - apply (Qle_trans _ 4611686018427387904); [|done].
          apply Qle_shift_div_r; lra. }
      eapply Qlt_le_trans; [|exact Hlo].
      assert (Hs1 : inject_Z (c - 1) * inject_Z B + 1 <= inject_Z s).
      { change 1 with (inject_Z 1).
        rewrite <- inject_Z_mult, <- inject_Z_plus, <- Zle_Qle. lia. }
      assert (Hc1 : inject_Z (c - 1) == inject_Z c - 1).
      { unfold Z.sub. by rewrite inject_Z_plus. }
      rewrite Hc1 in Hs1.
      assert (Heq : inject_Z s / inject_Z B * (1 - unitRoundoff)
                    == inject_Z s * (1 - unitRoundoff) / inject_Z B)
        by (field; lra).
      rewrite Heq. apply Qlt_shift_div_l; [lra|]. unfold unitRoundoff. lra.
    + apply fl_below; [lia|].
      pose proof (Qle_ceiling (inject_Z s / inject_Z B)) as H. by fold c in H.
  - exists c, r. rewrite Z.max_l in Hrc by lia.
    split; [done|]. split; [done|]. split; [done|]. lia.
Qed.

(** A side of an image over the limit, scaled by the rounded ratio of the
    limit to the longer side [L]: the result is a multiple of the base
    size that is at most the limit plus the base size. *)
Lemma roundUp_scaled (s L : Z) :
  (1 <= s <= L)%Z -> (L <= 2 ^ 31)%Z -> (1 <= M < L)%Z ->
  exists (k : Z) (r : Q),
    roundUp fl (inject_Z B)
      (fl (inject_Z s * fl (inject_Z M / inject_Z L))) = Fin r
    /\ r == inject_Z (k * B)
    /\ (1 <= k)%Z /\ (k * B <= M + B)%Z.
Proof.
  intros Hs HL HML.
  assert (HBq : 1 <= inject_Z B) by (apply inject_Z_pos; lia).
  assert (Hsq : 1 <= inject_Z s) by (apply inject_Z_pos; lia).
  assert (HLq : 1 <= inject_Z L) by (apply inject_Z_pos; lia).
  assert (HMq : 1 <= inject_Z M) by (apply inject_Z_pos; lia).
  assert (HLhi : inject_Z L <= 2147483648) by (apply inject_Z_bound31; lia).
  assert (HMhi : inject_Z M <= 2147483648) by (apply inject_Z_bound31; lia).
  assert (HsL : inject_Z s <= inject_Z L) by (rewrite <- Zle_Qle; lia).
  assert (HMlt : inject_Z M < inject_Z L) by (rewrite <- Zlt_Qlt; lia).
  set (ratio := fl (inject_Z M / inject_Z L)).
  assert (Hratio0 : 0 <= ratio).
  { apply fl_nonneg. apply Qle_shift_div_l; lra. }
  assert (Hratio : ratio * inject_Z L <= inject_Z M + 1).
  { destruct (fl_error fl Hfl (inject_Z M / inject_Z L)) as [_ Hhi].
    { pose proof normalMin_small. pose proof normalMax_large. split.
      - apply (Qle_trans _ (1 # 4611686018427387904)); [done|].
        apply Qle_shift_div_l; lra.
      - apply (Qle_trans _ 4611686018427387904); [|done].
        apply Qle_shift_div_r; lra. }
    fold ratio in Hhi.
    assert (Heq : inject_Z M / inject_Z L * (1 + unitRoundoff) * inject_Z L
                  == inject_Z M * (1 + unitRoundoff)) by (field; lra).
    assert (Hmul : ratio * inject_Z L
                   <= inject_Z M / inject_Z L * (1 + unitRoundoff) * inject_Z L).
    { apply Qmult_le_compat_r; [done | lra]. }
    rewrite Heq in Hmul. unfold unitRoundoff in Hmul. lra. }
  set (K := (M / B + 1)%Z).
  assert (HK : (M < K * B /\ (K - 1) * B <= M /\ 1 <= K)%Z).
  { unfold K. pose proof (Z.div_mod M B ltac:(lia)) as Hdiv.
    pose proof (Z.mod_pos_bound M B ltac:(lia)) as Hmod.
    assert (0 <= M / B)%Z by (apply Z.div_pos; lia). nia. }
  destruct HK as (HK1 & HK2 & HK3).
  assert (HKB : inject_Z M + 1 <= inject_Z (K * B)).
  { change 1 with (inject_Z 1). rewrite <- inject_Z_plus, <- Zle_Qle. lia. }
  assert (Hprod : inject_Z s * ratio <= inject_Z (K * B)).
  { assert (H : 0 <= (inject_Z L - inject_Z s) * ratio)
      by (apply Qmult_le_0_compat; lra).
    lra. }
  set (x := fl (inject_Z s * ratio)).
  assert (Hx0 : 0 <= x).
  { apply fl_nonneg. apply Qmult_le_0_compat; lra. }
  assert (Hx : x <= inject_Z (K * B)) by (apply fl_below; [nia | done]).
  set (q := fl (x / inject_Z B)).
  assert (Hq0 : 0 <= q).
  { apply fl_nonneg. apply Qle_shift_div_l; lra. }
  assert (Hq : q <= inject_Z K).
  { apply fl_below; [nia|]. apply Qle_shift_div_r; [lra|].
    by rewrite <- inject_Z_mult. }
  set (c := Qceiling q).
  assert (Hc0 : (0 <= c)%Z).
  { pose proof (Qle_ceiling q) as H. fold c in H.
    assert (H' : inject_Z 0 <= inject_Z c) by (change (inject_Z 0) with 0; lra).
    by rewrite <- Zle_Qle in H'. }
  assert (HcK : (c <= K)%Z).
  { unfold c. rewrite <- (Qceiling_Z K). by apply Qceiling_resp_le. }
  destruct (roundUp_ceiling x c) as (r & Hr & Hrc); [done | nia | |].
  - fold q. split.
    + pose proof (Qceiling_lt q) as H. fold c in H. unfold Z.sub in H.
      rewrite inject_Z_plus in H. exact H.
    + apply Qle_ceiling.
  - exists (Z.max c 1), r. split; [done|]. split; [done|]. split; nia.
Qed.

(** X23: the size that the detection model gets, whatever the rounding of
    the arithmetic.  For a base size and a limit [maxImageSize] that are
    whole numbers, the base size positive and the limit not negative, and
    for an image with pixels (all of them at most [2^31]), both sides are
    the base size times a whole number that is at least 1.  When the image
    is not over the limit (or the limit is zero, which means none) every
    side is the side of the image rounded up to the next multiple of the
    base size; in every case with a positive limit, both sides are at most
    the limit plus the base size. *)
Theorem multipleOfBaseSize_multiples (image : ImageRaw) :
  (0 < Z.of_nat (width image) <= 2 ^ 31)%Z ->
  (0 < Z.of_nat (height image) <= 2 ^ 31)%Z ->
  exists (kw kh : Z) (w h : Q),
    multipleOfBaseSize fl (inject_Z M) (inject_Z B) image = (Fin w, Fin h)
    /\ w == inject_Z (kw * B) /\ h == inject_Z (kh * B)
    /\ (1 <= kw)%Z /\ (1 <= kh)%Z
    /\ ((M = 0 \/ Z.of_nat (width image) `max` Z.of_nat (height image) <= M)%Z ->
        (Z.of_nat (width image) <= kw * B < Z.of_nat (width image) + B)%Z
        /\ (Z.of_nat (height image) <= kh * B < Z.of_nat (height image) + B)%Z)
    /\ ((0 < M)%Z -> (kw * B <= M + B)%Z /\ (kh * B <= M + B)%Z).
Proof.
  intros Hw Hh. unfold multipleOfBaseSize.
  set (iw := Z.of_nat (width image)) in *.
  set (ih := Z.of_nat (height image)) in *.
  assert (Hmaxq : Qmax (inject_Z iw) (inject_Z ih) == inject_Z (iw `max` ih)).
  { destruct (Z.max_spec iw ih) as [[Hlt ->]|[Hge ->]].
    - apply Q.max_r. rewrite <- Zle_Qle. lia.
    - apply Q.max_l. rewrite <- Zle_Qle. lia. }
  destruct (negb (Qeq_bool (inject_Z M) 0)
            && Qltb (inject_Z M) (Qmax (inject_Z iw) (inject_Z ih))) eqn:Eover.
  - apply andb_true_iff in Eover as [E0 Eover].
    apply negb_true_iff, Qeq_bool_neq in E0. apply Qltb_lt in Eover.
    rewrite Hmaxq, <- Zlt_Qlt in Eover.
    assert (HM0 : (M <> 0)%Z) by (intros ->; by apply E0).
    assert (Hratio : exists L : Z,
              (if Qltb (inject_Z ih) (inject_Z iw)
               then js_div (inject_Z M) (inject_Z iw)
               else js_div (inject_Z M) (inject_Z ih))
              = Fin (inject_Z M / inject_Z L)
              /\ L = (iw `max` ih)%Z).
    { unfold js_div. destruct (Qltb (inject_Z ih) (inject_Z iw)) eqn:Ewide.
      - apply Qltb_lt in Ewide. rewrite <- Zlt_Qlt in Ewide. exists iw.
        destruct (Qeq_bool (inject_Z iw) 0) eqn:Ez.
        { apply Qeq_bool_iff in Ez. change 0 with (inject_Z 0) in Ez.
          apply (proj1 (inject_Z_injective _ _)) in Ez. lia. }
        split; [done | lia].
      - apply Qltb_ge in Ewide. rewrite <- Zle_Qle in Ewide. exists ih.
        destruct (Qeq_bool (inject_Z ih) 0) eqn:Ez.
        { apply Qeq_bool_iff in Ez. change 0 with (inject_Z 0) in Ez.
          apply (proj1 (inject_Z_injective _ _)) in Ez. lia. }
        split; [done | lia]. }
    destruct Hratio as (L & -> & HL). cbv zeta.
    destruct (roundUp_scaled iw L) as (kw & w & -> & Hwk & Hkw & Hwhi);
      [lia | lia | lia |].
    destruct (roundUp_scaled ih L) as (kh & h & -> & Hhk & Hkh & Hhhi);
      [lia | lia | lia |].
    exists kw, kh, w, h. split; [done|]. split; [done|]. split; [done|].
    split; [done|]. split; [done|]. split; [lia | done].
  - assert (Hplain : (M = 0 \/ iw `max` ih <= M)%Z).
    { destruct (Qeq_bool (inject_Z M) 0) eqn:E0; cbn [negb andb] in Eover.
      - left. apply Qeq_bool_iff in E0. change 0 with (inject_Z 0) in E0.
        by apply (proj1 (inject_Z_injective _ _)) in E0.
      - right. apply Qltb_ge in Eover. by rewrite Hmaxq, <- Zle_Qle in Eover. }
    destruct (roundUp_side iw) as (kw & w & -> & Hwk & Hkw & Hwb); [lia|].
    destruct (roundUp_side ih) as (kh & h & -> & Hhk & Hkh & Hhb); [lia|].
    exists kw, kh, w, h. split; [done|]. split; [done|]. split; [done|].
    split; [done|]. split; [done|]. split; [done|]. lia.
Qed.

End Sizes.

Lemma multipleOfBaseSize_multiples_witness :
  exists (kw kh : Z) (w h : Q),
    multipleOfBaseSize (fun x => x) 960 32 (mkImageRaw [] 1920 1080)
    = (Fin w, Fin h)
    /\ (w == inject_Z (kw * 32))%Q /\ (h == inject_Z (kh * 32))%Q
    /\ (kw * 32 <= 960 + 32)%Z /\ (kh * 32 <= 960 + 32)%Z.
Proof.
  assert (Hfl : Rounding (fun x => x)).
  { split.
    - by intros x y Hxy.
    - intros z _. apply Qeq_refl.
    - intros x [Hx _].
      assert (H0 : (0 <= x)%Q).
      { apply (Qle_trans _ normalMin); [by vm_compute | done]. }
      unfold unitRoundoff. split; Lqa.lra. }
  destruct (multipleOfBaseSize_multiples (fun x => x) Hfl 960 32
              ltac:(lia) ltac:(lia) (mkImageRaw [] 1920 1080))
    as (kw & kh & w & h & Heq & Hw & Hh & _ & _ & _ & Hmax);
    [simpl; lia | simpl; lia |].
  exists kw, kh, w, h. split; [exact Heq|]. split; [exact Hw|].
  split; [exact Hh|]. apply Hmax. lia.
Defined.

End ImagingFacts.

(** ** The crops of the region extractor *)

Module LineImagesFacts.

Import Detection LineImages.

Local Open Scope R_scope.

Lemma Math_floor_le (v : R) : IZR (Math_floor v) <= v.
Proof. unfold Math_floor. pose proof (base_Int_part v). lra. Qed.

Lemma Math_floor_ge (z : Z) (v : R) : IZR z <= v -> (z <= Math_floor v)%Z.
Proof.
  intros Hz. unfold Math_floor. pose proof (base_Int_part v) as [_ Hlt].
  assert (H : IZR z < IZR (Int_part v + 1)) by (rewrite plus_IZR; lra).
  apply lt_IZR in H. lia.
Qed.

Lemma Math_floor_mono (v v' : R) : v <= v' -> (Math_floor v <= Math_floor v')%Z.
Proof.
  intros Hv. apply Math_floor_ge. pose proof (Math_floor_le v). lra.
Qed.

(** [Math.floor(v) > 3] says that [v] is at least 4. *)
Lemma Math_floor_gate (v : R) : (3 <? Math_floor v)%Z = true <-> 4 <= v.
Proof.
  rewrite Z.ltb_lt. split.
  - intros H. pose proof (Math_floor_le v) as Hle.
    assert (H4 : IZR 4 <= IZR (Math_floor v)) by (apply IZR_le; lia).
    lra.
  - intros H. pose proof (Math_floor_ge 4 v H). lia.
Qed.

(** The test [dst.rows / dst.cols >= 1.5] on a matrix with columns. *)
Lemma rows_cols_test (r c : Z) :
  (0 < c)%Z ->
  js_geb (js_div (inject_Z r) (inject_Z c)) (3 # 2) = true
  <-> (3 * c <= 2 * r)%Z.
Proof.
  intros Hc. unfold js_div.
  destruct (Qeq_bool (inject_Z c) 0) eqn:E.
  { apply Qeq_bool_iff in E. unfold Qeq in E. simpl in E. lia. }
  cbn [js_geb]. rewrite Qle_bool_iff.
  unfold Qle, Qdiv, Qmult, Qinv, inject_Z. cbn [Qnum Qden].
  destruct c as [|c|c]; try lia. cbn [Qnum Qden]. lia.
Qed.

Section Crops.

Context {SourceImage Pixels : Type}.
Context (warpPerspective : SourceImage -> list (Z * Z) -> Z -> Z -> Pixels).
Context (warpAffine : Pixels -> Z -> Z -> Pixels).

(** The sides of a crop: those of the warped image, swapped when
    [dst.rows / dst.cols >= 1.5]. *)
Lemma getRotateCropImage_sides (imageRaw : SourceImage)
    (p0 p1 p2 p3 : Z * Z) (more : list (Z * Z)) :
  let across :=
    Math_floor (Rmax (linalgNorm (pointOf p0) (pointOf p1))
                  (linalgNorm (pointOf p2) (pointOf p3))) in
  let down :=
    Math_floor (Rmax (linalgNorm (pointOf p0) (pointOf p3))
                  (linalgNorm (pointOf p1) (pointOf p2))) in
  (0 < across)%Z -> (0 < down)%Z ->
  exists crop,
    getRotateCropImage warpPerspective warpAffine imageRaw
      (p0 :: p1 :: p2 :: p3 :: more)
    = Some crop
    /\ ((2 * down < 3 * across)%Z
        /\ (crop_width crop, crop_height crop) = (across, down)
        \/ (3 * across <= 2 * down)%Z
           /\ (crop_width crop, crop_height crop) = (down, across)).
Proof.
  intros across down Hacross Hdown.
  unfold getRotateCropImage, cvImshow. cbv zeta. cbn [cols rows mat_data].
  fold across down.
  destruct (js_geb (js_div (inject_Z down) (inject_Z across)) (3 # 2)) eqn:E;
    cbn [cols rows mat_data];
    rewrite (proj2 (Z.ltb_lt 0 across) Hacross),
      (proj2 (Z.ltb_lt 0 down) Hdown); cbn [andb].
  - apply rows_cols_test in E; [|lia].
    eexists. split; [reflexivity|]. right. by split.
  - assert (Hlt : ~ (3 * across <= 2 * down)%Z).
    { intros Hle. apply (rows_cols_test down across) in Hle; [|lia].
      by rewrite Hle in E. }
    eexists. split; [reflexivity|]. left. split; [lia | done].
Qed.

(** The floors of the longer opposite edges are at least 4 when the
    edges from corner 0 pass the test of [splitIntoLineImages]. *)
Lemma longer_edges_gate (p0 p1 p2 p3 : Z * Z) :
  (3 <? Math_floor (linalgNorm (pointOf p0) (pointOf p1)))%Z = true ->
  (3 <? Math_floor (linalgNorm (pointOf p0) (pointOf p3)))%Z = true ->
  (4 <= Math_floor (Rmax (linalgNorm (pointOf p0) (pointOf p1))
                      (linalgNorm (pointOf p2) (pointOf p3))))%Z
  /\ (4 <= Math_floor (Rmax (linalgNorm (pointOf p0) (pointOf p3))
                         (linalgNorm (pointOf p1) (pointOf p2))))%Z.
Proof.
  intros Hw%Z.ltb_lt Hh%Z.ltb_lt.
  pose proof (Math_floor_mono _ _
                (Rmax_l (linalgNorm (pointOf p0) (pointOf p1))
                   (linalgNorm (pointOf p2) (pointOf p3)))).
  pose proof (Math_floor_mono _ _
                (Rmax_l (linalgNorm (pointOf p0) (pointOf p3))
                   (linalgNorm (pointOf p1) (pointOf p2)))).
  lia.
Qed.

(** X24: the size of a crop.  For four corners that pass the test of
    [splitIntoLineImages] (the floors of the lengths of the edges from
    corner 0 to corner 1 and from corner 0 to corner 3 are both above 3),
    [getRotateCropImage] returns an image that is at least 4 pixels wide
    and 4 pixels high and less than one and a half times as high as it is
    wide: its sides are the floors of the longer of the two opposite
    edges, swapped when the crop would otherwise be too high. *)
Theorem getRotateCropImage_size (imageRaw : SourceImage)
    (p0 p1 p2 p3 : Z * Z) :
  (3 <? Math_floor (linalgNorm (pointOf p0) (pointOf p1)))%Z = true ->
  (3 <? Math_floor (linalgNorm (pointOf p0) (pointOf p3)))%Z = true ->
  let across :=
    Math_floor (Rmax (linalgNorm (pointOf p0) (pointOf p1))
                  (linalgNorm (pointOf p2) (pointOf p3))) in
  let down :=
    Math_floor (Rmax (linalgNorm (pointOf p0) (pointOf p3))
                  (linalgNorm (pointOf p1) (pointOf p2))) in
  exists crop,
    getRotateCropImage warpPerspective warpAffine imageRaw [p0; p1; p2; p3]
    = Some crop
    /\ (4 <= crop_width crop)%Z /\ (4 <= crop_height crop)%Z
    /\ (2 * crop_height crop < 3 * crop_width crop)%Z
    /\ ((crop_width crop, crop_height crop) = (across, down)
        \/ (crop_width crop, crop_height crop) = (down, across)
           /\ (3 * across <= 2 * down)%Z).
Proof.
  intros Hw Hh across down.
  destruct (longer_edges_gate p0 p1 p2 p3 Hw Hh) as [Hacross Hdown].
  fold across in Hacross. fold down in Hdown.
  destruct (getRotateCropImage_sides imageRaw p0 p1 p2 p3 [])
    as (crop & Hcrop & Hsides); [fold across; lia | fold down; lia|].
  fold across down in Hsides.
  exists crop. split; [exact Hcrop|].
  destruct Hsides as [[Hlt Heq]|[Hle Heq]]; injection Heq as -> ->.
  - repeat split; try lia. by left.
  - repeat split; try lia. right. by split.
Qed.

End Crops.

Lemma linalgNorm_ge (p0 p1 : Point) (v : R) :
  0 <= v -> v ^ 2 <= (fst p0 - fst p1) ^ 2 + (snd p0 - snd p1) ^ 2 ->
  v <= linalgNorm p0 p1.
Proof.
  intros Hv Hsq. unfold linalgNorm. rewrite <- (sqrt_pow2 v) at 1 by done.
  by apply sqrt_le_1_alt.
Qed.

Lemma getRotateCropImage_size_witness :
  exists crop,
    getRotateCropImage (fun (_ : unit) _ _ _ => tt) (fun _ _ _ => tt) tt
      [(0, 0); (10, 0); (10, 5); (0, 5)]%Z
    = Some crop
    /\ (4 <= crop_width crop)%Z /\ (4 <= crop_height crop)%Z
    /\ (2 * crop_height crop < 3 * crop_width crop)%Z.
Proof.
  destruct (getRotateCropImage_size (fun (_ : unit) _ _ _ => tt)
              (fun _ _ _ => tt) tt (0, 0)%Z (10, 0)%Z (10, 5)%Z (0, 5)%Z)
    as (crop & Hcrop & Hw & Hh & Hratio & _).
  - apply Math_floor_gate, linalgNorm_ge; simpl; lra.
  - apply Math_floor_gate, linalgNorm_ge; simpl; lra.
  - by exists crop.
Defined.

(** *** The order of the corners *)

Lemma fold_Rmin_spec (rest : list R) (v : R) :
  fold_left Rmin rest v ∈ v :: rest
  /\ forall u, u ∈ v :: rest -> fold_left Rmin rest v <= u.
Proof.
  revert v. induction rest as [|w rest IH]; intros v; cbn [fold_left].
  { split; [by left|]. intros u ->%list_elem_of_singleton. lra. }
  destruct (IH (Rmin v w)) as [Hin Hle]. split.
  - apply elem_of_cons in Hin as [Hin|Hin].
    + rewrite Hin. unfold Rmin. destruct (Rle_dec v w).
      * by left.
      * right. by left.
    + by do 2 right.
  - intros u Hu.
    pose proof (Hle (Rmin v w) ltac:(by left)) as Hm.
    pose proof (Rmin_l v w). pose proof (Rmin_r v w).
    apply elem_of_cons in Hu as [->|Hu]; [lra|].
    apply elem_of_cons in Hu as [->|Hu]; [lra|].
    apply Hle. by right.
Qed.

Lemma fold_Rmax_spec (rest : list R) (v : R) :
  fold_left Rmax rest v ∈ v :: rest
  /\ forall u, u ∈ v :: rest -> u <= fold_left Rmax rest v.
Proof.
  revert v. induction rest as [|w rest IH]; intros v; cbn [fold_left].
  { split; [by left|]. intros u ->%list_elem_of_singleton. lra. }
  destruct (IH (Rmax v w)) as [Hin Hle]. split.
  - apply elem_of_cons in Hin as [Hin|Hin].
    + rewrite Hin. unfold Rmax. destruct (Rle_dec v w).
      * right. by left.
      * by left.
    + by do 2 right.
  - intros u Hu.
    pose proof (Hle (Rmax v w) ltac:(by left)) as Hm.
    pose proof (Rmax_l v w). pose proof (Rmax_r v w).
    apply elem_of_cons in Hu as [->|Hu]; [lra|].
    apply elem_of_cons in Hu as [->|Hu]; [lra|].
    apply Hle. by right.
Qed.

Lemma indexOfFrom_found (i : Z) (s : list R) (v : R) :
  v ∈ s ->
  exists k : nat, indexOfFrom i s v = (i + Z.of_nat k)%Z /\ s !! k = Some v.
Proof.
  revert i. induction s as [|u s IH]; intros i Hv.
  { by apply elem_of_nil in Hv. }
  cbn [indexOfFrom]. destruct (Req_dec_T u v) as [->|Hne].
  - exists 0%nat. split; [lia | done].
  - apply elem_of_cons in Hv as [->|Hv]; [done|].
    destruct (IH (i + 1)%Z Hv) as (k & Hk & Hs).
    exists (S k). split; [lia | done].
Qed.

(** The two indices that [orderPointsClockwise] looks up: the first
    point with the least and the first with the greatest sum of
    coordinates. *)
Lemma extreme_indices (p : Point) (pts : list Point) :
  let s := map (fun pt => fst pt + snd pt) (p :: pts) in
  exists (kmin kmax : nat) (a c : Point),
    indexOf s (Math_min s) = Z.of_nat kmin
    /\ indexOf s (Math_max s) = Z.of_nat kmax
    /\ (p :: pts) !! kmin = Some a
    /\ (p :: pts) !! kmax = Some c
    /\ forall q, q ∈ p :: pts ->
         fst a + snd a <= fst q + snd q <= fst c + snd c.
Proof.
  intros s. unfold s at 2 4. cbn [map Math_min Math_max indexOf].
  set (f := fun pt : Point => fst pt + snd pt).
  destruct (fold_Rmin_spec (map f pts) (f p)) as [Hmin_in Hmin].
  destruct (fold_Rmax_spec (map f pts) (f p)) as [Hmax_in Hmax].
  change (f p :: map f pts) with s in *.
  destruct (indexOfFrom_found 0 s _ Hmin_in) as (kmin & Hkmin & Hsmin).
  destruct (indexOfFrom_found 0 s _ Hmax_in) as (kmax & Hkmax & Hsmax).
  unfold s in Hsmin, Hsmax.
  change (f p :: map f pts) with (map f (p :: pts)) in Hsmin, Hsmax.
  rewrite RecognitionFacts.lookup_map in Hsmin.
  rewrite RecognitionFacts.lookup_map in Hsmax.
  apply fmap_Some in Hsmin as (a & Ha & Hfa).
  apply fmap_Some in Hsmax as (c & Hc & Hfc).
  exists kmin, kmax, a, c.
  split; [exact (eq_trans Hkmin (Z.add_0_l _))|].
  split; [exact (eq_trans Hkmax (Z.add_0_l _))|].
  split; [done|]. split; [done|].
  intros q Hq.
  assert (Hfq : f q ∈ s).
  { unfold s. apply list_elem_of_In, in_map. by apply list_elem_of_In. }
  rewrite <- Hfa, <- Hfc.
  split; [exact (Hmin _ Hfq) | exact (Hmax _ Hfq)].
Qed.

Ltac in_corners := repeat first [by left | right].

(** For four points, the indices that [orderPointsClockwise] looks up
    are below 4. *)
Ltac extreme_cases p0 p1 p2 p3 Hext :=
  let H := fresh "H" in
  let kmin := fresh "kmin" in
  let kmax := fresh "kmax" in
  let a := fresh "a" in
  let c := fresh "c" in
  let Hkmin := fresh "Hkmin" in
  let Hkmax := fresh "Hkmax" in
  let Ha := fresh "Ha" in
  let Hc := fresh "Hc" in
  pose proof (extreme_indices p0 [p1; p2; p3]) as H; cbv zeta in H;
  destruct H as (kmin & kmax & a & c & Hkmin & Hkmax & Ha & Hc & Hext);
  unfold orderPointsClockwise; cbv zeta; rewrite Hkmin, Hkmax;
  clear Hkmin Hkmax;
  destruct kmin as [|[|[|[|kmin]]]]; try discriminate Ha;
  injection Ha as <-;
  destruct kmax as [|[|[|[|kmax]]]]; try discriminate Hc;
  injection Hc as <-;
  repeat match goal with
    | |- context [others ?i ?imin ?imax ?pts] =>
        let r := eval cbv in (others i imin imax pts) in
        change (others i imin imax pts) with r
    | |- context [Recognition.at_index ?pts ?i] =>
        let r := eval cbv in (Recognition.at_index pts i) in
        change (Recognition.at_index pts i) with r
    end;
  cbv iota.

Lemma orderPointsClockwise_returns (p0 p1 p2 p3 : Point) :
  exists r0 r1 r2 r3,
    orderPointsClockwise [p0; p1; p2; p3] = Some [r0; r1; r2; r3].
Proof.
  extreme_cases p0 p1 p2 p3 Hext; by eexists _, _, _, _.
Qed.

(** X25: the order of the corners.  For four points
    [orderPointsClockwise] returns four points: the first is a point of
    the input with the least sum of coordinates and the third one with
    the greatest sum; the second and the fourth are points of the input
    too, the second not to the left of the fourth.  When the least and the
    greatest sum differ, the result is a rearrangement of the input. *)
Theorem orderPointsClockwise_four (p0 p1 p2 p3 : Point) :
  exists r0 r1 r2 r3,
    orderPointsClockwise [p0; p1; p2; p3] = Some [r0; r1; r2; r3]
    /\ Forall (fun r => r ∈ [p0; p1; p2; p3]) [r0; r1; r2; r3]
    /\ (forall q, q ∈ [p0; p1; p2; p3] ->
          fst r0 + snd r0 <= fst q + snd q <= fst r2 + snd r2)
    /\ fst r3 <= fst r1
    /\ (fst r0 + snd r0 < fst r2 + snd r2 ->
        [r0; r1; r2; r3] ≡ₚ [p0; p1; p2; p3]).
Proof.
  extreme_cases p0 p1 p2 p3 Hext;
    match goal with
    | |- context [Rlt_dec 0 ?d] => destruct (Rlt_dec 0 d) as [Hd|Hd]
    end;
    eexists _, _, _, _; (split; [reflexivity|]);
    (split; [repeat constructor; in_corners|]);
    (split; [exact Hext|]);
    (split; [lra|]);
    intros Hlt; first [lra | solve_Permutation].
Qed.

(** *** The loop over the contours *)

Section Split.

Context {SourceImage Pixels : Type}.
Context (warpPerspective : SourceImage -> list (Z * Z) -> Z -> Z -> Pixels).
Context (warpAffine : Pixels -> Z -> Z -> Pixels).
Context (engine : ArraySort).
Context {Contour : Type}.
Context (minAreaRect : Contour -> RotatedRect).
Context (offsetExecute : list Point -> option R -> list (list Point)).
Context (matFromArray : list R -> Contour).
Context (minSize maxSize unclipRatio : R).
Context (sourceImage : SourceImage).
Context (sourceWidth sourceHeight : nat).
Context (rx ry : R).

Local Abbreviation clamp := (clampPoint sourceWidth sourceHeight).
Local Abbreviation entryOf :=
  (lineImageOf warpPerspective warpAffine engine minAreaRect offsetExecute
     matFromArray minSize maxSize unclipRatio sourceImage sourceWidth
     sourceHeight rx ry).
Local Abbreviation inImage :=
  (fun b : Z * Z =>
     (0 <= fst b <= Z.of_nat sourceWidth)%Z
     /\ (0 <= snd b <= Z.of_nat sourceHeight)%Z).
Local Abbreviation wellCut :=
  (fun er : EdgeRect (Pixels := Pixels) =>
     exists b0 b1 b2 b3,
       box er = [b0; b1; b2; b3]
       /\ Forall inImage (box er)
       /\ 4 <= linalgNorm (pointOf b0) (pointOf b1)
       /\ 4 <= linalgNorm (pointOf b0) (pointOf b3)
       /\ (4 <= crop_width (image er))%Z
       /\ (4 <= crop_height (image er))%Z
       /\ (2 * crop_height (image er) < 3 * crop_width (image er))%Z).

Lemma clampPoint_inImage (item : Point) : inImage (clamp item).
Proof. unfold clampPoint. cbn [fst snd]. lia. Qed.

Local Abbreviation noPath :=
  (fun contour : Contour =>
     exists points,
       unclipInput engine minAreaRect minSize maxSize contour = Some points
       /\ unclip offsetExecute points unclipRatio = []).

(** An iteration of the loop raises an error exactly when the polygon
    offset of a contour that passed the size test produced no path, and
    what it adds to [edgeRect] is a box in the source image with its
    crop. *)
Lemma lineImageOf_wellCut (contour : Contour) :
  (entryOf contour = None <-> noPath contour)
  /\ forall er, entryOf contour = Some (Some er) -> wellCut er.
Proof.
  unfold lineImageOf, unclipInput.
  destruct (DetectionFacts.getMiniBoxes_spec engine minAreaRect contour)
    as (q0 & q1 & q2 & q3 & -> & _).
  destruct (Rlt_dec _ minSize).
  { split; [|done]. split; [done | by intros (? & ? & _)]. }
  destruct (Rlt_dec maxSize _).
  { split; [|done]. split; [done | by intros (? & ? & _)]. }
  cbv zeta.
  destruct (unclip offsetExecute [q0; q1; q2; q3] unclipRatio)
    as [|v clipBox] eqn:Hclip.
  { split; [|done]. split; [|done]. intros _. eexists. by split. }
  assert (Hpath : ~ (exists points : list Point,
                       Some [q0; q1; q2; q3] = Some points
                       /\ unclip offsetExecute points unclipRatio = [])).
  { intros (points & [= <-] & Hnil). by rewrite Hnil in Hclip. }
  destruct (DetectionFacts.getMiniBoxes_spec engine minAreaRect
              (matFromArray (v :: clipBox)))
    as (u0 & u1 & u2 & u3 & -> & _).
  destruct (Rlt_dec _ (minSize + 2)).
  { split; [|done]. split; [done | by intros ?]. }
  cbn [map].
  destruct (orderPointsClockwise_returns
              (fst u0 * rx, snd u0 * ry) (fst u1 * rx, snd u1 * ry)
              (fst u2 * rx, snd u2 * ry) (fst u3 * rx, snd u3 * ry))
    as (r0 & r1 & r2 & r3 & Hordered).
  match goal with
  | |- context [orderPointsClockwise ?pts] =>
      replace (orderPointsClockwise pts) with (Some [r0; r1; r2; r3])
        by (symmetry; exact Hordered)
  end.
  cbn [map].
  destruct (3 <? Math_floor (linalgNorm (pointOf (clamp r0)) (pointOf (clamp r1))))%Z
    eqn:Hw.
  2: { split; [|done]. split; [done | by intros ?]. }
  destruct (3 <? Math_floor (linalgNorm (pointOf (clamp r0)) (pointOf (clamp r3))))%Z
    eqn:Hh.
  2: { split; [|done]. split; [done | by intros ?]. }
  cbn [andb].
  destruct (longer_edges_gate (clamp r0) (clamp r1) (clamp r2) (clamp r3) Hw Hh)
    as [Hacross Hdown].
  destruct (getRotateCropImage_sides warpPerspective warpAffine sourceImage
              (clamp r0) (clamp r1) (clamp r2) (clamp r3) [])
    as (crop & -> & Hsides); [lia | lia|].
  split; [split; [done | by intros ?]|].
  intros er [= <-].
  exists (clamp r0), (clamp r1), (clamp r2), (clamp r3). cbn [box image].
  split; [done|]. split; [repeat constructor; apply clampPoint_inImage|].
  split; [by apply Math_floor_gate|]. split; [by apply Math_floor_gate|].
  destruct Hsides as [[Hlt Heq]|[Hle Heq]]; injection Heq as -> ->; lia.
Qed.

(** X26: what the region extractor returns.  [splitIntoLineImages]
    raises an error exactly when, for some contour that passed the size
    test, the polygon offset of [unclip] produced no path (OpenCV then
    gets a matrix without points).  When it returns, it returns at most
    one entry for each contour; the box of every entry has four corners
    with whole coordinates inside the source image; its edges from corner
    0 to corner 1 and from corner 0 to corner 3 are at least 4 long; and
    its crop is at least 4 pixels wide and 4 pixels high, and less than
    one and a half times as high as it is wide. *)
Theorem splitIntoLineImages_wellCut (contours : list Contour) :
  (splitIntoLineImages warpPerspective warpAffine engine minAreaRect
     offsetExecute matFromArray minSize maxSize unclipRatio sourceImage
     sourceWidth sourceHeight rx ry contours
   = None
   <-> Exists
         (fun contour =>
            exists points,
              unclipInput engine minAreaRect minSize maxSize contour
              = Some points
              /\ unclip offsetExecute points unclipRatio = [])
         contours)
  /\ forall edgeRect,
       splitIntoLineImages warpPerspective warpAffine engine minAreaRect
         offsetExecute matFromArray minSize maxSize unclipRatio sourceImage
         sourceWidth sourceHeight rx ry contours
       = Some edgeRect ->
       (length edgeRect <= length contours)%nat
       /\ Forall
            (fun er =>
               exists b0 b1 b2 b3,
                 box er = [b0; b1; b2; b3]
                 /\ Forall
                      (fun b =>
                         (0 <= fst b <= Z.of_nat sourceWidth)%Z
                         /\ (0 <= snd b <= Z.of_nat sourceHeight)%Z)
                      (box er)
                 /\ 4 <= linalgNorm (pointOf b0) (pointOf b1)
                 /\ 4 <= linalgNorm (pointOf b0) (pointOf b3)
                 /\ (4 <= crop_width (image er))%Z
                 /\ (4 <= crop_height (image er))%Z
                 /\ (2 * crop_height (image er) < 3 * crop_width (image er))%Z)
            edgeRect.
Proof.
  induction contours as [|contour contours [IHnone IHsome]].
  { split; [split; [done | by intros ?%Exists_nil]|].
    intros edgeRect [= <-]. by split. }
  cbn [splitIntoLineImages].
  destruct (lineImageOf_wellCut contour) as [Hnone Hentry].
  destruct (entryOf contour) as [entry|].
  - assert (Hpath : ~ noPath contour).
    { intros Hno. by apply Hnone in Hno. }
    destruct (splitIntoLineImages _ _ _ _ _ _ _ _ _ _ _ _ _ _ contours)
      as [rest|].
    + split.
      * split; [done|]. intros [Hno|Hex]%Exists_cons; [done|].
        by apply IHnone in Hex.
      * intros edgeRect [= <-]. destruct (IHsome rest eq_refl) as [Hlen Hall].
        split.
        -- rewrite length_app. destruct entry; simpl; lia.
        -- apply Forall_app. split; [|done].
           destruct entry as [er|]; [|constructor].
           repeat constructor. by apply Hentry.
    + split; [|done]. split; [|done]. intros _.
      apply Exists_cons_tl. by apply IHnone.
  - split; [|done]. split; [|done]. intros _.
    apply Exists_cons_hd. by apply Hnone.
Qed.

End Split.

End LineImagesFacts.

(** ** The rectangle of [boxPoints] *)

Module BoxPointsFacts.

Import Detection DetectionFacts.

Local Open Scope R_scope.

Lemma sqrt_square_abs (v s : R) : s = v ^ 2 -> sqrt s = Rabs v.
Proof. intros ->. rewrite <- Rsqr_pow2. apply sqrt_Rsqr_abs. Qed.

(** X27: [boxPoints] builds a rectangle of the given size around the
    given centre, whatever the angle.  Its four corners are the ends of
    edges that are as long as the height, the width, the height and the
    width of the rotated rectangle (in absolute value); the polygon of the
    corners has the perimeter [2 * (|width| + |height|)] and the area
    [|width * height|], and the centre is half way between opposite
    corners. *)
Theorem boxPoints_rectangle (rotatedRect : RotatedRect) :
  let w := width (size rotatedRect) in
  let h := height (size rotatedRect) in
  exists c0 c1 c2 c3,
    boxPoints rotatedRect = [c0; c1; c2; c3]
    /\ edgeLength c0 c1 = Rabs h /\ edgeLength c1 c2 = Rabs w
    /\ edgeLength c2 c3 = Rabs h /\ edgeLength c3 c0 = Rabs w
    /\ polygonPolygonLength (boxPoints rotatedRect) = 2 * (Rabs w + Rabs h)
    /\ polygonPolygonArea (boxPoints rotatedRect) = Rabs (w * h)
    /\ (fst c0 + fst c2) / 2 = x (center rotatedRect)
    /\ (snd c0 + snd c2) / 2 = y (center rotatedRect)
    /\ (fst c1 + fst c3) / 2 = x (center rotatedRect)
    /\ (snd c1 + snd c3) / 2 = y (center rotatedRect).
Proof.
  intros w h. unfold boxPoints. cbv zeta. fold w h.
  set (t := angle rotatedRect * PI / 180).
  pose proof (sin2_cos2 t) as Hsc. unfold Rsqr in Hsc.
  set (a := sin t * (1 / 2)). set (b := cos t * (1 / 2)).
  assert (Hab : a * a + b * b = 1 / 4) by (unfold a, b; nra).
  clearbody a b. clear Hsc.
  set (cx := x (center rotatedRect)). set (cy := y (center rotatedRect)).
  clearbody w h cx cy.
  assert (Hh : forall s, s = 4 * (a * a + b * b) * h ^ 2 -> sqrt s = Rabs h).
  { intros s ->. apply sqrt_square_abs. rewrite Hab. field. }
  assert (Hw : forall s, s = 4 * (a * a + b * b) * w ^ 2 -> sqrt s = Rabs w).
  { intros s ->. apply sqrt_square_abs. rewrite Hab. field. }
  assert (H01 : edgeLength (cx - a * h - b * w, cy + b * h - a * w)
                  (cx + a * h - b * w, cy - b * h - a * w) = Rabs h).
  { apply Hh. cbn [fst snd]. ring. }
  assert (H12 : edgeLength (cx + a * h - b * w, cy - b * h - a * w)
                  (cx + a * h + b * w, cy - b * h + a * w) = Rabs w).
  { apply Hw. cbn [fst snd]. ring. }
  assert (H23 : edgeLength (cx + a * h + b * w, cy - b * h + a * w)
                  (cx - a * h + b * w, cy + b * h + a * w) = Rabs h).
  { apply Hh. cbn [fst snd]. ring. }
  assert (H30 : edgeLength (cx - a * h + b * w, cy + b * h + a * w)
                  (cx - a * h - b * w, cy + b * h - a * w) = Rabs w).
  { apply Hw. cbn [fst snd]. ring. }
  eexists _, _, _, _. split; [reflexivity|].
  split; [exact H01|]. split; [exact H12|]. split; [exact H23|].
  split; [exact H30|]. split; [|split].
  - rewrite polygonPolygonLength_four, H01, H12, H23, H30. ring.
  - unfold polygonPolygonArea. rewrite edges_four. cbn [fold_left fst snd].
    match goal with
    | |- Rabs ?T / 2 = _ =>
        replace T with (2 * (4 * (a * a + b * b)) * (w * h)) by ring
    end.
    rewrite Hab.
    replace (2 * (4 * (1 / 4)) * (w * h)) with (2 * (w * h)) by field.
    rewrite Rabs_mult, (Rabs_pos_eq 2) by lra. field.
  - cbn [fst snd]. repeat split; field.
Qed.

End BoxPointsFacts.

(** ** Lines and crops that do not match in number *)

Module RunFacts.

Import Recognition RecognitionNotions RecognitionFacts.

Local Open Scope nat_scope.

Section Run.

Context (dictionary : list jsstring).
Context (removeDuplicateChars : bool).
Context {Image ModelData : Type}.
Context (toModelData : Image -> ModelData).
Context (runModel : ModelData -> Tensor).

Lemma attachBox_lookup (lineImages : list (LineImage (Image := Image)))
    (allLines : list Line)
    (i : nat) :
  imap (attachBox lineImages (length allLines)) allLines !! i
  = (fun l =>
       (fun li => {| line := l; box := li_box li |})
       <$> lineImages !! (length allLines - i - 1))
    <$> allLines !! i.
Proof.
  rewrite list_lookup_imap. destruct (allLines !! i) as [l|]; [|done].
  simpl. unfold attachBox. by destruct (lineImages !! _).
Qed.

(** X29: [run] pairs lines with crops by position, counted from the
    end, and fails when there are more lines than crops.  If the models'
    outputs decode to the lines [allLines], then with at most as many
    lines as crops the result at position [i] (before the confidence
    filter) is line [i] with the box of crop [allLines.length - i - 1],
    whichever crop the line was read from; with more lines than crops
    [run] raises a TypeError. *)
Theorem run_pairs_by_position (lineImages : list (LineImage (Image := Image)))
    (allLines : list Line) :
  runLoop dictionary removeDuplicateChars runModel
    (map (fun li => toModelData (li_image li)) lineImages) []
  = Some allLines ->
  (length allLines <= length lineImages ->
   exists all,
     runUnfiltered dictionary removeDuplicateChars toModelData runModel
       lineImages
     = Some all
     /\ length all = length allLines
     /\ forall i l, allLines !! i = Some l ->
          exists li,
            lineImages !! (length allLines - i - 1) = Some li
            /\ all !! i = Some {| line := l; box := li_box li |})
  /\ (length lineImages < length allLines ->
      forall confidenceThreshold,
        run dictionary removeDuplicateChars toModelData runModel
          confidenceThreshold lineImages
        = None).
Proof.
  intros Hloop. split.
  - intros Hlen. unfold runUnfiltered. rewrite Hloop.
    destruct (mapM (fun r => r)
                (imap (attachBox lineImages (length allLines)) allLines))
      as [all|] eqn:Hall.
    + apply mapM_Some_1 in Hall.
      pose proof (Forall2_length _ _ _ Hall) as Hl.
      rewrite length_imap in Hl.
      exists all. split; [done|]. split; [done|].
      intros i l Hi.
      destruct (Forall2_lookup_l _ _ _ i
                  ((fun li => {| line := l; box := li_box li |})
                   <$> lineImages !! (length allLines - i - 1)) Hall)
        as (r & Hr & Hx).
      { by rewrite attachBox_lookup, Hi. }
      destruct (lineImages !! (length allLines - i - 1)) as [li|]; [|done].
      injection Hx as <-. by exists li.
    + exfalso. apply mapM_None_1 in Hall.
      apply Exists_exists in Hall as (x & Hx & Hnone).
      apply list_elem_of_lookup in Hx as [i Hx].
      rewrite attachBox_lookup in Hx.
      destruct (allLines !! i) as [l|] eqn:Hi; [|done]. simpl in Hx.
      injection Hx as <-. apply lookup_lt_Some in Hi.
      destruct (lookup_lt_is_Some_2 lineImages (length allLines - i - 1))
        as [li Hli]; [lia|].
      by rewrite Hli in Hnone.
  - intros Hlen confidenceThreshold. unfold run, runUnfiltered.
    rewrite Hloop.
    destruct (mapM (fun r => r)
                (imap (attachBox lineImages (length allLines)) allLines))
      as [all|] eqn:Hall; [|done].
    exfalso. apply mapM_Some_1 in Hall.
    destruct allLines as [|l allLines]; [simpl in Hlen; lia|].
    destruct (Forall2_lookup_l _ _ _ 0
                ((fun li => {| line := l; box := li_box li |})
                 <$> lineImages !! (length (l :: allLines) - 0 - 1)) Hall)
      as (r & _ & Hx).
    { by rewrite attachBox_lookup. }
    rewrite lookup_ge_None_2 in Hx by (simpl in *; lia). done.
Qed.

End Run.

Lemma run_pairs_by_position_witness :
  run dictionaryA true (fun image : nat => image) (fun _ => tensorAB)
    (1 # 2) [mkLineImage [(0, 0); (10, 0); (10, 5); (0, 5)]%Q 0]
  = None.
Proof.
  eapply (run_pairs_by_position dictionaryA true (fun image : nat => image)
            (fun _ => tensorAB)
            [mkLineImage [(0, 0); (10, 0); (10, 5); (0, 5)]%Q 0]).
  - by vm_compute.
  - simpl. lia.
Defined.

End RunFacts.

(** ** The text of a paragraph *)

Module ParagraphTextFacts.

Import StringNotions StringFacts.

Local Open Scope nat_scope.

(** A text as [detect] puts it in [data]: not empty, and in normal
    form. *)
Local Abbreviation clean :=
  (fun t : jsstring =>
     t <> [] /\ singleSpaced true t = true
     /\ forall c, last t = Some c -> isWhiteSpace c = false).

Lemma singleSpaced_app (b : bool) (s k : jsstring) :
  singleSpaced b (s ++ k)
  = singleSpaced b s
    && singleSpaced (from_option isWhiteSpace b (last s)) k.
Proof.
  revert b. induction s as [|c s IH]; intros b; [done|].
  cbn [app singleSpaced]. rewrite !IH.
  destruct s as [|d s].
  - cbn [last from_option singleSpaced].
    destruct (isWhiteSpace c); by rewrite ?andb_true_r.
  - rewrite !last_cons_cons.
    destruct (last (d :: s)) as [e|] eqn:Hlast; [|by apply last_None in Hlast].
    cbn [from_option]. destruct (isWhiteSpace c); by rewrite ?andb_assoc.
Qed.

Lemma trim_clean (t : jsstring) :
  singleSpaced true t = true ->
  (forall c, last t = Some c -> isWhiteSpace c = false) ->
  trim t = t.
Proof.
  intros Hs Hlast. unfold trim.
  rewrite (trimStart_id t).
  - rewrite (trimStart_id (rev t)); [apply rev_involutive|].
    intros c s' Hrev. apply Hlast.
    rewrite <- (rev_involutive t), Hrev. cbn [rev]. apply last_snoc.
  - intros c s' ->. cbn [singleSpaced] in Hs.
    destruct (isWhiteSpace c); [|done]. by rewrite andb_false_r in Hs.
Qed.

Lemma joinSpace_clean (t : jsstring) (texts : list jsstring) :
  Forall clean (t :: texts) -> clean (Paragraphs.joinSpace (t :: texts)).
Proof.
  revert t. induction texts as [|u texts IH]; intros t Hall.
  { by apply Forall_cons in Hall as [Ht _]. }
  apply Forall_cons in Hall as [(Hne & Hs & Hlast) Hrest].
  destruct (IH u Hrest) as (Hne' & Hs' & Hlast').
  change (Paragraphs.joinSpace (t :: u :: texts))
    with (t ++ 32%N :: Paragraphs.joinSpace (u :: texts)).
  set (rest := Paragraphs.joinSpace (u :: texts)) in *.
  split; [by destruct t|]. split.
  - rewrite singleSpaced_app, Hs. cbn [andb].
    destruct (last t) as [c|] eqn:Hc.
    + cbn [from_option]. rewrite (Hlast c eq_refl). cbn [singleSpaced].
      by rewrite Hs'.
    + by apply last_None in Hc.
  - intros c. rewrite last_app_cons. destruct rest as [|d rest']; [done|].
    rewrite last_cons_cons. apply Hlast'.
Qed.

Section Detect.

Context (engine : ArraySort).
Context {Image ModelData : Type}.
Context (toModelData : Image -> ModelData).
Context (runModel : ModelData -> Recognition.Tensor).
Context (dictionary : list jsstring).
Context (removeDuplicateChars : bool).
Context (confidenceThreshold : Q).
Context (groupingConfig : Grouping.GroupingConfig).

Local Abbreviation decoded :=
  (fun ln : Recognition.Line =>
     exists textIndex textProb,
       ln = Recognition.decode dictionary removeDuplicateChars textIndex
              textProb).

Lemma linesLoop_decoded (output : Recognition.Tensor) (fuel : nat) (l : Z)
    (lines : list Recognition.Line) :
  Recognition.linesLoop dictionary removeDuplicateChars output fuel l
  = Some lines ->
  Forall decoded lines.
Proof.
  revert l lines.
  induction fuel as [|fuel IH]; intros l lines; cbn [Recognition.linesLoop];
    destruct (l <? 0)%Z; try done; try (intros [= <-]; constructor).
  destruct (Recognition.predsLoop _ _ _ _) as [predsIdx predsProb].
  destruct (Recognition.linesLoop _ _ _ _ _) as [rest|] eqn:Hrest; [|done].
  intros [= <-]. constructor; [by eexists _, _ | by eapply IH].
Qed.

Lemma runLoop_decoded (modelDatas : list ModelData)
    (allLines all : list Recognition.Line) :
  Recognition.runLoop dictionary removeDuplicateChars runModel modelDatas
    allLines
  = Some all ->
  Forall decoded allLines -> Forall decoded all.
Proof.
  revert allLines. induction modelDatas as [|modelData rest IH];
    intros allLines; cbn [Recognition.runLoop]; [by intros [= <-]|].
  destruct (Recognition.decodeText _ _ _) as [lines|] eqn:Hlines; [|done].
  intros Hrest Hall. apply (IH _ Hrest), Forall_app. split; [|done].
  by eapply linesLoop_decoded.
Qed.

Lemma run_decoded (lineImages : list Recognition.LineImage)
    (kept : list Recognition.Recognized) (r : Recognition.Recognized) :
  Recognition.run dictionary removeDuplicateChars toModelData runModel
    confidenceThreshold lineImages
  = Some kept ->
  r ∈ kept -> decoded (Recognition.line r).
Proof.
  unfold Recognition.run, Recognition.runUnfiltered.
  destruct (Recognition.runLoop _ _ _ _ _) as [allLines|] eqn:Hloop; [|done].
  destruct (mapM _ _) as [all|] eqn:Hall; [|done].
  intros [= <-] [Hr _]%list_elem_of_In%filter_In.
  apply mapM_Some_1 in Hall.
  apply list_elem_of_In, list_elem_of_lookup in Hr as [i Hi].
  destruct (Forall2_lookup_r _ _ _ _ _ Hall Hi) as (x & Hx & Hxr).
  rewrite list_lookup_imap in Hx.
  destruct (allLines !! i) as [l|] eqn:Hl; [|done]. simpl in Hx.
  injection Hx as <-. unfold Recognition.attachBox in Hxr.
  destruct (lineImages !! _) as [li|]; [|done].
  injection Hxr as <-. cbn [Recognition.line].
  pose proof (runLoop_decoded _ [] allLines Hloop ltac:(constructor)) as Hlines.
  rewrite Forall_forall in Hlines. apply Hlines.
  by eapply list_elem_of_lookup_2.
Qed.

Lemma element_clean (lineImages : list Recognition.LineImage)
    (texts : list Recognition.Recognized) (e : Grouping.TextElement) :
  Recognition.run dictionary removeDuplicateChars toModelData runModel
    confidenceThreshold lineImages
  = Some texts ->
  e ∈ Ocr.individualElements texts -> clean (Grouping.text e).
Proof.
  intros Hrun He. unfold Ocr.individualElements in He.
  apply list_elem_of_In, in_map_iff in He as (item & <- & Hitem).
  apply filter_In in Hitem as [Hitem Htext]. apply list_elem_of_In in Hitem.
  destruct (run_decoded lineImages texts item Hrun Hitem)
    as (textIndex & textProb & Hline).
  cbn [Grouping.text]. unfold Ocr.hasText in Htext. rewrite Hline in *.
  rewrite RecognitionFacts.decode_emitted in *. cbn [Recognition.text] in *.
  set (u := collapseWhitespace (removeCarriageReturns _)) in *.
  rewrite trim_idempotent in *. split; [|split].
  - intros Hnil. by rewrite Hnil in Htext.
  - apply normalized_singleSpaced.
  - intros c (l' & Hl')%last_Some. apply (trim_last u c (rev l')).
    by rewrite Hl', rev_app_distr.
Qed.

(** X30: the text of a paragraph.  Whenever [detect] returns, the text
    of every paragraph is the texts of its elements joined by single
    spaces; it is not empty and it is in normal form: trimming,
    collapsing white space and removing carriage returns all leave it
    unchanged. *)
Theorem detect_paragraph_text (grouped : bool)
    (lineImages : list Recognition.LineImage) (result : Paragraphs.Result)
    (paragraphs : list Paragraphs.Paragraph) (p : Paragraphs.Paragraph) :
  Paragraphs.detect engine toModelData runModel dictionary removeDuplicateChars
    confidenceThreshold groupingConfig grouped lineImages
  = Some result ->
  Paragraphs.paragraphs result = Some paragraphs ->
  p ∈ paragraphs ->
  Paragraphs.text p
  = Paragraphs.joinSpace (map Paragraphs.el_text (Paragraphs.elements p))
  /\ Paragraphs.text p <> []
  /\ trim (Paragraphs.text p) = Paragraphs.text p
  /\ collapseWhitespace (Paragraphs.text p) = Paragraphs.text p
  /\ removeCarriageReturns (Paragraphs.text p) = Paragraphs.text p.
Proof.
  unfold Paragraphs.detect.
  destruct (Recognition.run _ _ _ _ _ _) as [texts|] eqn:Hrun; [|done].
  cbv zeta. destruct grouped; [|by intros [= <-]].
  destruct (DetectFacts.groupTextElements_parts engine
              (Ocr.individualElements texts) groupingConfig)
    as (groups & -> & Hperm & Hne).
  intros [= <-] [= <-] (g & <- & Hg)%list_elem_of_In%in_map_iff.
  apply list_elem_of_In in Hg.
  cbn [Paragraphs.createParagraph Paragraphs.text Paragraphs.elements].
  rewrite map_map. cbn [Paragraphs.paragraphElement Paragraphs.el_text].
  split; [done|].
  assert (Hclean : Forall clean (map Grouping.text g)).
  { apply Forall_forall. intros t (e & <- & He)%list_elem_of_In%in_map_iff.
    apply (element_clean lineImages texts e Hrun). rewrite <- Hperm.
    apply list_elem_of_In, in_concat. exists g.
    split; [by apply list_elem_of_In | done]. }
  rewrite Forall_forall in Hne. specialize (Hne g Hg).
  destruct g as [|e g]; [done|]. cbn [map] in *.
  destruct (joinSpace_clean _ _ Hclean) as (Hnonempty & Hs & Hlast).
  split; [done|]. split; [by apply trim_clean|].
  split; [by apply singleSpaced_collapse, singleSpaced_weaken|].
  by apply (singleSpaced_removeCarriageReturns true).
Qed.

End Detect.

Lemma detect_paragraph_text_witness :
  exists result paragraphs,
    Paragraphs.detect insertion_engine (fun image : nat => image)
      Recognition.exampleModel Recognition.dictionaryA true (1 # 2)
      Grouping.DEFAULT_GROUPING true Recognition.exampleCrops
    = Some result
    /\ Paragraphs.paragraphs result = Some paragraphs
    /\ Forall (fun p => trim (Paragraphs.text p) = Paragraphs.text p)
         paragraphs.
Proof.
  eexists _, _. split; [by vm_compute|]. split; [reflexivity|].
  apply Forall_forall. intros p Hp.
  eapply (detect_paragraph_text insertion_engine (fun image : nat => image)
            Recognition.exampleModel Recognition.dictionaryA true (1 # 2)
            Grouping.DEFAULT_GROUPING true Recognition.exampleCrops).
  - by vm_compute.
  - reflexivity.
  - exact Hp.
Defined.

End ParagraphTextFacts.
